(** * PENTrack: geometry service and trajectory integrator

    A shallow embedding of [src/geometry.cpp] (material and solid
    definitions, construction of the geometry, the segment test, the
    containment query and the lookups of a solid) and of [particle.h] (the
    collision resolver [TParticle::CheckHit], the integration loop
    [TParticle::Integrate], the initialisation of a particle, its energies
    and its equations of motion).

    Numbers of type [double] and [long double] are read as real numbers;
    where the source relies on an IEEE result that the reals do not have
    (a division by zero), the result is written out.  Exceptions are an
    error result, undefined behaviour of the C++ code (dereferencing
    [end()], indexing a vector out of range) is an outcome of its own. *)

From Stdlib Require Import Reals Lra Lia ZArith List String Bool Permutation Sorted.
Import ListNotations.

Open Scope R_scope.

(** ** Comparisons of reals as booleans *)

Definition Rltb (a b : R) : bool := if Rlt_dec a b then true else false.
Definition Rleb (a b : R) : bool := if Rle_dec a b then true else false.
Definition Reqb (a b : R) : bool := if Req_dec_T a b then true else false.

(** Decides the comparisons of reals that a goal evaluates, closing the
    impossible branch by linear arithmetic. *)
Ltac rcompare :=
  unfold Rltb, Rleb, Reqb in *;
  repeat match goal with
         | |- context [Rlt_dec ?a ?b] => destruct (Rlt_dec a b); try lra
         | |- context [Rle_dec ?a ?b] => destruct (Rle_dec a b); try lra
         | |- context [Req_dec_T ?a ?b] => destruct (Req_dec_T a b); try lra
         end.

(** ** Vectors *)

Record vec3 := mk3 { c0 : R; c1 : R; c2 : R }.

(** The state vector [y[6]]: position and velocity. *)
Record vec6 := mk6 { at0 : R; at1 : R; at2 : R; at3 : R; at4 : R; at5 : R }.

(** [for (int i = 0; i < 6; i++) y[i] = f(i)] *)
Definition tabulate6 (f : nat -> R) : vec6 :=
  mk6 (f 0%nat) (f 1%nat) (f 2%nat) (f 3%nat) (f 4%nat) (f 5%nat).

(** ** Exceptions *)

Inductive exn :=
| Could_not_read_material (name : string)
| Both_reflection_models (name : string)
| Could_not_load_solid (ID : Z)
| Invalid_ignoretimes (ID : Z)
| Material_not_defined (name : string)
| Identical_ID
| Could_not_find_solid (ID : Z)
| Mesh_error.

Inductive result (A : Type) :=
| Ok (a : A)
| Throw (e : exn).
Arguments Ok {A} a.
Arguments Throw {A} e.

Definition rbind {A B} (r : result A) (k : A -> result B) : result B :=
  match r with
  | Ok a => k a
  | Throw e => Throw e
  end.

Declare Scope result_scope.
Delimit Scope result_scope with result.
Notation "'try!' x <- r ; k" := (rbind r (fun x => k))
  (at level 10, x pattern, r at level 100, k at level 200) : result_scope.

(** ** Materials and solids (geometry.h, geometry.cpp) *)

Record material := {
  mat_name : string;
  FermiReal : R;
  FermiImag : R;
  DiffProb : R;
  SpinflipProb : R;
  RMSRoughness : R;
  CorrelLength : R;
  LossPerBounce : R;
  MFPElastic : R
}.

Record solid := {
  ID : Z;
  name : string;
  filename : string;
  mat : material;
  ignoretimes : list (R * R)
}.

(** A collision of a segment with a triangle of the mesh: the parametric
    coordinate [s] of the hit on the segment, the surface normal and the ID
    the mesh holds for the triangle's solid.  geometry.cpp looks the solid
    with this ID up ([GetSolid(it.ID)]), particle.h takes it for an index
    into the vector of solids ([geom->solids[coll.ID]]). *)
Record TCollision := {
  coll_s : R;
  coll_normal : vec3;
  coll_ID : Z
}.

Module Geometry.

Local Open Scope result_scope.

(** *** Reading a material

    An input stream of numbers: the whitespace-separated fields still to be
    read, [None] for a field that is not a number, and the stream's fail
    bit.  Once the fail bit is set every further extraction does nothing. *)

Record istream := { fields : list (option R); failbit : bool }.

Definition istringstream (l : list (option R)) : istream :=
  {| fields := l; failbit := false |}.

(** [str >> x] for a [double x]: the value read and the stream after it. *)
Definition get_double (old : R) (str : istream) : R * istream :=
  if failbit str then (old, str)
  else match fields str with
       | Some v :: rest => (v, {| fields := rest; failbit := false |})
       | _ => (0, {| fields := fields str; failbit := true |})
       end.

(** [operator>>(std::istream&, material&)] *)
Definition read_material (m : material) (str : istream) : result (material * istream) :=
  let '(fr, str) := get_double (FermiReal m) str in
  let '(fi, str) := get_double (FermiImag m) str in
  let '(dp, str) := get_double (DiffProb m) str in
  let '(sp, str) := get_double (SpinflipProb m) str in
  let '(rms, str) := get_double (RMSRoughness m) str in
  let '(cl, str) := get_double (CorrelLength m) str in
  let '(lpb, str) := get_double (LossPerBounce m) str in
  let '(mfp, str) := get_double (MFPElastic m) str in
  if failbit str then Throw (Could_not_read_material (mat_name m))
  else if negb (Reqb dp 0) && (negb (Reqb rms 0) || negb (Reqb cl 0))
  then Throw (Both_reflection_models (mat_name m))
  else Ok ({| mat_name := mat_name m; FermiReal := fr; FermiImag := fi;
              DiffProb := dp; SpinflipProb := sp; RMSRoughness := rms;
              CorrelLength := cl; LossPerBounce := lpb; MFPElastic := mfp |}, str).

(** The first eight fields of a material line, when all of them are
    numbers. *)
Definition eight_numbers (l : list (option R)) : option (list R * list (option R)) :=
  match l with
  | Some a :: Some b :: Some c :: Some d :: Some e :: Some f :: Some g :: Some h :: rest =>
      Some ([a; b; c; d; e; f; g; h], rest)
  | _ => None
  end.

(** *** Reading a solid

    What [operator>>(std::istream&, solid&)] finds in the value of a
    [GEOMETRY] entry: a file name, a material name and pairs of ignore
    times, or a line it rejects. *)

Inductive solid_line :=
| Line (file matname : string) (times : list (R * R))
| Line_without_names
| Line_with_invalid_ignoretimes.

Definition material_named (nm : string) : material :=
  {| mat_name := nm; FermiReal := 0; FermiImag := 0; DiffProb := 0; SpinflipProb := 0;
     RMSRoughness := 0; CorrelLength := 0; LossPerBounce := 0; MFPElastic := 0 |}.

Definition read_solid (model : solid) (line : solid_line) : result solid :=
  match line with
  | Line file matname times =>
      Ok {| ID := ID model; name := name model; filename := file;
            mat := material_named matname;
            ignoretimes := ignoretimes model ++ times |}
  | Line_without_names => Throw (Could_not_load_solid (ID model))
  | Line_with_invalid_ignoretimes => Throw (Invalid_ignoretimes (ID model))
  end.

(** *** The geometry *)

Record TGeometry := {
  mesh_IDs : list Z;        (* the IDs handed to [mesh.ReadFile], in order *)
  defaultsolid : solid;
  solids : list solid
}.

(** [std::unique(first, last, p)]: of every run of consecutive equivalent
    elements only the first is kept. *)
Fixpoint unique_after {A} (p : A -> A -> bool) (kept : A) (l : list A) : list A :=
  match l with
  | [] => []
  | a :: l' => if p kept a then unique_after p kept l' else a :: unique_after p a l'
  end.

Definition std_unique {A} (p : A -> A -> bool) (l : list A) : list A :=
  match l with
  | [] => []
  | a :: l' => a :: unique_after p a l'
  end.

Definition same_ID (s1 s2 : solid) : bool := (ID s1 =? ID s2)%Z.

(** [std::unique(...) != solids.end()] *)
Definition unique_removes (l : list solid) : bool :=
  negb (List.length (std_unique same_ID l) =? List.length l)%nat.

Section Constructor.

(** The triangle mesh is not part of the embedded sources: reading a file
    into it gives the solid's name or fails. *)
Variable mesh_ReadFile : string -> Z -> result string.

(** The member [defaultsolid] before any solid with ID 1 is read. *)
Variable defaultsolid_unset : solid.

(** [std::transform] over the [MATERIALS] section. *)
Fixpoint read_materials (conf : list (string * list (option R))) : result (list material) :=
  match conf with
  | [] => Ok []
  | (nm, value) :: rest =>
      try! r <- read_material (material_named nm) (istringstream value);
      try! ms <- read_materials rest;
      Ok (fst r :: ms)
  end.

Definition find_material (materials : list material) (nm : string) : option material :=
  find (fun m => String.eqb nm (mat_name m)) materials.

(** The loop over the [GEOMETRY] section: each entry is the ID read from
    its key and the line read from its value. *)
Fixpoint load_solids (materials : list material) (entries : list (Z * solid_line))
         (g : TGeometry) : result TGeometry :=
  match entries with
  | [] => Ok g
  | (id, line) :: rest =>
      try! sld <- read_solid {| ID := id; name := EmptyString; filename := EmptyString;
                                mat := material_named EmptyString; ignoretimes := [] |} line;
      match find_material materials (mat_name (mat sld)) with
      | None => Throw (Material_not_defined (mat_name (mat sld)))
      | Some m =>
          if (ID sld =? 1)%Z then
            load_solids materials rest
              {| mesh_IDs := mesh_IDs g;
                 defaultsolid := {| ID := ID sld; name := "default solid";
                                    filename := filename sld; mat := m;
                                    ignoretimes := ignoretimes sld |};
                 solids := solids g |}
          else
            try! nm <- mesh_ReadFile (filename sld) (ID sld);
            load_solids materials rest
              {| mesh_IDs := mesh_IDs g ++ [ID sld];
                 defaultsolid := defaultsolid g;
                 solids := solids g ++ [ {| ID := ID sld; name := nm;
                                            filename := filename sld; mat := m;
                                            ignoretimes := ignoretimes sld |} ] |}
      end
  end.

(** [TGeometry::TGeometry(TConfig&)], from the [MATERIALS] and [GEOMETRY]
    sections of the configuration. *)
Definition TGeometry_new (MATERIALS : list (string * list (option R)))
           (GEOMETRY : list (Z * solid_line)) : result TGeometry :=
  try! materials <- read_materials MATERIALS;
  try! g <- load_solids materials GEOMETRY
              {| mesh_IDs := []; defaultsolid := defaultsolid_unset; solids := [] |};
  if unique_removes (solids g) then Throw Identical_ID else Ok g.

End Constructor.

(** *** Segment test and containment query *)

Definition multimap := list (TCollision * bool).

Fixpoint erase_first {A} (p : A -> bool) (l : list A) : list A :=
  match l with
  | [] => []
  | a :: l' => if p a then l' else a :: erase_first p l'
  end.

(** [std::max_element(first, last, comp)], as the standard libraries
    implement it: the range is scanned once and the candidate is replaced
    whenever [comp] holds of the candidate and the element reached; [None] is [last], returned for
    an empty range. *)
Fixpoint max_element_from {A} (comp : A -> A -> bool) (largest : A) (l : list A) : A :=
  match l with
  | [] => largest
  | a :: l' => max_element_from comp (if comp largest a then a else largest) l'
  end.

Definition max_element {A} (comp : A -> A -> bool) (l : list A) : option A :=
  match l with
  | [] => None
  | a :: l' => Some (max_element_from comp a l')
  end.

(** The comparison [TGeometry::GetSolid(t, p)] hands to [std::max_element]. *)
Definition lower_priority (s1 s2 : solid * bool) : bool :=
  snd s1 || (negb (snd s2) && (ID (fst s1) <? ID (fst s2))%Z).

Section Queries.

(** [mesh.Collision(p1, p2)], the order [operator<] of [TCollision] and
    the lower corner of [mesh.GetBoundingBox()] come from headers that are
    not embedded. *)
Variable mesh_Collision : vec3 -> vec3 -> list TCollision.
Variable coll_less : TCollision -> TCollision -> bool.
Variables xmin ymin zmin : R.
Variable REFLECT_TOLERANCE : R.

Variable geom : TGeometry.

(** [TGeometry::GetSolid(const unsigned ID)] *)
Definition GetSolid (id : Z) : result solid :=
  match find (fun sld => (ID sld =? id)%Z) (solids geom) with
  | Some sld => Ok sld
  | None => Throw (Could_not_find_solid id)
  end.

(** [colls.emplace(k, v)]: the pair goes before the first key greater than
    [k], after every equivalent one. *)
Fixpoint emplace (k : TCollision) (v : bool) (colls : multimap) : multimap :=
  match colls with
  | [] => [(k, v)]
  | kv :: colls' =>
      if coll_less k (fst kv) then (k, v) :: colls else kv :: emplace k v colls'
  end.

(** [t >= its.first && t < its.second] *)
Definition in_ignoretime (t : R) (its : R * R) : bool :=
  Rleb (fst its) t && Rltb t (snd its).

Fixpoint tag_collisions (x1 x2 : R) (c : list TCollision) (colls : multimap)
  : result multimap :=
  match c with
  | [] => Ok colls
  | it :: rest =>
      try! sld <- GetSolid (coll_ID it);
      let t := x1 + (x2 - x1) * coll_s it in
      let ignored := existsb (in_ignoretime t) (ignoretimes sld) in
      tag_collisions x1 x2 rest (emplace it ignored colls)
  end.

(** The tag a record gets: whether its hit time lies in an ignore time of
    the solid that [GetSolid] finds for its ID. *)
Definition tagged (x1 x2 : R) (kv : TCollision * bool) : Prop :=
  exists sld,
    GetSolid (coll_ID (fst kv)) = Ok sld
    /\ snd kv = existsb (in_ignoretime (x1 + (x2 - x1) * coll_s (fst kv))) (ignoretimes sld).

(** [TGeometry::GetCollisions]: the value returned and [colls]. *)
Definition GetCollisions (x1 : R) (p1 : vec3) (x2 : R) (p2 : vec3)
  : result (bool * multimap) :=
  try! colls <- tag_collisions x1 x2 (mesh_Collision p1 p2) [];
  Ok (negb (match colls with [] => true | _ => false end), colls).

Definition holds (id : Z) (s : solid * bool) : bool := (ID (fst s) =? id)%Z.

Fixpoint toggle_solids (c : multimap) (currentsolids : list (solid * bool))
  : result (list (solid * bool)) :=
  match c with
  | [] => Ok currentsolids
  | i :: rest =>
      if existsb (holds (coll_ID (fst i))) currentsolids
      then toggle_solids rest (erase_first (holds (coll_ID (fst i))) currentsolids)
      else
        try! sld <- GetSolid (coll_ID (fst i));
        toggle_solids rest (currentsolids ++ [(sld, snd i)])
  end.

(** [TGeometry::GetSolids(t, p)] *)
Definition GetSolids (t : R) (p : vec3) : result (list (solid * bool)) :=
  let p2 := mk3 (xmin - REFLECT_TOLERANCE) (ymin - REFLECT_TOLERANCE)
                (zmin - REFLECT_TOLERANCE) in
  let currentsolids := [(defaultsolid geom, false)] in
  try! r <- GetCollisions t p t p2;
  if fst r then toggle_solids (snd r) currentsolids else Ok currentsolids.

(** [TGeometry::GetSolid(t, p)]; the result is [None] where the source
    dereferences [end()], for an empty list of solids. *)
Definition GetSolid_at (t : R) (p : vec3) : result (option solid) :=
  try! currentsolids <- GetSolids t p;
  Ok (option_map fst (max_element lower_priority currentsolids)).

End Queries.

End Geometry.

(** ** The particle (particle.h) *)

Module Particle.

(** The particle's fate, [TParticle::ID]: the values given with the member's
    declaration (the macros are defined in globals.h). *)
Definition ID_UNKNOWN : Z := 0.
Definition ID_NOT_FINISH : Z := -1.
Definition ID_HIT_BOUNDARIES : Z := -2.
Definition ID_NRERROR : Z := -3.
Definition ID_DECAYED : Z := -4.

Definition MAX_SAMPLE_DIST : R := 1 / 100.

(** What a call does: it returns, or the C++ program has undefined behaviour
    (an end iterator dereferenced, a vector indexed out of range), or the
    model's loop bound is used up. *)
Inductive outcome (A : Type) :=
| Ret (a : A)
| Undefined
| Out_of_fuel.
Arguments Ret {A} a.
Arguments Undefined {A}.
Arguments Out_of_fuel {A}.

Definition obind {A B} (m : outcome A) (k : A -> outcome B) : outcome B :=
  match m with
  | Ret a => k a
  | Undefined => Undefined
  | Out_of_fuel => Out_of_fuel
  end.

Declare Scope outcome_scope.
Delimit Scope outcome_scope with outcome.
Notation "'do' x <- m ; k" := (obind m (fun x => k))
  (at level 10, x pattern, m at level 100, k at level 200) : outcome_scope.
Local Open Scope outcome_scope.

(** [*it] for an iterator that may be [end()]. *)
Definition deref {A} (it : option A) : outcome A :=
  match it with
  | Some a => Ret a
  | None => Undefined
  end.

(** A call of [CheckHit] returns or has undefined behaviour: the bound on
    the depth is never reached. *)
Definition ends {A} (m : outcome A) : Prop :=
  match m with
  | Out_of_fuel => False
  | _ => True
  end.

(** *** [std::set<solid>]

    Modelled from the spec: [solid::operator<] is declared in geometry.h,
    which is not embedded; the current-solid set is ordered by ID and the
    solid with the highest ID is the active one.  So the set keeps its
    elements in ascending order of their IDs, and two solids with the same ID
    are the same element. *)

Definition set_contains (sld : solid) (set : list solid) : bool :=
  existsb (fun e => (ID e =? ID sld)%Z) set.

Fixpoint set_insert (sld : solid) (set : list solid) : list solid :=
  match set with
  | [] => [sld]
  | e :: set' =>
      if (ID sld <? ID e)%Z then sld :: set
      else if (ID e <? ID sld)%Z then e :: set_insert sld set'
      else set
  end.

Definition set_erase (sld : solid) (set : list solid) : list solid :=
  filter (fun e => negb (ID e =? ID sld)%Z) set.

(** [currentsolids] holds a solid with the ID [k]. *)
Definition holds_ID (k : Z) (set : list solid) : bool :=
  existsb (fun e => (ID e =? k)%Z) set.

(** [set.rbegin()] and [++set.rbegin()] *)
Definition rbegin (set : list solid) : option solid := hd_error (rev set).
Definition rbegin_next (set : list solid) : option solid := hd_error (tl (rev set)).

(** The elements of a set are in strictly ascending order of their IDs. *)
Fixpoint ascending (set : list solid) : Prop :=
  match set with
  | [] => True
  | e :: set' => Forall (fun e' => (ID e < ID e')%Z) set' /\ ascending set'
  end.

(** *** Output *)

Record TOutput := {
  tracklog : bool;
  hitlog : bool;
  snapshotlog : bool;
  snapshottimes : list R
}.

(** The lines written by [PrintHit], [PrintTrack] and [Print], with the
    columns the properties below read. *)
Inductive line :=
| hit_line (x : R) (y1 y2 : vec6) (pol1 pol2 : Z) (normal : vec3) (leaving entering : Z)
| track_line (x : R) (y : vec6) (polarisation : Z) (H E : R)
| end_line (x : R) (y : vec6) (polarisation : Z) (H : R) (stopID : Z) (Hmax : R).

(** *** The particle's members

    [ext] stands for the members of the derived particle class, its counters
    and the state of the random generator: what the hooks [OnHit], [OnStep]
    read and write besides [ID]. *)
Record TParticle (U : Type) := {
  ID_ : Z;                       (* TParticle::ID *)
  currentsolids : list solid;
  ext : U;
  printed : list line;           (* lines written so far, latest first *)
  tau : R;
  maxtraj : R;
  tstart : R;
  tend : R;
  ystart : vec6;
  yend : vec6;
  polstart : Z;
  polend : Z;
  Hmax : R;
  lend : R;
  Nstep : Z
}.
Arguments ID_ {U}. Arguments currentsolids {U}. Arguments ext {U}.
Arguments printed {U}. Arguments tau {U}. Arguments maxtraj {U}.
Arguments tstart {U}. Arguments tend {U}. Arguments ystart {U}.
Arguments yend {U}. Arguments polstart {U}. Arguments polend {U}.
Arguments Hmax {U}. Arguments lend {U}. Arguments Nstep {U}.

Definition set_ID {U} (id : Z) (p : TParticle U) : TParticle U :=
  {| ID_ := id; currentsolids := currentsolids p; ext := ext p; printed := printed p;
     tau := tau p; maxtraj := maxtraj p; tstart := tstart p; tend := tend p;
     ystart := ystart p; yend := yend p; polstart := polstart p; polend := polend p;
     Hmax := Hmax p; lend := lend p; Nstep := Nstep p |}.

Definition set_currentsolids {U} (cs : list solid) (p : TParticle U) : TParticle U :=
  {| ID_ := ID_ p; currentsolids := cs; ext := ext p; printed := printed p;
     tau := tau p; maxtraj := maxtraj p; tstart := tstart p; tend := tend p;
     ystart := ystart p; yend := yend p; polstart := polstart p; polend := polend p;
     Hmax := Hmax p; lend := lend p; Nstep := Nstep p |}.

Definition set_ext {U} (u : U) (p : TParticle U) : TParticle U :=
  {| ID_ := ID_ p; currentsolids := currentsolids p; ext := u; printed := printed p;
     tau := tau p; maxtraj := maxtraj p; tstart := tstart p; tend := tend p;
     ystart := ystart p; yend := yend p; polstart := polstart p; polend := polend p;
     Hmax := Hmax p; lend := lend p; Nstep := Nstep p |}.

Definition print {U} (l : line) (p : TParticle U) : TParticle U :=
  {| ID_ := ID_ p; currentsolids := currentsolids p; ext := ext p;
     printed := l :: printed p;
     tau := tau p; maxtraj := maxtraj p; tstart := tstart p; tend := tend p;
     ystart := ystart p; yend := yend p; polstart := polstart p; polend := polend p;
     Hmax := Hmax p; lend := lend p; Nstep := Nstep p |}.

Definition set_energy {U} (l H : R) (p : TParticle U) : TParticle U :=
  {| ID_ := ID_ p; currentsolids := currentsolids p; ext := ext p; printed := printed p;
     tau := tau p; maxtraj := maxtraj p; tstart := tstart p; tend := tend p;
     ystart := ystart p; yend := yend p; polstart := polstart p; polend := polend p;
     Hmax := H; lend := l; Nstep := Nstep p |}.

Definition count_step {U} (p : TParticle U) : TParticle U :=
  {| ID_ := ID_ p; currentsolids := currentsolids p; ext := ext p; printed := printed p;
     tau := tau p; maxtraj := maxtraj p; tstart := tstart p; tend := tend p;
     ystart := ystart p; yend := yend p; polstart := polstart p; polend := polend p;
     Hmax := Hmax p; lend := lend p; Nstep := (Nstep p + 1)%Z |}.

Definition set_end {U} (x : R) (y : vec6) (pol : Z) (p : TParticle U) : TParticle U :=
  {| ID_ := ID_ p; currentsolids := currentsolids p; ext := ext p; printed := printed p;
     tau := tau p; maxtraj := maxtraj p; tstart := tstart p; tend := x;
     ystart := ystart p; yend := y; polstart := polstart p; polend := pol;
     Hmax := Hmax p; lend := lend p; Nstep := Nstep p |}.

(** What the hooks hand back: the value returned, the arguments passed by
    reference and the members written.  [hit_entering] is the pointer
    [entering] after the call: [None] when the hook made it equal to
    [leaving], the solid it points to otherwise. *)
Record OnHit_result (U : Type) := {
  hit_changed : bool;
  hit_x2 : R;
  hit_y2 : vec6;
  hit_entering : option solid;
  hit_ID : Z;
  hit_ext : U
}.
Arguments hit_changed {U}. Arguments hit_x2 {U}. Arguments hit_y2 {U}.
Arguments hit_entering {U}. Arguments hit_ID {U}. Arguments hit_ext {U}.

Record OnStep_result (U : Type) := {
  step_changed : bool;
  step_x2 : R;
  step_y2 : vec6;
  step_ID : Z;
  step_ext : U
}.
Arguments step_changed {U}. Arguments step_x2 {U}. Arguments step_y2 {U}.
Arguments step_ID {U}. Arguments step_ext {U}.

(** What [CheckHit] hands back: the value returned, the segment's end
    ([x2] and [y2] are passed by reference) and the particle. *)
Record checked (U : Type) := {
  changed : bool;
  end_x : R;
  end_y : vec6;
  particle : TParticle U
}.
Arguments changed {U}. Arguments end_x {U}. Arguments end_y {U}.
Arguments particle {U}. Arguments Build_checked {U}.

(** How a localised crossing ends before [PrintHit] and [OnStep]: stopped on
    an inconsistency, or passed on, with the IDs [PrintHit] is to print when
    [hit] was set. *)
Inductive crossing (U : Type) :=
| Stopped (c : checked U)
| Passed (hit : option (Z * Z)) (resetintegration : bool) (x2 : R) (y2 : vec6)
         (p : TParticle U).
Arguments Stopped {U}. Arguments Passed {U}.

Section Integrator.

(** The members of derived particle classes. *)
Variable U : Type.

(** The geometry as particle.h uses it: [geom->CheckSegment(y1, y2)],
    [geom->GetCollisions(x1, y1, h, y2, colls)], which fills the set [colls]
    (in the order of the set) and returns whether it holds a collision, the
    vector [geom->solids] and [geom->GetSolids(t, y, currentsolids)]. *)
Variable CheckSegment : vec6 -> vec6 -> bool.
Variable GetCollisions : R -> vec6 -> R -> vec6 -> list TCollision.
Variable solids : list solid.
Variable GetSolids : R -> vec6 -> list solid.

Variable REFLECT_TOLERANCE : R.

(** The stepper ([StepperDopr853], not embedded): its members [hdid] and
    [hnext], its dense output, a step from [(x, y)] with the step size tried
    ([None] when it throws) and its construction. *)
Variable Stepper : Type.
Variable hdid : Stepper -> R.
Variable hnext : Stepper -> R.
Variable dense_out : Stepper -> nat -> R -> R -> R.
Variable step : Stepper -> R -> vec6 -> R -> option (Stepper * R * vec6).
Variable new_Stepper : vec6 -> R -> Stepper.

(** The virtual methods of the particle; [Decay] adds the secondaries to the
    members of the derived class. *)
Variable OnHit : Z -> U -> R -> vec6 -> R -> vec6 -> vec3 -> solid -> solid -> OnHit_result U.
Variable OnStep : Z -> U -> R -> vec6 -> R -> vec6 -> solid -> OnStep_result U.
Variable Decay : TParticle U -> U.
Variable Epot : R -> vec6 -> Z -> R.

(** The particle's mass and the constants of globals.h. *)
Variable m : R.
Variable c_0 : R.
Variable RELATIVISTIC_THRESHOLD : R.

Variable output : TOutput.

(** [geom->solids[i]] *)
Definition solids_at (i : Z) : option solid :=
  if (i <? 0)%Z then None else nth_error solids (Z.to_nat i).

(** The hooks write [ID] and the members of the derived class. *)
Definition after_OnHit (r : OnHit_result U) (p : TParticle U) : TParticle U :=
  set_ext (hit_ext r) (set_ID (hit_ID r) p).

Definition after_OnStep (r : OnStep_result U) (p : TParticle U) : TParticle U :=
  set_ext (step_ext r) (set_ID (step_ID r) p).

(** [x2 = x1; y2 = y1; ID = ID_NRERROR; return true;] *)
Definition numerical_error (x1 : R) (y1 : vec6) (p : TParticle U) : checked U :=
  {| changed := true; end_x := x1; end_y := y1; particle := set_ID ID_NRERROR p |}.

(** [OnStep(x1, y1, x2, y2, &*currentsolids.rbegin())] and the value returned
    after it. *)
Definition absorb (x1 : R) (y1 : vec6) (x2 : R) (y2 : vec6) (p : TParticle U)
  : outcome (checked U) :=
  do currentsolid <- deref (rbegin (currentsolids p));
  let r := OnStep (ID_ p) (ext p) x1 y1 x2 y2 currentsolid in
  Ret {| changed := step_changed r; end_x := step_x2 r; end_y := step_y2 r;
         particle := after_OnStep r p |}.

Definition distnormal_of (y1 y2 : vec6) (normal : vec3) : R :=
  (at0 y2 - at0 y1) * c0 normal + (at1 y2 - at1 y1) * c1 normal
  + (at2 y2 - at2 y1) * c2 normal.

(** The test that sends a segment with collisions to [OnHit] rather than to
    bisection; [abs] is the absolute value of a [long double]. *)
Definition localised (colls : list TCollision) (coll : TCollision) (distnormal : R)
           (iteration : Z) : bool :=
  ((List.length colls =? 1)%nat
   && Rltb (coll_s coll * Rabs distnormal) REFLECT_TOLERANCE
   && Rltb ((1 - coll_s coll) * Rabs distnormal) REFLECT_TOLERANCE)
  || (iteration >? 99)%Z.

(** [colls.size() > 1 && coll.ID != (++colls.begin())->ID] *)
Definition two_surfaces (colls : list TCollision) (coll : TCollision) : bool :=
  match colls with
  | _ :: second :: _ => negb (coll_ID coll =? coll_ID second)%Z
  | _ => false
  end.

(** The particle enters [hitsolid]. *)
Definition enter (x1 : R) (y1 : vec6) (x2 : R) (y2 : vec6) (coll : TCollision)
           (hitsolid : solid) (p : TParticle U) : outcome (crossing U) :=
  if set_contains hitsolid (currentsolids p)
  then Ret (Stopped (numerical_error x1 y1 p))
  else
    do leaving <- deref (rbegin (currentsolids p));
    if (ID hitsolid >? ID leaving)%Z then
      let r := OnHit (ID_ p) (ext p) x1 y1 x2 y2 (coll_normal coll) leaving hitsolid in
      let p := after_OnHit r p in
      let p := match hit_entering r with
               | Some entering => set_currentsolids (set_insert entering (currentsolids p)) p
               | None => p
               end in
      Ret (Passed (Some (ID leaving, ID hitsolid)) (hit_changed r) (hit_x2 r) (hit_y2 r) p)
    else Ret (Passed None false x2 y2 p).

(** The particle leaves [hitsolid]. *)
Definition leave (x1 : R) (y1 : vec6) (x2 : R) (y2 : vec6) (coll : TCollision)
           (hitsolid : solid) (p : TParticle U) : outcome (crossing U) :=
  if negb (set_contains hitsolid (currentsolids p))
  then Ret (Stopped (numerical_error x1 y1 p))
  else
    do top <- deref (rbegin (currentsolids p));
    if (ID hitsolid =? ID top)%Z then
      do entering <- deref (rbegin_next (currentsolids p));
      let r := OnHit (ID_ p) (ext p) x1 y1 x2 y2 (coll_normal coll) hitsolid entering in
      let p := after_OnHit r p in
      match hit_entering r with
      | Some entering =>
          Ret (Passed (Some (ID hitsolid, ID entering)) (hit_changed r) (hit_x2 r) (hit_y2 r)
                      (set_currentsolids (set_erase hitsolid (currentsolids p)) p))
      | None =>
          do entering <- deref (rbegin_next (currentsolids p));
          Ret (Passed (Some (ID hitsolid, ID entering)) (hit_changed r) (hit_x2 r) (hit_y2 r) p)
      end
    else Ret (Passed None false x2 y2 p).

(** The branch of [CheckHit] for a localised crossing. *)
Definition cross (x1 : R) (y1 : vec6) (x2 : R) (y2 : vec6) (pol : Z)
           (colls : list TCollision) (coll : TCollision) (distnormal : R)
           (p : TParticle U) : outcome (checked U) :=
  do hitsolid <- deref (solids_at (coll_ID coll));
  if two_surfaces colls coll then Ret (numerical_error x1 y1 p)
  else
    do c <- (if Rltb distnormal 0 then enter x1 y1 x2 y2 coll hitsolid p
             else if Rltb 0 distnormal then leave x1 y1 x2 y2 coll hitsolid p
             else Ret (Stopped (numerical_error x1 y1 p)));
    match c with
    | Stopped r => Ret r
    | Passed hit resetintegration x2 y2 p =>
        let p := match hit with
                 | Some (leaving, entering) =>
                     if hitlog output
                     then print (hit_line x1 y1 y2 pol pol (coll_normal coll) leaving entering) p
                     else p
                 | None => p
                 end in
        if resetintegration
        then Ret {| changed := true; end_x := x2; end_y := y2; particle := p |}
        else absorb x1 y1 x2 y2 p
    end.

(** The two cut times of the bisection. *)
Definition cut_before (x1 x2 s : R) (iteration : Z) : R :=
  x1 + (x2 - x1) * s * (1 - 1 / 100 * IZR iteration).

Definition cut_after (x1 x2 s : R) (iteration : Z) : R :=
  x1 + (x2 - x1) * s * (1 + 1 / 100 * IZR iteration).

(** [y[i] = stepper->dense_out(i, x, stepper->hdid)] for the six components. *)
Definition dense (st : Stepper) (x : R) : vec6 :=
  tabulate6 (fun i => dense_out st i x (hdid st)).

(** The branch of [CheckHit] that cuts the step before and after the first
    collision point; [self] is [CheckHit] in its recursive calls. *)
Definition CheckHit_t : Type :=
  Stepper -> R -> vec6 -> R -> vec6 -> Z -> Z -> TParticle U -> outcome (checked U).

Section Bisection.

Variable self : CheckHit_t.

(** The step after the collision point, from [(xbisect2, ybisect2)]. *)
Definition bisect_after (st : Stepper) (xbisect2 : R) (ybisect2 : vec6) (x2 : R) (y2 : vec6)
           (pol iteration : Z) (p : TParticle U) : outcome (checked U) :=
  self st xbisect2 ybisect2 x2 y2 pol (iteration + 1)%Z p.

(** The step over the collision point, from [(xbisect1, ybisect1)], and what
    follows it; [(xbisect2, ybisect2)] is where the step after the collision
    point starts when this one is left out. *)
Definition bisect_over (st : Stepper) (x1 xbisect1 : R) (ybisect1 : vec6) (xbisect2 : R)
           (ybisect2 : vec6) (x2 : R) (y2 : vec6) (pol iteration : Z) (c : TCollision)
           (p : TParticle U) : outcome (checked U) :=
  let xnew := cut_after x1 x2 (coll_s c) iteration in
  if Rltb xbisect1 xnew && Rltb xnew x2 then
    do r <- self st xbisect1 ybisect1 xnew (dense st xnew) pol (iteration + 1)%Z p;
    if changed r then Ret r
    else bisect_after st (end_x r) (end_y r) x2 y2 pol iteration (particle r)
  else bisect_after st xbisect2 ybisect2 x2 y2 pol iteration p.

(** The step before the collision point and what follows it. *)
Definition bisect (st : Stepper) (x1 : R) (y1 : vec6) (x2 : R) (y2 : vec6)
           (pol iteration : Z) (c : TCollision) (p : TParticle U) : outcome (checked U) :=
  let xnew := cut_before x1 x2 (coll_s c) iteration in
  if Rltb x1 xnew && Rltb xnew x2 then
    do r <- self st x1 y1 xnew (dense st xnew) pol (iteration + 1)%Z p;
    if changed r then Ret r
    else bisect_over st x1 (end_x r) (end_y r) xnew (dense st xnew) x2 y2 pol iteration c
                     (particle r)
  else bisect_over st x1 x1 y1 x1 y1 x2 y2 pol iteration c p.

(** The body of [TParticle::CheckHit]. *)
Definition CheckHit_body (st : Stepper) (x1 : R) (y1 : vec6) (x2 : R) (y2 : vec6)
           (pol iteration : Z) (p : TParticle U) : outcome (checked U) :=
  if negb (CheckSegment y1 y2)
  then Ret {| changed := true; end_x := x2; end_y := y2;
              particle := set_ID ID_HIT_BOUNDARIES p |}
  else
    let colls := GetCollisions x1 y1 (hdid st) y2 in
    match colls with
    | [] => absorb x1 y1 x2 y2 p
    | coll :: _ =>
        let distnormal := distnormal_of y1 y2 (coll_normal coll) in
        if localised colls coll distnormal iteration
        then cross x1 y1 x2 y2 pol colls coll distnormal p
        else bisect st x1 y1 x2 y2 pol iteration coll p
    end.

End Bisection.

(** [TParticle::CheckHit].  Every recursive call raises [iteration], and
    none is made once it is above 99: [fuel] bounds the depth. *)
Fixpoint CheckHit_rec (fuel : nat) : CheckHit_t :=
  match fuel with
  | O => fun _ _ _ _ _ _ _ _ => Out_of_fuel
  | S fuel => CheckHit_body (CheckHit_rec fuel)
  end.

(** The depth [CheckHit] can reach from [iteration]. *)
Definition depth (iteration : Z) : nat := S (Z.to_nat (100 - iteration)).

Definition CheckHit (st : Stepper) (x1 : R) (y1 : vec6) (x2 : R) (y2 : vec6)
           (pol : Z) (iteration : Z) (p : TParticle U) : outcome (checked U) :=
  CheckHit_rec (depth iteration) st x1 y1 x2 y2 pol iteration p.

(** *** The integration loop *)

(** [sqrt(y[3]*y[3] + y[4]*y[4] + y[5]*y[5])] *)
Definition speed (y : vec6) : R :=
  sqrt (at3 y * at3 y + at4 y * at4 y + at5 y * at5 y).

(** [TParticle::Ekin] *)
Definition Ekin (v : vec6) : R :=
  let vend := speed v in
  if Rltb (vend / c_0) RELATIVISTIC_THRESHOLD then 1 / 2 * m * vend * vend
  else
    let gammarel := 1 / sqrt (1 - vend * vend / (c_0 * c_0)) in
    c_0 * c_0 * m * (gammarel - 1).

(** [std::max(a, b)] *)
Definition std_max (a b : R) : R := if Rltb a b then b else a.

(** [TParticle::Hstart] *)
Definition Hstart (p : TParticle U) : R :=
  Ekin (ystart p) + Epot (tstart p) (ystart p) (polstart p).

(** [TParticle::InitV], on a particle whose other members are set. *)
Definition InitV (t atau : R) (y : vec6) (pol : Z) (trajl : R) (p : TParticle U)
  : TParticle U :=
  let p := {| ID_ := ID_UNKNOWN; currentsolids := currentsolids p; ext := ext p;
              printed := printed p; tau := atau; maxtraj := trajl; tstart := t; tend := t;
              ystart := y; yend := y; polstart := pol; polend := pol;
              Hmax := Hmax p; lend := 0; Nstep := Nstep p |} in
  let p := set_energy (lend p) (Hstart p) p in
  match currentsolids p with
  | [] => set_currentsolids (GetSolids t (ystart p)) p
  | _ => p
  end.

(** A quotient [c / v] of a positive [c] by a speed [v]: dividing by zero
    gives [+inf] in the floating-point arithmetic of the source. *)
Inductive xreal :=
| Finite (r : R)
| Infinite.

Definition over_speed (c v : R) : xreal :=
  if Reqb v 0 then Infinite else Finite (c / v).

(** The end of the next piece of the step that ends in [(x, y)]: the lines
    from [long double v1 = ...] to the interpolation of [y2]. *)
Definition next_sample (st : Stepper) (x1 : R) (y1 : vec6) (x : R) (y : vec6) : R * vec6 :=
  let v1 := speed y1 in
  match over_speed MAX_SAMPLE_DIST v1 with
  | Infinite => (x, y)
  | Finite d =>
      let x2 := x1 + d in
      if Rleb x x2 then (x, y) else (x2, dense st x2)
  end.

(** The local variables of [Integrate] that the loops change. *)
Record locals := {
  x : R;
  y : vec6;
  x1 : R;
  y1 : vec6;
  h : xreal;
  stepper : Stepper;
  nextsnapshot : list R
}.

Definition distance (y1 y2 : vec6) : R :=
  sqrt ((at0 y2 - at0 y1) ^ 2 + (at1 y2 - at1 y1) ^ 2 + (at2 y2 - at2 y1) ^ 2).

(** [TParticle::PrintTrack] and [TParticle::Print] *)
Definition PrintTrack (x : R) (y : vec6) (polarisation : Z) (p : TParticle U) : TParticle U :=
  print (track_line x y polarisation (Ekin y + Epot x y polarisation) (Ekin y)) p.

Definition Print (x : R) (y : vec6) (polarisation : Z) (p : TParticle U) : TParticle U :=
  print (end_line x y polarisation (Ekin y + Epot x y polarisation) (ID_ p) (Hmax p)) p.

(** What follows the call of [CheckHit] in a turn of the loop
    [while (x1 < x)], with the result [r] of the call: the end of the step is
    set back when the path was changed, the trajectory length and [Hmax] are
    brought up to date, a snapshot and the track are printed and the next
    piece starts where this one ends. *)
Definition log_sample (polarisation : Z) (l : locals) (r : checked U)
  : locals * TParticle U :=
  let x2 := end_x r in
  let y2 := end_y r in
  let p := particle r in
  let '(x', y') := if changed r then (x2, y2) else (x l, y l) in
  let p := set_energy (lend p + distance (y1 l) y2)
                      (std_max (Ekin y2 + Epot x' y2 polarisation) (Hmax p)) p in
  let '(p, next) :=
    match nextsnapshot l with
    | xsnap :: later =>
        if snapshotlog output && (Rleb (x1 l) xsnap && Rltb xsnap x2)
        then (Print xsnap (dense (stepper l) xsnap) polarisation p, later)
        else (p, nextsnapshot l)
    | [] => (p, [])
    end in
  let p := if tracklog output then PrintTrack x2 y2 polarisation p else p in
  ({| x := x'; y := y'; x1 := x2; y1 := y2; h := h l; stepper := stepper l;
      nextsnapshot := next |}, p).

(** One turn of the loop [while (x1 < x)]: a piece of the step is cut off,
    checked for hits and logged. *)
Definition sample (polarisation : Z) (l : locals) (p : TParticle U)
  : outcome (locals * TParticle U) :=
  let '(x2, y2) := next_sample (stepper l) (x1 l) (y1 l) (x l) (y l) in
  do r <- CheckHit (stepper l) (x1 l) (y1 l) x2 y2 polarisation 1 p;
  Ret (log_sample polarisation l r).

(** The loop [while (x1 < x)]. *)
Fixpoint samples (fuel : nat) (polarisation : Z) (l : locals) (p : TParticle U)
  : outcome (locals * TParticle U) :=
  match fuel with
  | O => Out_of_fuel
  | S fuel =>
      if Rltb (x1 l) (x l) then
        do lp <- sample polarisation l p;
        samples fuel polarisation (fst lp) (snd lp)
      else Ret (l, p)
  end.

(** The step size tried: [h], cut at the particle's life time and at [tmax]. *)
Definition stepsize (tmax : R) (l : locals) (p : TParticle U) : R :=
  let h1 := match h l with
            | Infinite => tstart p + tau p - x l
            | Finite h0 => if Rltb (tstart p + tau p) (x l + h0)
                           then tstart p + tau p - x l else h0
            end in
  if Rltb tmax (x l + h1) then tmax - x l else h1.

(** One turn of the loop [while (ID == ID_UNKNOWN)]. *)
Definition integration_step (fuel : nat) (tmax : R) (polarisation : Z) (l : locals)
           (p : TParticle U) : outcome (locals * TParticle U) :=
  let hh := stepsize tmax l p in
  let '(l, p) :=
    match step (stepper l) (x l) (y l) hh with
    | Some (st, xn, yn) =>
        ({| x := xn; y := yn; x1 := x l; y1 := y l; h := Finite hh; stepper := st;
            nextsnapshot := nextsnapshot l |}, count_step p)
    | None =>
        ({| x := x l; y := y l; x1 := x l; y1 := y l; h := Finite hh;
            stepper := stepper l; nextsnapshot := nextsnapshot l |},
         set_ID ID_NRERROR p)
    end in
  do lp <- samples fuel polarisation l p;
  let '(l, p) := lp in
  let p :=
    if (ID_ p =? ID_UNKNOWN)%Z && Rleb (tstart p + tau p) (x l)
    then set_ID ID_DECAYED p
    else if (ID_ p =? ID_UNKNOWN)%Z && (Rleb tmax (x l) || Rleb (maxtraj p) (lend p))
    then set_ID ID_NOT_FINISH p
    else p in
  Ret ({| x := x l; y := y l; x1 := x1 l; y1 := y1 l; h := Finite (hnext (stepper l));
          stepper := stepper l; nextsnapshot := nextsnapshot l |}, p).

(** The loop [while (ID == ID_UNKNOWN)]; [fuel] bounds the turns of each
    loop. *)
Fixpoint integration (fuel inner : nat) (tmax : R) (polarisation : Z) (l : locals)
         (p : TParticle U) : outcome (locals * TParticle U) :=
  match fuel with
  | O => Out_of_fuel
  | S fuel =>
      if (ID_ p =? ID_UNKNOWN)%Z then
        do lp <- integration_step inner tmax polarisation l p;
        integration fuel inner tmax polarisation (fst lp) (snd lp)
      else Ret (l, p)
  end.

(** [if (currentsolids.empty()) geom->GetSolids(tend, yend, currentsolids);] *)
Definition located (p : TParticle U) : TParticle U :=
  match currentsolids p with
  | [] => set_currentsolids (GetSolids (tend p) (yend p)) p
  | _ => p
  end.

(** The values of the locals [x2] and [y2] where [Integrate] first prints
    the track: they are not initialised there. *)
Variable x2_unset : R.
Variable y2_unset : vec6.

(** [TParticle::Integrate] *)
Definition Integrate (fuel inner : nat) (tmax : R) (p : TParticle U) : outcome (TParticle U) :=
  let p := located p in
  let polarisation := polend p in
  let l := {| x := tend p; y := yend p; x1 := tend p; y1 := yend p;
              h := over_speed (1 / 1000) (speed (yend p));
              stepper := new_Stepper (yend p) (tend p);
              nextsnapshot :=
                (fix skip (times : list R) : list R :=
                   match times with
                   | t :: later => if Rltb t (tend p) then skip later else times
                   | [] => []
                   end) (snapshottimes output) |} in
  let p := if tracklog output then PrintTrack x2_unset y2_unset polarisation p else p in
  do lp <- integration fuel inner tmax polarisation l p;
  let '(l, p) := lp in
  let p := set_end (x l) (y l) polarisation p in
  let p := Print (tend p) (yend p) (polend p) p in
  Ret (if (ID_ p =? ID_DECAYED)%Z then set_ext (Decay p) p else p).

(** *** What a call changes in the particle

    [touches p q]: [q] comes from [p] by writing [ID] and the members of the
    derived class, printing lines, inserting solids into [currentsolids] and
    erasing solids of [geom->solids] from it. *)
Inductive touches : TParticle U -> TParticle U -> Prop :=
| touches_refl p : touches p p
| touches_trans p q r : touches p q -> touches q r -> touches p r
| touches_ID id p : touches p (set_ID id p)
| touches_ext u p : touches p (set_ext u p)
| touches_print l p : touches p (print l p)
| touches_insert e p :
    touches p (set_currentsolids (set_insert e (currentsolids p)) p)
| touches_erase sld p :
    In sld solids ->
    touches p (set_currentsolids (set_erase sld (currentsolids p)) p).

(** From [p] to [q] the maximal energy has not gone down, and a solid whose
    ID no solid of [geom->solids] has is still in [currentsolids]. *)
Definition advances (p q : TParticle U) : Prop :=
  Hmax p <= Hmax q
  /\ forall k,
      (forall sld, In sld solids -> ID sld <> k) ->
      holds_ID k (currentsolids p) = true -> holds_ID k (currentsolids q) = true.

End Integrator.

Arguments x {Stepper}. Arguments y {Stepper}. Arguments x1 {Stepper}.
Arguments y1 {Stepper}. Arguments h {Stepper}. Arguments stepper {Stepper}.
Arguments nextsnapshot {Stepper}. Arguments Build_locals {Stepper}.

(** *** Initialisation from a kinetic energy *)

Section Initialisation.

Variable U : Type.
Variable GetSolids : R -> vec6 -> list solid.
Variable Epot : R -> vec6 -> Z -> R.
Variable m : R.
Variable c_0 : R.
Variable RELATIVISTIC_THRESHOLD : R.

(** The speed [vstart] that [TParticle::InitE] gives a particle of the
    kinetic energy [Ekin]. *)
Definition vstart_of (Ekin : R) : R :=
  let gammarel := Ekin / m / c_0 / c_0 + 1 in
  if Rltb gammarel (10001 / 10000) then sqrt (2 * Ekin / m)
  else c_0 * sqrt (1 - 1 / (gammarel * gammarel)).

(** [TParticle::InitE] *)
Definition InitE (t atau x y z Ekin phi theta : R) (pol : Z) (trajl : R) (p : TParticle U)
  : TParticle U :=
  let vstart := vstart_of Ekin in
  InitV U GetSolids Epot m c_0 RELATIVISTIC_THRESHOLD t atau
        (mk6 x y z (vstart * cos phi * sin theta) (vstart * sin phi * sin theta)
             (vstart * cos theta))
        pol trajl p.

End Initialisation.

(** What [Integrate] keeps of a particle: the start values, the life time
    and the maximal trajectory length stay, the trajectory length and the
    number of steps do not go down. *)
Definition continues {U} (p q : TParticle U) : Prop :=
  tstart q = tstart p /\ ystart q = ystart p /\ polstart q = polstart p
  /\ tau q = tau p /\ maxtraj q = maxtraj p
  /\ lend p <= lend q /\ (Nstep p <= Nstep q)%Z.

(** *** Potential energy and equations of motion *)

(** [TFieldManager] (not embedded): [BField(x, y, z, t, B)] fills the array
    [B[4][4]] with the magnetic field, its absolute value [B[3][0]] and
    their derivatives, [EField(x, y, z, t, V, E)] gives the electric
    potential [V] and the field [E]. *)
Record TFieldManager := {
  BField : R -> R -> R -> R -> nat -> nat -> R;
  EField : R -> R -> R -> R -> R * vec3
}.

Section Dynamics.

(** The particle's charge, mass and magnetic moment, and the constants of
    globals.h. *)
Variables q m mu : R.
Variables c_0 gravconst ele_e : R.

(** [TParticle::Epot] of the base class; [field] is [None] for a null
    pointer. *)
Definition Epot (field : option TFieldManager) (t : R) (y : vec6) (polarisation : Z) : R :=
  let result := 0 in
  let result :=
    match field with
    | Some f =>
        if negb (Reqb q 0) || negb (Reqb mu 0) then
          let result :=
            if negb (Reqb mu 0)
            then result + - IZR polarisation * mu / ele_e
                          * BField f (at0 y) (at1 y) (at2 y) t 3%nat 0%nat
            else result in
          if negb (Reqb q 0)
          then result + q / ele_e * fst (EField f (at0 y) (at1 y) (at2 y) t)
          else result
        else result
    | None => result
    end in
  result + m * gravconst * at2 y.

(** The force [F] in the lab frame that [TParticle::derivs] adds up. *)
Definition force (field : option TFieldManager) (polend : Z) (x : R) (y : vec6) : vec3 :=
  let F := mk3 0 0 (if negb (Reqb m 0) then 0 + - gravconst * m * ele_e else 0) in
  match field with
  | Some f =>
      let B := BField f (at0 y) (at1 y) (at2 y) x in
      let E := snd (EField f (at0 y) (at1 y) (at2 y) x) in
      let F :=
        if negb (Reqb q 0)
        then mk3 (c0 F + q * (c0 E + at4 y * B 2%nat 0%nat - at5 y * B 1%nat 0%nat))
                 (c1 F + q * (c1 E + at5 y * B 0%nat 0%nat - at3 y * B 2%nat 0%nat))
                 (c2 F + q * (c2 E + at3 y * B 1%nat 0%nat - at4 y * B 0%nat 0%nat))
        else F in
      if negb (Reqb mu 0) && negb (polend =? 0)%Z
      then mk3 (c0 F + IZR polend * mu * B 3%nat 1%nat)
               (c1 F + IZR polend * mu * B 3%nat 2%nat)
               (c2 F + IZR polend * mu * B 3%nat 3%nat)
      else F
  | None => F
  end.

(** [TParticle::derivs]: [dydx] for the time [x] and the state [y]. *)
Definition derivs (field : option TFieldManager) (polend : Z) (x : R) (y : vec6) : vec6 :=
  let F := force field polend x y in
  let rel :=
    sqrt (1 - (at3 y * at3 y + at4 y * at4 y + at5 y * at5 y) / (c_0 * c_0)) / m / ele_e in
  mk6 (at3 y) (at4 y) (at5 y)
      (rel * (c0 F - (at3 y * at3 y * c0 F + at3 y * at4 y * c1 F + at3 y * at5 y * c2 F)
                     / c_0 / c_0))
      (rel * (c1 F - (at4 y * at3 y * c0 F + at4 y * at4 y * c1 F + at4 y * at5 y * c2 F)
                     / c_0 / c_0))
      (rel * (c2 F - (at5 y * at3 y * c0 F + at5 y * at4 y * c1 F + at5 y * at5 y * c2 F)
                     / c_0 / c_0)).

End Dynamics.

End Particle.

(** ** Situations for the examples *)

Module Scenario.

Import Particle.

(** The material used by the examples below. *)
Definition copper_line : list (option R) :=
  [Some 0; Some 0; Some 0; Some 0; Some 0; Some 0; Some 0; Some 0].

(** A solid whose members were never set, for [defaultsolid] before a
    solid with ID 1 is read. *)
Definition unset_solid : solid :=
  {| ID := 0; name := EmptyString; filename := EmptyString;
     mat := Geometry.material_named EmptyString; ignoretimes := [] |}.

(** A solid with the ID [k] and nothing else. *)
Definition plain (k : Z) : solid :=
  {| ID := k; name := EmptyString; filename := EmptyString;
     mat := Geometry.material_named EmptyString; ignoretimes := [] |}.

(** Hooks that let the particle pass and change nothing. *)
Definition pass_OnHit (id : Z) (u : unit) (x1 : R) (y1 : vec6) (x2 : R) (y2 : vec6)
           (normal : vec3) (leaving entering : solid) : OnHit_result unit :=
  {| hit_changed := false; hit_x2 := x2; hit_y2 := y2; hit_entering := Some entering;
     hit_ID := id; hit_ext := u |}.

Definition pass_OnStep (id : Z) (u : unit) (x1 : R) (y1 : vec6) (x2 : R) (y2 : vec6)
           (currentsolid : solid) : OnStep_result unit :=
  {| step_changed := false; step_x2 := x2; step_y2 := y2; step_ID := id; step_ext := u |}.

(** The state at the position [px] on the x axis, flying along it with the
    speed [v]. *)
Definition along_x (px v : R) : vec6 := mk6 px 0 0 v 0 0.

(** A particle that is in the solids [set] and has printed the lines
    [lines]; it started at the origin at time 0. *)
Definition particle_with (set : list solid) (lines : list line) : TParticle unit :=
  {| ID_ := ID_UNKNOWN; currentsolids := set; ext := tt; printed := lines;
     tau := 10; maxtraj := 100; tstart := 0; tend := 0;
     ystart := along_x 0 1; yend := along_x 0 1;
     polstart := 0; polend := 0; Hmax := 0; lend := 0; Nstep := 0 |}.

Definition particle_in (set : list solid) : TParticle unit := particle_with set [].

Definition all_logs : TOutput :=
  {| tracklog := true; hitlog := true; snapshotlog := true; snapshottimes := [] |}.

(** [REFLECT_TOLERANCE] *)
Definition tolerance : R := 1 / 100000000.

(** Dense output of a stepper whose last step is a straight flight along x
    with speed 1, and of one whose last step is a flight along x from rest
    at the origin, speeding up by 10000 per unit of time, starting with
    speed 1. *)
Definition flight (st : unit) (i : nat) (x h : R) : R :=
  match i with
  | 0%nat => x
  | 3%nat => 1
  | _ => 0
  end.


(** A surface perpendicular to the x axis, halfway along the segment, of the
    solid [geom->solids[i]], with the normal [(nx, 0, 0)]. *)
Definition surface (i : Z) (nx : R) : TCollision :=
  {| coll_s := 1 / 2; coll_normal := mk3 nx 0 0; coll_ID := i |}.

(** A geometry that reports the collisions [colls] for the segment from time
    0 to the point [tolerance] on the x axis and none for any other. *)
Definition collisions_on_segment (colls : list TCollision) (x1 : R) (y1 : vec6) (h : R)
           (y2 : vec6) : list TCollision :=
  if Reqb x1 0 && Reqb (at0 y2) tolerance then colls else [].

(** [CheckHit] in a world where every segment is inside the bounding box,
    with the solids [solids] and the collisions [colls] on the segment above. *)
Definition resolver (solids : list solid) (colls : list TCollision) :=
  CheckHit unit (fun _ _ => true) (collisions_on_segment colls) solids tolerance unit
           (fun _ => 1) flight pass_OnHit pass_OnStep all_logs.

Definition CheckHit_in (solids : list solid) (colls : list TCollision) :=
  resolver solids colls tt.

Definition cross_in (solids : list solid) :=
  cross unit solids pass_OnHit pass_OnStep all_logs.

(** A foil of the solid [geom->solids[0]], perpendicular to the x axis,
    between the positions [tolerance / 4] and [3 * tolerance / 4]: a segment
    along x collides with each face that lies strictly between its ends. *)
Definition hit_at (s nx : R) : TCollision :=
  {| coll_s := s; coll_normal := mk3 nx 0 0; coll_ID := 0 |}.

Definition face (f nx : R) (y1 y2 : vec6) : list TCollision :=
  if Rltb (at0 y1) f && Rltb f (at0 y2)
  then [hit_at ((f - at0 y1) / (at0 y2 - at0 y1)) nx]
  else [].

Definition foil (x1 : R) (y1 : vec6) (h : R) (y2 : vec6) : list TCollision :=
  face (tolerance / 4) (-1) y1 y2 ++ face (3 * tolerance / 4) 1 y1 y2.

Definition foil_resolver :=
  CheckHit unit (fun _ _ => true) foil [plain 3] tolerance unit (fun _ => 1) flight
           pass_OnHit pass_OnStep all_logs.

(** A potential energy that rises with time up to the time 1/2 and falls
    after it, as under a field that is ramped up and down. *)
Definition ramped (t : R) (y : vec6) (polarisation : Z) : R :=
  if Rleb t (1 / 2) then t else 1 - t.

(** The locals of [Integrate] after a step from time 0 to time 1 of a
    particle that flies along x with speed 1. *)
Definition after_step : locals unit :=
  {| x := 1; y := along_x 1 1; x1 := 0; y1 := along_x 0 1; h := Finite 1;
     stepper := tt; nextsnapshot := [] |}.

(** A turn of the loop [while (x1 < x)] for a particle of mass 1 in empty
    space under the potential [ramped]. *)
Definition sample_in_ramp :=
  sample unit (fun _ _ => true) (fun _ _ _ _ => []) [] tolerance unit (fun _ => 1) flight
         pass_OnHit pass_OnStep ramped 1 299792458 (1 / 100) all_logs.

Definition InitV_in_ramp :=
  InitV unit (fun _ _ => [plain 1]) ramped 1 299792458 (1 / 100).

(** A geometry of a default solid and a solid 3 that is ignored from time 0
    to time 1, as the constructor builds it. *)
Definition shutter : solid :=
  {| ID := 3; name := "shutter.stl"; filename := "shutter.stl";
     mat := Geometry.material_named "Cu"; ignoretimes := [(0, 1)] |}.

Definition world : Geometry.TGeometry :=
  {| Geometry.mesh_IDs := [3%Z];
     Geometry.defaultsolid :=
       {| ID := 1; name := "default solid"; filename := "ignored";
          mat := Geometry.material_named "Cu"; ignoretimes := [] |};
     Geometry.solids := [shutter] |}.

(** The order of collision records along the segment, by the parametric
    coordinate of the hit. *)
Definition earlier_hit (a b : TCollision) : bool := Rltb (coll_s a) (coll_s b).

(** A mesh that reports the far face of the solid 3 before the near one. *)
Definition far_then_near (p1 p2 : vec3) : list TCollision :=
  [ {| coll_s := 3 / 4; coll_normal := mk3 1 0 0; coll_ID := 3 |};
    {| coll_s := 1 / 4; coll_normal := mk3 (-1) 0 0; coll_ID := 3 |} ].

(** The containment query in [world], with a mesh that reports one surface
    of the solid 3 below every point. *)
Definition GetSolids_in_world :=
  Geometry.GetSolids (fun _ _ => [surface 3 1]) (fun _ _ => false) 0 0 0 tolerance world.

Definition GetSolid_in_world :=
  Geometry.GetSolid_at (fun _ _ => [surface 3 1]) (fun _ _ => false) 0 0 0 tolerance world.

(** A particle of mass 1 that rests at the origin in the default solid, with
    a life time of 10, under gravity alone. *)
Definition resting : TParticle unit :=
  {| ID_ := ID_UNKNOWN; currentsolids := [plain 1]; ext := tt; printed := [];
     tau := 10; maxtraj := 100; tstart := 0; tend := 0;
     ystart := along_x 0 0; yend := along_x 0 0;
     polstart := 0; polend := 0; Hmax := 0; lend := 0; Nstep := 0 |}.

Definition gravity : R -> vec6 -> Z -> R := Epot 0 1 0 (981 / 100) 1 None.

(** A stepper that takes the whole step tried and leaves the state as it
    is. *)
Definition step_at_rest (st : unit) (x : R) (y : vec6) (h : R) : option (unit * R * vec6) :=
  Some (tt, x + h, y).

(** A stepper that takes half of the step tried. *)
Definition step_half (st : unit) (x : R) (y : vec6) (h : R) : option (unit * R * vec6) :=
  Some (tt, x + h / 2, y).

Definition integration_step_at_rest :=
  integration_step unit (fun _ _ => true) (fun _ _ _ _ => []) [] tolerance unit (fun _ => 1)
                   (fun _ => 1) flight step_half pass_OnHit pass_OnStep gravity 1 299792458
                   (1 / 100) all_logs.

(** The locals of [Integrate] before the first step of a particle at rest at
    time 0. *)
Definition at_start : locals unit :=
  {| x := 0; y := along_x 0 0; x1 := 0; y1 := along_x 0 0; h := Infinite; stepper := tt;
     nextsnapshot := [] |}.

Definition sample_under_gravity :=
  sample unit (fun _ _ => true) (fun _ _ _ _ => []) [] tolerance unit (fun _ => 1) flight
         pass_OnHit pass_OnStep gravity 1 299792458 (1 / 100) all_logs.

Definition Integrate_at_rest :=
  Integrate unit (fun _ _ => true) (fun _ _ _ _ => []) [] (fun _ _ => [plain 1]) tolerance
            unit (fun _ => 1) (fun _ => 1) flight step_at_rest (fun _ _ => tt)
            pass_OnHit pass_OnStep (fun _ => tt) gravity 1 299792458 (1 / 100) all_logs
            0 (along_x 0 0).

(** A magnetic field of strength 1 along z and no electric field. *)
Definition field_along_z : TFieldManager :=
  {| BField := fun _ _ _ _ i j =>
                 match i, j with
                 | 2%nat, 0%nat => 1
                 | 3%nat, 0%nat => 1
                 | _, _ => 0
                 end;
     EField := fun _ _ _ _ => (0, mk3 0 0 0) |}.

End Scenario.

(** * Properties *)

Set Default Proof Using "Type".

(** ** Comparisons *)

Lemma Rltb_true (a b : R) : Rltb a b = true <-> a < b.
Proof. unfold Rltb; destruct (Rlt_dec a b); split; intros; auto; discriminate. Qed.

Lemma Rltb_false (a b : R) : Rltb a b = false <-> b <= a.
Proof.
  unfold Rltb; destruct (Rlt_dec a b); split; intros; auto; try discriminate; lra.
Qed.

Lemma Rleb_true (a b : R) : Rleb a b = true <-> a <= b.
Proof. unfold Rleb; destruct (Rle_dec a b); split; intros; auto; discriminate. Qed.

Lemma Rleb_false (a b : R) : Rleb a b = false <-> b < a.
Proof.
  unfold Rleb; destruct (Rle_dec a b); split; intros; auto; try discriminate; lra.
Qed.

Lemma Reqb_true (a b : R) : Reqb a b = true <-> a = b.
Proof. unfold Reqb; destruct (Req_dec_T a b); split; intros; auto; discriminate. Qed.

Lemma Reqb_false (a b : R) : Reqb a b = false <-> a <> b.
Proof.
  unfold Reqb; destruct (Req_dec_T a b); split; intros; auto; try discriminate.
  contradiction.
Qed.

(** ** Reading a material *)

Section MaterialFacts.

Import Geometry.

Lemma eight_numbers_none (l : list (option R)) :
  (exists i, (i < 8)%nat /\ nth i l None = None) -> eight_numbers l = None.
Proof.
  intros [i [Hi Hn]].
  do 8 (destruct l as [|[?v|] l]; try reflexivity;
        destruct i as [|i]; try discriminate; simpl in Hn).
  lia.
Qed.

Lemma read_material_unreadable (mt : material) (l : list (option R)) :
  eight_numbers l = None ->
  read_material mt (istringstream l) = Throw (Could_not_read_material (mat_name mt)).
Proof.
  intros H. unfold read_material, istringstream.
  do 8 (destruct l as [|[?v|] l]; try reflexivity).
  discriminate.
Qed.

Lemma read_material_numbers (mt : material) (fr fi dp sp rms cl lpb mfp : R)
      (rest : list (option R)) :
  read_material mt
    (istringstream (Some fr :: Some fi :: Some dp :: Some sp :: Some rms :: Some cl
                    :: Some lpb :: Some mfp :: rest))
  = if negb (Reqb dp 0) && (negb (Reqb rms 0) || negb (Reqb cl 0))
    then Throw (Both_reflection_models (mat_name mt))
    else Ok ({| mat_name := mat_name mt; FermiReal := fr; FermiImag := fi;
                DiffProb := dp; SpinflipProb := sp; RMSRoughness := rms;
                CorrelLength := cl; LossPerBounce := lpb; MFPElastic := mfp |},
             {| fields := rest; failbit := false |}).
Proof. reflexivity. Qed.

(** C10. Reading a material fails with "Could not read material" when one of
    the eight numbers is missing or is not a number, and with the message
    about the two reflection models when the diffuse-reflection probability
    and one of RMS roughness and correlation length are both non-zero; so a
    material that is accepted has at most one reflection model set, and a
    line of eight numbers with at most one model set is accepted with these
    numbers. *)
Theorem read_material_checks (mt : material) (l : list (option R)) :
  ((exists i, (i < 8)%nat /\ nth i l None = None) ->
   read_material mt (istringstream l) = Throw (Could_not_read_material (mat_name mt)))
  /\ (forall fr fi dp sp rms cl lpb mfp rest,
        l = Some fr :: Some fi :: Some dp :: Some sp :: Some rms :: Some cl
            :: Some lpb :: Some mfp :: rest ->
        (dp <> 0 /\ (rms <> 0 \/ cl <> 0) ->
         read_material mt (istringstream l) = Throw (Both_reflection_models (mat_name mt)))
        /\ (dp = 0 \/ (rms = 0 /\ cl = 0) ->
            exists str,
              read_material mt (istringstream l)
              = Ok ({| mat_name := mat_name mt; FermiReal := fr; FermiImag := fi;
                       DiffProb := dp; SpinflipProb := sp; RMSRoughness := rms;
                       CorrelLength := cl; LossPerBounce := lpb; MFPElastic := mfp |}, str)))
  /\ (forall mt' str,
        read_material mt (istringstream l) = Ok (mt', str) ->
        DiffProb mt' = 0 \/ (RMSRoughness mt' = 0 /\ CorrelLength mt' = 0)).
Proof.
  split; [|split].
  - intros H. apply read_material_unreadable, eight_numbers_none, H.
  - intros fr fi dp sp rms cl lpb mfp rest ->. rewrite read_material_numbers. split.
    + intros [Hdp Hr].
      apply Reqb_false in Hdp. rewrite Hdp. simpl.
      destruct Hr as [Hr | Hr]; apply Reqb_false in Hr; rewrite Hr; simpl.
      * reflexivity.
      * rewrite orb_true_r. reflexivity.
    + intros [Hdp | [Hr Hc]].
      * apply Reqb_true in Hdp. rewrite Hdp. simpl. eexists. reflexivity.
      * apply Reqb_true in Hr. apply Reqb_true in Hc. rewrite Hr, Hc. simpl.
        rewrite andb_false_r. eexists. reflexivity.
  - intros mt' str H.
    destruct (eight_numbers l) as [[nums rest]|] eqn:E.
    + do 8 (destruct l as [|[?v|] l]; try discriminate E).
      rewrite read_material_numbers in H.
      destruct (Reqb v1 0) eqn:Hdp; simpl in H.
      * injection H as <- _. left. apply Reqb_true, Hdp.
      * destruct (Reqb v3 0) eqn:Hr; destruct (Reqb v4 0) eqn:Hc; simpl in H;
          try discriminate H.
        injection H as <- _. right. split; apply Reqb_true; assumption.
    + rewrite (read_material_unreadable mt l E) in H. discriminate H.
Qed.

End MaterialFacts.

(** ** Segment test and containment query *)

Section QueryFacts.

Import Geometry.

Variable mesh_Collision : vec3 -> vec3 -> list TCollision.
Variable coll_less : TCollision -> TCollision -> bool.
Variables xmin ymin zmin : R.
Variable REFLECT_TOLERANCE : R.
Variable geom : TGeometry.

Local Abbreviation GetSolid := (GetSolid geom).
Local Abbreviation emplace := (emplace coll_less).
Local Abbreviation tag_collisions := (tag_collisions coll_less geom).
Local Abbreviation GetCollisions := (GetCollisions mesh_Collision coll_less geom).
Local Abbreviation GetSolids :=
  (GetSolids mesh_Collision coll_less xmin ymin zmin REFLECT_TOLERANCE geom).
Local Abbreviation toggle_solids := (toggle_solids geom).
Local Abbreviation tagged := (tagged geom).

Lemma in_ignoretime_spec (t : R) (its : R * R) :
  in_ignoretime t its = true <-> fst its <= t /\ t < snd its.
Proof.
  unfold in_ignoretime. rewrite andb_true_iff, Rleb_true, Rltb_true. reflexivity.
Qed.

Lemma emplace_In (k : TCollision) (v : bool) (colls : multimap) (kv : TCollision * bool) :
  In kv (emplace k v colls) <-> kv = (k, v) \/ In kv colls.
Proof.
  induction colls as [|kv' colls IH]; simpl.
  - split; intros [H | H]; auto.
  - destruct (coll_less k (fst kv')); simpl.
    + split; intros [H | H]; auto.
    + rewrite IH. split.
      * intros [H | [H | H]]; auto.
      * intros [H | [H | H]]; auto.
Qed.

Lemma emplace_Permutation (k : TCollision) (v : bool) (colls : multimap) :
  Permutation (emplace k v colls) ((k, v) :: colls).
Proof.
  induction colls as [|kv' colls IH]; simpl.
  - apply Permutation_refl.
  - destruct (coll_less k (fst kv')).
    + apply Permutation_refl.
    + eapply perm_trans; [apply perm_skip, IH | apply perm_swap].
Qed.

Lemma tag_collisions_spec (x1 x2 : R) (c : list TCollision) :
  forall colls out,
    tag_collisions x1 x2 c colls = Ok out ->
    Forall (tagged x1 x2) colls ->
    Forall (tagged x1 x2) out /\ Permutation (map fst out) (rev c ++ map fst colls).
Proof.
  induction c as [|it rest IH]; simpl; intros colls out H Hcolls.
  - injection H as <-. split; [assumption | apply Permutation_refl].
  - destruct (GetSolid (coll_ID it)) as [sld|] eqn:Hsld; simpl in H; [|discriminate].
    apply IH in H.
    + destruct H as [Hout Hperm]. split; [assumption|].
      eapply perm_trans; [exact Hperm|].
      rewrite <- app_assoc. apply Permutation_app_head. simpl.
      exact (Permutation_map fst (emplace_Permutation it _ colls)).
    + apply Forall_forall. intros kv Hin. apply emplace_In in Hin.
      destruct Hin as [-> | Hin].
      * exists sld. split; [exact Hsld | reflexivity].
      * rewrite Forall_forall in Hcolls. apply Hcolls, Hin.
Qed.

Lemma tag_collisions_returns (x1 x2 : R) (c : list TCollision) :
  forall colls,
    (forall it, In it c -> exists sld, GetSolid (coll_ID it) = Ok sld) ->
    exists out, tag_collisions x1 x2 c colls = Ok out.
Proof.
  induction c as [|it rest IH]; simpl; intros colls H.
  - eexists; reflexivity.
  - destruct (H it (or_introl eq_refl)) as [sld ->]. simpl. apply IH.
    intros it' Hin. apply H. right. exact Hin.
Qed.

(** The segment test returns whenever the geometry holds a solid for every
    ID the mesh reports. *)
Lemma GetCollisions_returns (x1 : R) (p1 : vec3) (x2 : R) (p2 : vec3) :
  (forall it, In it (mesh_Collision p1 p2) -> exists sld, GetSolid (coll_ID it) = Ok sld) ->
  exists hit colls, GetCollisions x1 p1 x2 p2 = Ok (hit, colls).
Proof.
  intros H. unfold Geometry.GetCollisions.
  destruct (tag_collisions_returns x1 x2 _ [] H) as [out ->]. simpl.
  eexists; eexists; reflexivity.
Qed.

(** The records of the segment test: the collisions of the mesh, each with
    its tag. *)
Lemma GetCollisions_records (x1 : R) (p1 : vec3) (x2 : R) (p2 : vec3)
      (hit : bool) (colls : multimap) :
  GetCollisions x1 p1 x2 p2 = Ok (hit, colls) ->
  Forall (tagged x1 x2) colls
  /\ Permutation (map fst colls) (mesh_Collision p1 p2)
  /\ hit = negb (match colls with [] => true | _ => false end).
Proof.
  unfold Geometry.GetCollisions. intros H.
  destruct (tag_collisions x1 x2 (mesh_Collision p1 p2) []) as [out|] eqn:Htag;
    simpl in H; [|discriminate].
  injection H as <- <-.
  destruct (tag_collisions_spec _ _ _ _ _ Htag (Forall_nil _)) as [Htagged Hperm].
  split; [exact Htagged|]. split; [|reflexivity].
  simpl in Hperm. rewrite app_nil_r in Hperm.
  eapply perm_trans; [exact Hperm|]. apply Permutation_sym, Permutation_rev.
Qed.


Lemma erase_first_keeps_head {A} (p : A -> bool) (a : A) (l : list A) :
  p a = false -> erase_first p (a :: l) = a :: erase_first p l.
Proof. intros H. simpl. rewrite H. reflexivity. Qed.

Lemma toggle_solids_default (c : multimap) :
  forall rest out,
    (forall kv, In kv c -> coll_ID (fst kv) <> ID (defaultsolid geom)) ->
    toggle_solids c ((defaultsolid geom, false) :: rest) = Ok out ->
    exists rest', out = (defaultsolid geom, false) :: rest'.
Proof.
  induction c as [|i c IH]; intros rest out Hc H.
  - injection H as <-. eexists; reflexivity.
  - assert (Hd : holds (coll_ID (fst i)) (defaultsolid geom, false) = false).
    { unfold holds. simpl. apply Z.eqb_neq. intros E.
      apply (Hc i (or_introl eq_refl)). symmetry. exact E. }
    assert (Hc' : forall kv, In kv c -> coll_ID (fst kv) <> ID (defaultsolid geom)).
    { intros kv Hin. apply Hc. right. exact Hin. }
    cbn [Geometry.toggle_solids] in H.
    destruct (existsb (holds (coll_ID (fst i))) ((defaultsolid geom, false) :: rest)).
    + rewrite erase_first_keeps_head in H by exact Hd. eapply IH; eassumption.
    + destruct (GetSolid (coll_ID (fst i))) as [sld|]; simpl in H; [|discriminate].
      eapply IH; [exact Hc' | exact H].
Qed.

(** The containment query starts from the default solid and keeps it, as
    long as no collision record carries the default solid's ID. *)
Lemma GetSolids_default (t : R) (p : vec3) (out : list (solid * bool)) :
  (forall p2 c, In c (mesh_Collision p p2) -> coll_ID c <> ID (defaultsolid geom)) ->
  GetSolids t p = Ok out ->
  exists rest, out = (defaultsolid geom, false) :: rest.
Proof.
  intros Hmesh. unfold Geometry.GetSolids.
  set (p2 := mk3 _ _ _).
  destruct (GetCollisions t p t p2) as [[hit colls]|] eqn:Hc; simpl; [|discriminate].
  destruct hit.
  - apply toggle_solids_default.
    intros [k v] Hin. simpl.
    destruct (GetCollisions_records _ _ _ _ _ _ Hc) as [_ [Hperm _]].
    apply (Hmesh p2). eapply Permutation_in; [exact Hperm|].
    apply (in_map fst) in Hin. exact Hin.
  - intros H. injection H as <-. eexists; reflexivity.
Qed.

End QueryFacts.

(** ** Construction of the geometry *)

Section ConstructorFacts.

Import Geometry.

Variable mesh_ReadFile : string -> Z -> result string.
Variable defaultsolid_unset : solid.

Local Abbreviation load_solids := (load_solids mesh_ReadFile).
Local Abbreviation TGeometry_new := (TGeometry_new mesh_ReadFile defaultsolid_unset).

Lemma unique_after_length {A} (p : A -> A -> bool) (l : list A) :
  forall kept, (List.length (unique_after p kept l) <= List.length l)%nat.
Proof.
  induction l as [|a l IH]; simpl; intros kept; [lia|].
  destruct (p kept a); simpl.
  - specialize (IH kept). lia.
  - specialize (IH a). lia.
Qed.

Lemma unique_after_adjacent {A} (p : A -> A -> bool) (a b : A) (l1 l2 : list A) :
  p a b = true ->
  forall kept,
    (List.length (unique_after p kept (l1 ++ a :: b :: l2))
     < List.length (l1 ++ a :: b :: l2))%nat.
Proof.
  intros Hab. induction l1 as [|c l1 IH]; intros kept; simpl.
  - destruct (p kept a); simpl.
    + destruct (p kept b); simpl.
      * pose proof (unique_after_length p l2 kept). lia.
      * pose proof (unique_after_length p l2 b). lia.
    + rewrite Hab. pose proof (unique_after_length p l2 a). lia.
  - destruct (p kept c); simpl.
    + specialize (IH kept). lia.
    + specialize (IH c). lia.
Qed.

(** Two neighbours in [solids] with the same ID are found. *)
Lemma unique_removes_adjacent (a b : solid) (l1 l2 : list solid) :
  ID a = ID b -> unique_removes (l1 ++ a :: b :: l2) = true.
Proof.
  intros Hab. unfold unique_removes. apply negb_true_iff, Nat.eqb_neq.
  assert (H : same_ID a b = true) by (unfold same_ID; apply Z.eqb_eq, Hab).
  destruct l1 as [|c l1]; simpl.
  - rewrite H. pose proof (unique_after_length same_ID l2 a). lia.
  - pose proof (unique_after_adjacent same_ID a b l1 l2 H c). simpl in *. lia.
Qed.

(** What the loop over the [GEOMETRY] section keeps: no solid in [solids]
    has ID 1, the mesh was handed the IDs of [solids], and the material of
    every line was found. *)
Lemma load_solids_spec (materials : list material) (entries : list (Z * solid_line)) :
  forall g g',
    load_solids materials entries g = Ok g' ->
    Forall (fun sld => ID sld <> 1%Z) (solids g) ->
    mesh_IDs g = map ID (solids g) ->
    Forall (fun sld => ID sld <> 1%Z) (solids g')
    /\ mesh_IDs g' = map ID (solids g')
    /\ (forall id file matname times,
           In (id, Line file matname times) entries ->
           exists mt, find_material materials matname = Some mt).
Proof.
  induction entries as [|[id line] rest IH]; intros g g' H Hg Hm.
  - injection H as <-. repeat split; try assumption. intros ? ? ? ? [].
  - cbn [Geometry.load_solids] in H.
    destruct line as [file matname times| |]; simpl in H; try discriminate.
    destruct (find_material materials matname) as [mt|] eqn:Hmat; [|discriminate].
    destruct (id =? 1)%Z eqn:Hid.
    + apply IH in H; simpl; try assumption.
      destruct H as [H1 [H2 H3]]. repeat split; try assumption.
      intros id' file' matname' times' [E | Hin].
      * injection E as <- <- <- <-. exists mt. exact Hmat.
      * eapply H3, Hin.
    + destruct (mesh_ReadFile file id) as [nm|]; simpl in H; [|discriminate].
      apply IH in H; simpl.
      * destruct H as [H1 [H2 H3]]. repeat split; try assumption.
        intros id' file' matname' times' [E | Hin].
        -- injection E as <- <- <- <-. exists mt. exact Hmat.
        -- eapply H3, Hin.
      * apply Forall_app. split; [assumption|]. constructor; [|constructor].
        simpl. apply Z.eqb_neq, Hid.
      * rewrite map_app, Hm. reflexivity.
Qed.

(** A geometry that the constructor accepts: every line names a defined
    material, no solid of [solids] has ID 1, the mesh holds the IDs of
    [solids] and no others, and no two neighbours in [solids] share an ID. *)
Lemma TGeometry_new_spec (MATERIALS : list (string * list (option R)))
      (GEOMETRY : list (Z * solid_line)) (g : TGeometry) :
  TGeometry_new MATERIALS GEOMETRY = Ok g ->
  Forall (fun sld => ID sld <> 1%Z) (solids g)
  /\ mesh_IDs g = map ID (solids g)
  /\ (exists materials,
         read_materials MATERIALS = Ok materials
         /\ forall id file matname times,
             In (id, Line file matname times) GEOMETRY ->
             exists mt, find_material materials matname = Some mt)
  /\ (forall a b l1 l2, solids g = l1 ++ a :: b :: l2 -> ID a = ID b -> False).
Proof.
  unfold Geometry.TGeometry_new. intros H.
  destruct (read_materials MATERIALS) as [materials|]; simpl in H; [|discriminate].
  destruct (load_solids materials GEOMETRY _) as [g0|] eqn:Hload; simpl in H; [|discriminate].
  destruct (unique_removes (solids g0)) eqn:Hu; [discriminate|].
  injection H as <-.
  apply load_solids_spec in Hload; simpl; [|constructor|reflexivity].
  destruct Hload as [H1 [H2 H3]].
  split; [exact H1|]. split; [exact H2|]. split.
  - exists materials. split; [reflexivity | exact H3].
  - intros a b l1 l2 E Hab. rewrite E, (unique_removes_adjacent a b l1 l2 Hab) in Hu.
    discriminate.
Qed.

End ConstructorFacts.

Lemma read_copper :
  Geometry.read_materials [("Cu"%string, Scenario.copper_line)]
  = Ok [Geometry.material_named "Cu"].
Proof.
  unfold Geometry.read_materials, Scenario.copper_line. rewrite read_material_numbers.
  assert (H : Reqb 0 0 = true) by (apply Reqb_true; reflexivity).
  rewrite H. reflexivity.
Qed.

(** C9, an input on which the code departs from it. Three solids with the IDs 2,
    10 and 2, all of a defined material: the constructor accepts them, with two
    solids of ID 2 in [solids]. *)
Theorem TGeometry_new_accepts_identical_IDs :
  exists g,
    Geometry.TGeometry_new (fun file _ => Ok file) Scenario.unset_solid
      [("Cu"%string, Scenario.copper_line)]
      [(2%Z, Geometry.Line "a.stl" "Cu" []); (10%Z, Geometry.Line "b.stl" "Cu" []);
       (2%Z, Geometry.Line "c.stl" "Cu" [])]
    = Ok g
    /\ map ID (Geometry.solids g) = [2; 10; 2]%Z.
Proof.
  unfold Geometry.TGeometry_new. rewrite read_copper.
  eexists. split; reflexivity.
Qed.

(** ** The collision resolver *)

Section ResolverFacts.

Import Particle.
Local Open Scope outcome_scope.

Variable U : Type.
Variable CheckSegment : vec6 -> vec6 -> bool.
Variable GetCollisions : R -> vec6 -> R -> vec6 -> list TCollision.
Variable solids : list solid.
Variable REFLECT_TOLERANCE : R.
Variable Stepper : Type.
Variable hdid : Stepper -> R.
Variable dense_out : Stepper -> nat -> R -> R -> R.
Variable OnHit : Z -> U -> R -> vec6 -> R -> vec6 -> vec3 -> solid -> solid -> OnHit_result U.
Variable OnStep : Z -> U -> R -> vec6 -> R -> vec6 -> solid -> OnStep_result U.
Variable output : TOutput.

Local Abbreviation solids_at := (solids_at solids).
Local Abbreviation absorb := (absorb U OnStep).
Local Abbreviation localised := (localised REFLECT_TOLERANCE).
Local Abbreviation enter := (enter U OnHit).
Local Abbreviation leave := (leave U OnHit).
Local Abbreviation cross := (cross U solids OnHit OnStep output).
Local Abbreviation dense := (dense Stepper hdid dense_out).
Local Abbreviation bisect_after := (bisect_after U Stepper).
Local Abbreviation bisect_over := (bisect_over U Stepper hdid dense_out).
Local Abbreviation bisect := (bisect U Stepper hdid dense_out).
Local Abbreviation CheckHit_body :=
  (CheckHit_body U CheckSegment GetCollisions solids REFLECT_TOLERANCE Stepper hdid dense_out
                 OnHit OnStep output).
Local Abbreviation CheckHit_rec :=
  (CheckHit_rec U CheckSegment GetCollisions solids REFLECT_TOLERANCE Stepper hdid dense_out
                OnHit OnStep output).
Local Abbreviation CheckHit :=
  (CheckHit U CheckSegment GetCollisions solids REFLECT_TOLERANCE Stepper hdid dense_out
            OnHit OnStep output).
Local Abbreviation touches := (touches U solids).

Lemma localised_spec (colls : list TCollision) (coll : TCollision) (distnormal : R)
      (iteration : Z) :
  localised colls coll distnormal iteration = true <->
  (List.length colls = 1%nat
   /\ coll_s coll * Rabs distnormal < REFLECT_TOLERANCE
   /\ (1 - coll_s coll) * Rabs distnormal < REFLECT_TOLERANCE)
  \/ (iteration > 99)%Z.
Proof.
  unfold Particle.localised.
  rewrite orb_true_iff, !andb_true_iff, Nat.eqb_eq, !Rltb_true, Z.gtb_gt.
  split.
  - intros [[[H1 H2] H3] | H]; [left | right]; auto.
  - intros [[H1 [H2 H3]] | H]; [left | right]; auto.
Qed.

Lemma depth_succ (iteration : Z) :
  (iteration <= 99)%Z -> depth iteration = S (depth (iteration + 1)).
Proof.
  intros H. unfold depth. f_equal.
  replace (100 - iteration)%Z with (Z.succ (100 - (iteration + 1))) by lia.
  rewrite Z2Nat.inj_succ by lia. reflexivity.
Qed.

(** [CheckHit] is its body, with [CheckHit] for the recursive calls. *)
Lemma CheckHit_unfold (st : Stepper) (x1 : R) (y1 : vec6) (x2 : R) (y2 : vec6)
      (pol iteration : Z) (p : TParticle U) :
  CheckHit st x1 y1 x2 y2 pol iteration p
  = CheckHit_body CheckHit st x1 y1 x2 y2 pol iteration p.
Proof.
  unfold Particle.CheckHit at 1.
  destruct (Z_le_gt_dec iteration 99) as [Hit|Hit].
  - rewrite (depth_succ iteration Hit). reflexivity.
  - change (depth iteration) with (S (Z.to_nat (100 - iteration))).
    cbn [Particle.CheckHit_rec]. unfold Particle.CheckHit_body.
    destruct (negb (CheckSegment y1 y2)); [reflexivity|].
    destruct (GetCollisions x1 y1 (hdid st) y2) as [|coll rest]; [reflexivity|].
    assert (E : localised (coll :: rest) coll
                          (distnormal_of y1 y2 (coll_normal coll)) iteration = true)
      by (apply localised_spec; right; exact Hit).
    rewrite E. reflexivity.
Qed.

Lemma ends_bind {A B} (m : outcome A) (k : A -> outcome B) :
  ends m -> (forall a, ends (k a)) -> ends (obind m k).
Proof. destruct m; simpl; auto. Qed.

Lemma absorb_ends (x1 : R) (y1 : vec6) (x2 : R) (y2 : vec6) (p : TParticle U) :
  ends (absorb x1 y1 x2 y2 p).
Proof.
  unfold Particle.absorb. destruct (rbegin (currentsolids p)); simpl; exact I.
Qed.

Lemma cross_ends (x1 : R) (y1 : vec6) (x2 : R) (y2 : vec6) (pol : Z)
      (colls : list TCollision) (coll : TCollision) (distnormal : R) (p : TParticle U) :
  ends (cross x1 y1 x2 y2 pol colls coll distnormal p).
Proof.
  unfold Particle.cross.
  destruct (solids_at (coll_ID coll)) as [hitsolid|]; simpl; [|exact I].
  destruct (two_surfaces colls coll); [exact I|].
  destruct (Rltb distnormal 0); [|destruct (Rltb 0 distnormal)].
  - unfold Particle.enter.
    destruct (set_contains hitsolid (currentsolids p)); simpl; [exact I|].
    destruct (rbegin (currentsolids p)) as [leaving|]; simpl; [|exact I].
    destruct (ID hitsolid >? ID leaving)%Z; simpl.
    + destruct (hit_changed _); [exact I | apply absorb_ends].
    + apply absorb_ends.
  - unfold Particle.leave.
    destruct (negb (set_contains hitsolid (currentsolids p))); simpl; [exact I|].
    destruct (rbegin (currentsolids p)) as [top|]; simpl; [|exact I].
    destruct (ID hitsolid =? ID top)%Z; simpl; [|apply absorb_ends].
    destruct (rbegin_next (currentsolids p)) as [entering|]; simpl; [|exact I].
    destruct (hit_entering _); simpl.
    + destruct (hit_changed _); [exact I | apply absorb_ends].
    + destruct (hit_changed _); [exact I | apply absorb_ends].
  - exact I.
Qed.

Lemma CheckHit_ends (st : Stepper) (x1 : R) (y1 : vec6) (x2 : R) (y2 : vec6)
      (pol iteration : Z) (p : TParticle U) :
  ends (CheckHit st x1 y1 x2 y2 pol iteration p).
Proof.
  remember (Z.to_nat (100 - iteration)) as n eqn:Hn.
  revert st x1 y1 x2 y2 iteration p Hn.
  induction n as [n IH] using lt_wf_ind.
  intros st x1 y1 x2 y2 iteration p Hn.
  rewrite CheckHit_unfold. unfold Particle.CheckHit_body.
  destruct (negb (CheckSegment y1 y2)); [exact I|].
  destruct (GetCollisions x1 y1 (hdid st) y2) as [|coll rest]; [apply absorb_ends|].
  destruct (localised (coll :: rest) coll _ iteration) eqn:Hloc; [apply cross_ends|].
  assert (Hit : (iteration <= 99)%Z).
  { destruct (Z_le_gt_dec iteration 99) as [H|H]; [exact H|].
    assert (E : localised (coll :: rest) coll
                          (distnormal_of y1 y2 (coll_normal coll)) iteration = true)
      by (apply localised_spec; right; exact H).
    rewrite E in Hloc. discriminate. }
  assert (Hrec : forall st a b c d q, ends (CheckHit st a b c d pol (iteration + 1) q)).
  { intros. eapply (IH (Z.to_nat (100 - (iteration + 1)))); [lia | reflexivity]. }
  assert (Hafter : forall a b q, ends (bisect_after CheckHit st a b x2 y2 pol iteration q)).
  { intros. apply Hrec. }
  assert (Hover : forall a b c d q,
             ends (bisect_over CheckHit st x1 a b c d x2 y2 pol iteration coll q)).
  { intros. unfold Particle.bisect_over.
    destruct (_ && _); [|apply Hafter].
    apply ends_bind; [apply Hrec|].
    intros r. destruct (changed r); [exact I | apply Hafter]. }
  unfold Particle.bisect.
  destruct (_ && _); [|apply Hover].
  apply ends_bind; [apply Hrec|].
  intros r. destruct (changed r); [exact I | apply Hover].
Qed.

Lemma bind_Ret {A B} (m : outcome A) (k : A -> outcome B) (b : B) :
  obind m k = Ret b -> exists a, m = Ret a /\ k a = Ret b.
Proof. destruct m; simpl; intros H; try discriminate. eauto. Qed.

Lemma solids_at_In (i : Z) (sld : solid) : solids_at i = Some sld -> In sld solids.
Proof.
  unfold Particle.solids_at. destruct (i <? 0)%Z; [discriminate|]. apply nth_error_In.
Qed.

Lemma after_OnStep_touches (r : OnStep_result U) (p : TParticle U) :
  touches p (after_OnStep U r p).
Proof.
  unfold after_OnStep. eapply touches_trans; [apply touches_ID | apply touches_ext].
Qed.

Lemma after_OnHit_touches (r : OnHit_result U) (p : TParticle U) :
  touches p (after_OnHit U r p).
Proof.
  unfold after_OnHit. eapply touches_trans; [apply touches_ID | apply touches_ext].
Qed.

Lemma absorb_touches (x1 : R) (y1 : vec6) (x2 : R) (y2 : vec6) (p : TParticle U)
      (r : checked U) :
  absorb x1 y1 x2 y2 p = Ret r -> touches p (particle r).
Proof.
  unfold Particle.absorb. intros H. apply bind_Ret in H. destruct H as [sld [_ H]].
  injection H as <-. simpl. apply after_OnStep_touches.
Qed.

Lemma enter_touches (x1 : R) (y1 : vec6) (x2 : R) (y2 : vec6) (coll : TCollision)
      (hitsolid : solid) (p : TParticle U) (c : crossing U) :
  enter x1 y1 x2 y2 coll hitsolid p = Ret c ->
  match c with
  | Stopped r => touches p (particle r)
  | Passed _ _ _ _ q => touches p q
  end.
Proof.
  unfold Particle.enter.
  destruct (set_contains hitsolid (currentsolids p)).
  - intros H. injection H as <-. simpl. apply touches_ID.
  - intros H. apply bind_Ret in H. destruct H as [leaving [_ H]].
    destruct (ID hitsolid >? ID leaving)%Z.
    + injection H as <-.
      set (q := after_OnHit U _ p).
      assert (Hq : touches p q) by apply after_OnHit_touches.
      destruct (hit_entering _) as [entering|].
      * apply touches_trans with q; [exact Hq|].
        change (currentsolids p) with (currentsolids q). apply touches_insert.
      * exact Hq.
    + injection H as <-. apply touches_refl.
Qed.

Lemma leave_touches (x1 : R) (y1 : vec6) (x2 : R) (y2 : vec6) (coll : TCollision)
      (hitsolid : solid) (p : TParticle U) (c : crossing U) :
  In hitsolid solids ->
  leave x1 y1 x2 y2 coll hitsolid p = Ret c ->
  match c with
  | Stopped r => touches p (particle r)
  | Passed _ _ _ _ q => touches p q
  end.
Proof.
  intros Hin. unfold Particle.leave.
  destruct (negb (set_contains hitsolid (currentsolids p))).
  - intros H. injection H as <-. simpl. apply touches_ID.
  - intros H. apply bind_Ret in H. destruct H as [top [_ H]].
    destruct (ID hitsolid =? ID top)%Z.
    + apply bind_Ret in H. destruct H as [entering [_ H]].
      set (q := after_OnHit U _ p) in H.
      assert (Hq : touches p q) by apply after_OnHit_touches.
      destruct (hit_entering _) as [entering'|].
      * injection H as <-.
        apply touches_trans with q; [exact Hq|].
        change (currentsolids p) with (currentsolids q). apply touches_erase, Hin.
      * apply bind_Ret in H. destruct H as [entering' [_ H]]. injection H as <-.
        exact Hq.
    + injection H as <-. apply touches_refl.
Qed.

Lemma cross_touches (x1 : R) (y1 : vec6) (x2 : R) (y2 : vec6) (pol : Z)
      (colls : list TCollision) (coll : TCollision) (distnormal : R) (p : TParticle U)
      (r : checked U) :
  cross x1 y1 x2 y2 pol colls coll distnormal p = Ret r -> touches p (particle r).
Proof.
  unfold Particle.cross. intros H.
  apply bind_Ret in H. destruct H as [hitsolid [Hsld H]].
  assert (Hin : In hitsolid solids).
  { destruct (solids_at (coll_ID coll)) eqn:E; [|discriminate Hsld].
    injection Hsld as <-. eapply solids_at_In, E. }
  destruct (two_surfaces colls coll).
  { injection H as <-. simpl. apply touches_ID. }
  apply bind_Ret in H. destruct H as [c [Hc H]].
  assert (Hc' : match c with
                | Stopped r => touches p (particle r)
                | Passed _ _ _ _ q => touches p q
                end).
  { destruct (Rltb distnormal 0); [eapply enter_touches, Hc|].
    destruct (Rltb 0 distnormal); [eapply leave_touches; [exact Hin | exact Hc]|].
    injection Hc as <-. simpl. apply touches_ID. }
  destruct c as [r'|hit resetintegration x2' y2' q].
  - injection H as <-. exact Hc'.
  - set (q' := match hit with
               | Some (leaving, entering) =>
                   if hitlog output
                   then print (hit_line x1 y1 y2' pol pol (coll_normal coll) leaving entering) q
                   else q
               | None => q
               end) in H.
    assert (Hq : touches q q').
    { subst q'. destruct hit as [[leaving entering]|]; [|apply touches_refl].
      destruct (hitlog output); [apply touches_print | apply touches_refl]. }
    destruct resetintegration.
    + injection H as <-. simpl. eapply touches_trans; eassumption.
    + apply absorb_touches in H.
      eapply touches_trans; [exact Hc'|]. eapply touches_trans; eassumption.
Qed.

Lemma CheckHit_touches (pol : Z) (st : Stepper) (x1 : R) (y1 : vec6) (x2 : R) (y2 : vec6)
      (iteration : Z) (p : TParticle U) (r : checked U) :
  CheckHit st x1 y1 x2 y2 pol iteration p = Ret r -> touches p (particle r).
Proof.
  remember (Z.to_nat (100 - iteration)) as n eqn:Hn.
  revert st x1 y1 x2 y2 iteration p r Hn.
  induction n as [n IH] using lt_wf_ind.
  intros st x1 y1 x2 y2 iteration p r Hn.
  rewrite CheckHit_unfold. unfold Particle.CheckHit_body.
  destruct (negb (CheckSegment y1 y2)).
  { intros H. injection H as <-. simpl. apply touches_ID. }
  destruct (GetCollisions x1 y1 (hdid st) y2) as [|coll rest]; [apply absorb_touches|].
  destruct (localised (coll :: rest) coll _ iteration) eqn:Hloc; [apply cross_touches|].
  assert (Hit : (iteration <= 99)%Z).
  { destruct (Z_le_gt_dec iteration 99) as [H|H]; [exact H|].
    assert (E : localised (coll :: rest) coll
                          (distnormal_of y1 y2 (coll_normal coll)) iteration = true)
      by (apply localised_spec; right; exact H).
    rewrite E in Hloc. discriminate. }
  assert (Hrec : forall st a b c d q r',
             CheckHit st a b c d pol (iteration + 1) q = Ret r' -> touches q (particle r')).
  { intros. eapply (IH (Z.to_nat (100 - (iteration + 1)))); [lia | reflexivity | eassumption]. }
  assert (Hover : forall a b c d q r',
             bisect_over CheckHit st x1 a b c d x2 y2 pol iteration coll q = Ret r' ->
             touches q (particle r')).
  { intros a b c d q r'. unfold Particle.bisect_over, Particle.bisect_after.
    destruct (_ && _); [|apply Hrec].
    intros H. apply bind_Ret in H. destruct H as [r2 [H2 H]].
    apply Hrec in H2. destruct (changed r2).
    - injection H as <-. exact H2.
    - apply Hrec in H. eapply touches_trans; eassumption. }
  unfold Particle.bisect.
  destruct (_ && _); [|apply Hover].
  intros H. apply bind_Ret in H. destruct H as [r1 [H1 H]].
  apply Hrec in H1. destruct (changed r1).
  - injection H as <-. exact H1.
  - apply Hover in H. eapply touches_trans; eassumption.
Qed.


(** *** The localised crossing *)

(** C3, as the code has it.  A segment with collisions is handed to the localised
    handling ([cross]) exactly when it has one collision record whose
    distances to both ends, along the normal, are below [REFLECT_TOLERANCE],
    or when the iteration counter is above 99; otherwise it is bisected. *)
Theorem CheckHit_localised_iff (st : Stepper) (x1 : R) (y1 : vec6) (x2 : R) (y2 : vec6)
        (pol iteration : Z) (p : TParticle U) (coll : TCollision) (rest : list TCollision) :
  CheckSegment y1 y2 = true ->
  GetCollisions x1 y1 (hdid st) y2 = coll :: rest ->
  let distnormal := distnormal_of y1 y2 (coll_normal coll) in
  let criterion :=
    (rest = []
     /\ coll_s coll * Rabs distnormal < REFLECT_TOLERANCE
     /\ (1 - coll_s coll) * Rabs distnormal < REFLECT_TOLERANCE)
    \/ (iteration > 99)%Z in
  (criterion ->
   CheckHit st x1 y1 x2 y2 pol iteration p
   = cross x1 y1 x2 y2 pol (coll :: rest) coll distnormal p)
  /\ (~ criterion ->
      CheckHit st x1 y1 x2 y2 pol iteration p
      = bisect CheckHit st x1 y1 x2 y2 pol iteration coll p).
Proof.
  intros Hseg Hcolls distnormal criterion.
  rewrite CheckHit_unfold. unfold Particle.CheckHit_body.
  rewrite Hseg, Hcolls. cbn [negb].
  assert (Hiff : localised (coll :: rest) coll distnormal iteration = true <-> criterion).
  { rewrite localised_spec. unfold criterion. simpl. split.
    - intros [[Hlen H] | H]; [left | right; exact H].
      split; [|exact H]. destruct rest; [reflexivity | discriminate Hlen].
    - intros [[Hlen H] | H]; [left | right; exact H].
      split; [|exact H]. rewrite Hlen. reflexivity. }
  fold distnormal.
  destruct (localised (coll :: rest) coll distnormal iteration).
  - split; [reflexivity|]. intros Hn. exfalso. apply Hn, Hiff. reflexivity.
  - split; [|reflexivity]. intros Hc. apply Hiff in Hc. discriminate.
Qed.

(** C4. In a localised crossing, when the particle enters a solid that is
    in [currentsolids], or leaves one that is not, or moves parallel to the
    surface, [CheckHit] returns true with the end of the segment set back to
    its start and [ID] set to -3; [currentsolids] stays as it was. *)
Theorem CheckHit_inconsistent_crossing (st : Stepper) (x1 : R) (y1 : vec6) (x2 : R)
        (y2 : vec6) (pol iteration : Z) (p : TParticle U) (coll : TCollision)
        (rest : list TCollision) (hitsolid : solid) :
  CheckSegment y1 y2 = true ->
  GetCollisions x1 y1 (hdid st) y2 = coll :: rest ->
  localised (coll :: rest) coll (distnormal_of y1 y2 (coll_normal coll)) iteration = true ->
  solids_at (coll_ID coll) = Some hitsolid ->
  (distnormal_of y1 y2 (coll_normal coll) < 0
   /\ set_contains hitsolid (currentsolids p) = true)
  \/ (0 < distnormal_of y1 y2 (coll_normal coll)
      /\ set_contains hitsolid (currentsolids p) = false)
  \/ distnormal_of y1 y2 (coll_normal coll) = 0 ->
  exists r,
    CheckHit st x1 y1 x2 y2 pol iteration p = Ret r
    /\ changed r = true
    /\ end_x r = x1 /\ end_y r = y1
    /\ ID_ (particle r) = (-3)%Z
    /\ currentsolids (particle r) = currentsolids p.
Proof.
  intros Hseg Hcolls Hloc Hsld Hcase.
  exists (numerical_error U x1 y1 p).
  split; [|repeat split].
  rewrite CheckHit_unfold. unfold Particle.CheckHit_body.
  rewrite Hseg, Hcolls. cbn [negb]. rewrite Hloc.
  unfold Particle.cross. rewrite Hsld. cbn [deref obind].
  destruct (two_surfaces (coll :: rest) coll); [reflexivity|].
  destruct Hcase as [[Hdn Hin] | [[Hdn Hin] | Hdn]].
  - apply Rltb_true in Hdn. rewrite Hdn.
    unfold Particle.enter. rewrite Hin. reflexivity.
  - assert (Hn : Rltb (distnormal_of y1 y2 (coll_normal coll)) 0 = false)
      by (apply Rltb_false; lra).
    apply Rltb_true in Hdn. rewrite Hn, Hdn.
    unfold Particle.leave. rewrite Hin. reflexivity.
  - rewrite Hdn.
    assert (Hn : Rltb 0 0 = false) by (apply Rltb_false; lra).
    rewrite Hn. reflexivity.
Qed.

(** *** Crossings without a reaction *)

(** Entering a solid whose ID does not exceed that of the solid the particle
    is in: [OnHit] is not called, nothing is printed, and the particle, its
    [currentsolids] included, stays as it is. *)
Lemma enter_lower_priority (x1 : R) (y1 : vec6) (x2 : R) (y2 : vec6) (coll : TCollision)
      (hitsolid leaving : solid) (p : TParticle U) :
  set_contains hitsolid (currentsolids p) = false ->
  rbegin (currentsolids p) = Some leaving ->
  (ID hitsolid <= ID leaving)%Z ->
  enter x1 y1 x2 y2 coll hitsolid p = Ret (Passed None false x2 y2 p).
Proof.
  intros Hin Htop Hle. unfold Particle.enter. rewrite Hin, Htop. cbn [deref obind].
  assert (E : (ID hitsolid >? ID leaving)%Z = false).
  { rewrite Z.gtb_ltb. apply Z.ltb_ge. exact Hle. }
  rewrite E. reflexivity.
Qed.

(** Leaving a solid that is not the one with the highest ID: likewise. *)
Lemma leave_lower_priority (x1 : R) (y1 : vec6) (x2 : R) (y2 : vec6) (coll : TCollision)
      (hitsolid top : solid) (p : TParticle U) :
  set_contains hitsolid (currentsolids p) = true ->
  rbegin (currentsolids p) = Some top ->
  ID hitsolid <> ID top ->
  leave x1 y1 x2 y2 coll hitsolid p = Ret (Passed None false x2 y2 p).
Proof.
  intros Hin Htop Hne. unfold Particle.leave. rewrite Hin, Htop. cbn [negb deref obind].
  apply Z.eqb_neq in Hne. rewrite Hne. reflexivity.
Qed.

(** *** Bisection *)



(** *** What [CheckHit] leaves alone *)

Lemma set_insert_holds (k : Z) (e : solid) (set : list solid) :
  holds_ID k set = true -> holds_ID k (set_insert e set) = true.
Proof.
  induction set as [|a set IH]; simpl; [discriminate|].
  intros H. destruct (ID e <? ID a)%Z; [|destruct (ID a <? ID e)%Z]; simpl.
  - rewrite H. apply orb_true_r.
  - apply orb_true_iff in H. destruct H as [H|H].
    + rewrite H. reflexivity.
    + rewrite (IH H). apply orb_true_r.
  - exact H.
Qed.

Lemma set_erase_holds (k : Z) (sld : solid) (set : list solid) :
  ID sld <> k -> holds_ID k (set_erase sld set) = holds_ID k set.
Proof.
  intros Hk. induction set as [|a set IH]; simpl; [reflexivity|].
  destruct (ID a =? ID sld)%Z eqn:E; simpl.
  - rewrite IH. apply Z.eqb_eq in E.
    assert (Ha : (ID a =? k)%Z = false) by (apply Z.eqb_neq; congruence).
    rewrite Ha. reflexivity.
  - rewrite IH. reflexivity.
Qed.

(** A solid whose ID no solid of [geom->solids] has stays in
    [currentsolids]. *)
Lemma touches_keeps (k : Z) (p q : TParticle U) :
  (forall sld, In sld solids -> ID sld <> k) ->
  touches p q ->
  holds_ID k (currentsolids p) = true -> holds_ID k (currentsolids q) = true.
Proof.
  intros Hk H. induction H; simpl; auto.
  - apply set_insert_holds.
  - rewrite set_erase_holds by (apply Hk; assumption). auto.
Qed.

(** The members that only [Integrate] writes are left as they are. *)
Lemma touches_frame (p q : TParticle U) :
  touches p q ->
  Hmax q = Hmax p /\ lend q = lend p /\ tau q = tau p /\ tstart q = tstart p
  /\ maxtraj q = maxtraj p.
Proof.
  intros H.
  induction H as [p|p q r _ [A1 [B1 [C1 [D1 E1]]]] _ [A2 [B2 [C2 [D2 E2]]]]
                  |id p|u p|l p|e p|sld p _];
    simpl; repeat split; try reflexivity.
  - rewrite A2. exact A1.
  - rewrite B2. exact B1.
  - rewrite C2. exact C1.
  - rewrite D2. exact D1.
  - rewrite E2. exact E1.
Qed.


End ResolverFacts.

(** ** The integration loop *)

Section IntegratorFacts.

Import Particle.
Local Open Scope outcome_scope.

Variable U : Type.
Variable CheckSegment : vec6 -> vec6 -> bool.
Variable GetCollisions : R -> vec6 -> R -> vec6 -> list TCollision.
Variable solids : list solid.
Variable GetSolids : R -> vec6 -> list solid.
Variable REFLECT_TOLERANCE : R.
Variable Stepper : Type.
Variable hdid : Stepper -> R.
Variable hnext : Stepper -> R.
Variable dense_out : Stepper -> nat -> R -> R -> R.
Variable step : Stepper -> R -> vec6 -> R -> option (Stepper * R * vec6).
Variable new_Stepper : vec6 -> R -> Stepper.
Variable OnHit : Z -> U -> R -> vec6 -> R -> vec6 -> vec3 -> solid -> solid -> OnHit_result U.
Variable OnStep : Z -> U -> R -> vec6 -> R -> vec6 -> solid -> OnStep_result U.
Variable Decay : TParticle U -> U.
Variable Epot : R -> vec6 -> Z -> R.
Variable m : R.
Variable c_0 : R.
Variable RELATIVISTIC_THRESHOLD : R.
Variable output : TOutput.
Variable x2_unset : R.
Variable y2_unset : vec6.

Local Abbreviation dense := (dense Stepper hdid dense_out).
Local Abbreviation next_sample := (next_sample Stepper hdid dense_out).
Local Abbreviation Ekin := (Ekin m c_0 RELATIVISTIC_THRESHOLD).
Local Abbreviation Hstart := (Hstart U Epot m c_0 RELATIVISTIC_THRESHOLD).
Local Abbreviation InitV := (InitV U GetSolids Epot m c_0 RELATIVISTIC_THRESHOLD).
Local Abbreviation CheckHit :=
  (CheckHit U CheckSegment GetCollisions solids REFLECT_TOLERANCE Stepper hdid dense_out
            OnHit OnStep output).
Local Abbreviation log_sample :=
  (log_sample U Stepper hdid dense_out Epot m c_0 RELATIVISTIC_THRESHOLD output).
Local Abbreviation sample :=
  (sample U CheckSegment GetCollisions solids REFLECT_TOLERANCE Stepper hdid dense_out
          OnHit OnStep Epot m c_0 RELATIVISTIC_THRESHOLD output).
Local Abbreviation samples :=
  (samples U CheckSegment GetCollisions solids REFLECT_TOLERANCE Stepper hdid dense_out
           OnHit OnStep Epot m c_0 RELATIVISTIC_THRESHOLD output).
Local Abbreviation integration_step :=
  (integration_step U CheckSegment GetCollisions solids REFLECT_TOLERANCE Stepper hdid hnext
                    dense_out step OnHit OnStep Epot m c_0 RELATIVISTIC_THRESHOLD output).
Local Abbreviation integration :=
  (integration U CheckSegment GetCollisions solids REFLECT_TOLERANCE Stepper hdid hnext
               dense_out step OnHit OnStep Epot m c_0 RELATIVISTIC_THRESHOLD output).
Local Abbreviation Integrate :=
  (Integrate U CheckSegment GetCollisions solids GetSolids REFLECT_TOLERANCE Stepper hdid
             hnext dense_out step new_Stepper OnHit OnStep Decay Epot m c_0
             RELATIVISTIC_THRESHOLD output x2_unset y2_unset).
Local Abbreviation touches := (touches U solids).
Local Abbreviation advances := (advances U solids).
Local Abbreviation located := (located U GetSolids).

(** *** The pieces of a step *)


Lemma sample_unfold (polarisation : Z) (l : locals Stepper) (p : TParticle U) :
  sample polarisation l p
  = do r <- CheckHit (stepper l) (x1 l) (y1 l)
                     (fst (next_sample (stepper l) (x1 l) (y1 l) (x l) (y l)))
                     (snd (next_sample (stepper l) (x1 l) (y1 l) (x l) (y l)))
                     polarisation 1 p;
    Ret (log_sample polarisation l r).
Proof.
  unfold Particle.sample. destruct (next_sample _ _ _ _ _). reflexivity.
Qed.


(** *** What the loops keep *)

Lemma advances_refl (p : TParticle U) : advances p p.
Proof. split; [lra | auto]. Qed.

Lemma advances_trans (p q r : TParticle U) : advances p q -> advances q r -> advances p r.
Proof. intros [H1 K1] [H2 K2]. split; [lra | auto]. Qed.

Lemma advances_eq (p q : TParticle U) :
  Hmax q = Hmax p -> currentsolids q = currentsolids p -> advances p q.
Proof. intros H1 H2. split; [lra | intros k _; rewrite H2; auto]. Qed.

Lemma touches_advances (p q : TParticle U) : touches p q -> advances p q.
Proof.
  intros H. split.
  - destruct (touches_frame _ _ _ _ H) as [E _]. lra.
  - intros k Hk. eapply touches_keeps; eassumption.
Qed.

Lemma std_max_ge (a b : R) : a <= std_max a b /\ b <= std_max a b.
Proof. unfold std_max. rcompare; lra. Qed.

(** What a turn of the loop [while (x1 < x)] leaves behind. *)
Lemma log_sample_spec (polarisation : Z) (l : locals Stepper) (r : checked U) :
  let l' := fst (log_sample polarisation l r) in
  let q := snd (log_sample polarisation l r) in
  currentsolids q = currentsolids (particle r)
  /\ Hmax q = std_max (Ekin (end_y r) + Epot (x l') (end_y r) polarisation)
                      (Hmax (particle r))
  /\ x l' = (if changed r then end_x r else x l)
  /\ x1 l' = end_x r /\ y1 l' = end_y r
  /\ (tracklog output = true ->
      exists earlier,
        printed q
        = track_line (end_x r) (end_y r) polarisation
                     (Ekin (end_y r) + Epot (end_x r) (end_y r) polarisation)
                     (Ekin (end_y r))
          :: earlier).
Proof.
  unfold Particle.log_sample.
  destruct (changed r); cbn [fst snd];
    destruct (nextsnapshot l) as [|xsnap later];
    try destruct (snapshotlog output && _);
    destruct (tracklog output); cbn; repeat split; try reflexivity;
      intros H; try discriminate H; eexists; reflexivity.
Qed.

Lemma log_sample_advances (polarisation : Z) (l : locals Stepper) (r : checked U) :
  advances (particle r) (snd (log_sample polarisation l r)).
Proof.
  destruct (log_sample_spec polarisation l r) as [Hcs [HH _]].
  split.
  - rewrite HH. apply std_max_ge.
  - intros k _. rewrite Hcs. auto.
Qed.

Lemma sample_advances (polarisation : Z) (l l' : locals Stepper) (p q : TParticle U) :
  sample polarisation l p = Ret (l', q) -> advances p q.
Proof.
  rewrite sample_unfold. intros H. apply bind_Ret in H. destruct H as [r [Hr H]].
  injection H as H. apply CheckHit_touches, touches_advances in Hr.
  eapply advances_trans; [exact Hr|].
  replace q with (snd (log_sample polarisation l r)) by (rewrite H; reflexivity).
  apply log_sample_advances.
Qed.

Lemma samples_advances (fuel : nat) (polarisation : Z) :
  forall (l l' : locals Stepper) (p q : TParticle U),
    samples fuel polarisation l p = Ret (l', q) -> advances p q.
Proof.
  induction fuel as [|fuel IH]; intros l l' p q; simpl; [discriminate|].
  destruct (Rltb (x1 l) (x l)).
  - intros H. apply bind_Ret in H. destruct H as [[l1 p1] [H1 H]].
    apply sample_advances in H1. apply IH in H.
    eapply advances_trans; eassumption.
  - intros H. injection H as _ <-. apply advances_refl.
Qed.

Lemma integration_step_advances (fuel : nat) (tmax : R) (polarisation : Z)
      (l l' : locals Stepper) (p q : TParticle U) :
  integration_step fuel tmax polarisation l p = Ret (l', q) -> advances p q.
Proof.
  unfold Particle.integration_step.
  set (hh := stepsize U Stepper tmax l p).
  destruct (step (stepper l) (x l) (y l) hh) as [[[st xn] yn]|].
  - intros H. apply bind_Ret in H. destruct H as [[l1 p1] [H1 H]].
    apply samples_advances in H1. injection H as _ <-.
    eapply advances_trans; [apply advances_eq; reflexivity|].
    eapply advances_trans; [exact H1|].
    destruct (_ && _); [apply advances_eq; reflexivity|].
    destruct (_ && _); [apply advances_eq; reflexivity | apply advances_refl].
  - intros H. apply bind_Ret in H. destruct H as [[l1 p1] [H1 H]].
    apply samples_advances in H1. injection H as _ <-.
    eapply advances_trans; [apply advances_eq; reflexivity|].
    eapply advances_trans; [exact H1|].
    destruct (_ && _); [apply advances_eq; reflexivity|].
    destruct (_ && _); [apply advances_eq; reflexivity | apply advances_refl].
Qed.

Lemma integration_advances (fuel inner : nat) (tmax : R) (polarisation : Z) :
  forall (l l' : locals Stepper) (p q : TParticle U),
    integration fuel inner tmax polarisation l p = Ret (l', q) -> advances p q.
Proof.
  induction fuel as [|fuel IH]; intros l l' p q; simpl; [discriminate|].
  destruct (ID_ p =? ID_UNKNOWN)%Z.
  - intros H. apply bind_Ret in H. destruct H as [[l1 p1] [H1 H]].
    apply integration_step_advances in H1. apply IH in H.
    eapply advances_trans; eassumption.
  - intros H. injection H as _ <-. apply advances_refl.
Qed.

Lemma Integrate_advances (fuel inner : nat) (tmax : R) (p q : TParticle U) :
  Integrate fuel inner tmax p = Ret q -> advances (located p) q.
Proof.
  unfold Particle.Integrate. fold (located p).
  intros H. apply bind_Ret in H. destruct H as [[l1 p1] [H1 H]].
  apply integration_advances in H1. injection H as <-.
  eapply advances_trans; [|eapply advances_trans; [exact H1|]].
  - destruct (tracklog output); [apply advances_eq; reflexivity | apply advances_refl].
  - match goal with |- advances _ (if ?b then _ else _) => destruct b end;
      apply advances_eq; reflexivity.
Qed.

(** [InitV] sets [Hmax] to the total start energy. *)
Lemma InitV_Hmax (t atau : R) (y : vec6) (pol : Z) (trajl : R) (p : TParticle U) :
  Hmax (InitV t atau y pol trajl p) = Hstart (InitV t atau y pol trajl p)
  /\ Hstart (InitV t atau y pol trajl p) = Ekin y + Epot t y pol.
Proof.
  unfold Particle.InitV. destruct (currentsolids p); split; reflexivity.
Qed.


End IntegratorFacts.

(** ** The default solid *)

Section DefaultSolid.

Import Particle.

(* construction of the geometry *)
Variable mesh_ReadFile : string -> Z -> result string.
Variable defaultsolid_unset : solid.
Variable MATERIALS : list (string * list (option R)).
Variable GEOMETRY : list (Z * Geometry.solid_line).
Variable geom : Geometry.TGeometry.
(* the mesh and the containment query *)
Variable mesh_Collision : vec3 -> vec3 -> list TCollision.
Variable coll_less : TCollision -> TCollision -> bool.
Variables xmin ymin zmin : R.
(* the particle *)
Variable U : Type.
Variable CheckSegment : vec6 -> vec6 -> bool.
Variable GetCollisions : R -> vec6 -> R -> vec6 -> list TCollision.
Variable GetSolids : R -> vec6 -> list solid.
Variable REFLECT_TOLERANCE : R.
Variable Stepper : Type.
Variable hdid : Stepper -> R.
Variable hnext : Stepper -> R.
Variable dense_out : Stepper -> nat -> R -> R -> R.
Variable step : Stepper -> R -> vec6 -> R -> option (Stepper * R * vec6).
Variable new_Stepper : vec6 -> R -> Stepper.
Variable OnHit : Z -> U -> R -> vec6 -> R -> vec6 -> vec3 -> solid -> solid -> OnHit_result U.
Variable OnStep : Z -> U -> R -> vec6 -> R -> vec6 -> solid -> OnStep_result U.
Variable Decay : TParticle U -> U.
Variable Epot : R -> vec6 -> Z -> R.
Variable m : R.
Variable c_0 : R.
Variable RELATIVISTIC_THRESHOLD : R.
Variable output : TOutput.
Variable x2_unset : R.
Variable y2_unset : vec6.

Lemma holds_ID_nonempty (k : Z) (set : list solid) : holds_ID k set = true -> set <> [].
Proof. destruct set; [discriminate | discriminate]. Qed.

(** C7. The default solid, of ID 1, is always in [currentsolids], which so
    is never empty.  For a geometry that the constructor has built, with a
    default solid, and a mesh that reports only IDs it was handed: the
    containment query starts its result with the default solid and keeps it
    there; a call of [CheckHit] on a particle whose [currentsolids] holds the
    solid of ID 1 leaves it there, and so does a run of [Integrate], which
    fills an empty [currentsolids] from the geometry first. *)
Theorem default_solid_stays :
  Geometry.TGeometry_new mesh_ReadFile defaultsolid_unset MATERIALS GEOMETRY = Ok geom ->
  ID (Geometry.defaultsolid geom) = 1%Z ->
  (forall p1 p2 c, In c (mesh_Collision p1 p2) -> In (coll_ID c) (Geometry.mesh_IDs geom)) ->
  (* the containment query *)
  (forall t p set,
      Geometry.GetSolids mesh_Collision coll_less xmin ymin zmin REFLECT_TOLERANCE geom t p
      = Ok set ->
      exists rest, set = (Geometry.defaultsolid geom, false) :: rest)
  (* the collision resolver *)
  /\ (forall st x1 y1 x2 y2 pol iteration p r,
         CheckHit U CheckSegment GetCollisions (Geometry.solids geom) REFLECT_TOLERANCE
                  Stepper hdid dense_out OnHit OnStep output st x1 y1 x2 y2 pol iteration p
         = Ret r ->
         holds_ID 1 (currentsolids p) = true ->
         holds_ID 1 (currentsolids (particle r)) = true
         /\ currentsolids (particle r) <> [])
  (* the integrator *)
  /\ (forall fuel inner tmax p q,
         Integrate U CheckSegment GetCollisions (Geometry.solids geom) GetSolids
                   REFLECT_TOLERANCE Stepper hdid hnext dense_out step new_Stepper
                   OnHit OnStep Decay Epot m c_0 RELATIVISTIC_THRESHOLD output
                   x2_unset y2_unset fuel inner tmax p
         = Ret q ->
         holds_ID 1 (currentsolids (located U GetSolids p)) = true ->
         holds_ID 1 (currentsolids q) = true /\ currentsolids q <> []).
Proof.
  intros Hnew Hdefault Hmesh.
  apply TGeometry_new_spec in Hnew. destruct Hnew as [Hsolids [HIDs _]].
  assert (Hk : forall sld, In sld (Geometry.solids geom) -> ID sld <> 1%Z).
  { rewrite Forall_forall in Hsolids. exact Hsolids. }
  split; [|split].
  - intros t p set Hset.
    eapply GetSolids_default; [|exact Hset].
    intros p2 c Hc. apply Hmesh in Hc. rewrite HIDs in Hc.
    apply in_map_iff in Hc. destruct Hc as [sld [E Hin]].
    rewrite Hdefault, <- E. apply Hk, Hin.
  - intros st x1 y1 x2 y2 pol iteration p r Hr Hp.
    apply CheckHit_touches in Hr.
    pose proof (touches_keeps _ _ 1%Z _ _ Hk Hr Hp) as H.
    split; [exact H | eapply holds_ID_nonempty, H].
  - intros fuel inner tmax p q Hq Hp.
    apply Integrate_advances in Hq. destruct Hq as [_ Hq].
    pose proof (Hq 1%Z Hk Hp) as H.
    split; [exact H | eapply holds_ID_nonempty, H].
Qed.

End DefaultSolid.

(** ** The resolver and the integrator in the situations above *)

Section Examples.

Import Particle.
Import Scenario.

#[local] Opaque Particle.CheckHit_rec.

Lemma Rabs_cases (a : R) : (0 <= a -> Rabs a = a) /\ (a <= 0 -> Rabs a = - a).
Proof. split; intros; [apply Rabs_right | apply Rabs_left1]; lra. Qed.

Lemma collisions_on_segment_here (colls : list TCollision) (y1 : vec6) (h : R) (v : R) :
  collisions_on_segment colls 0 y1 h (along_x tolerance v) = colls.
Proof.
  unfold collisions_on_segment. simpl.
  rewrite (proj2 (Reqb_true 0 0) eq_refl), (proj2 (Reqb_true tolerance tolerance) eq_refl).
  reflexivity.
Qed.

Lemma collisions_on_segment_elsewhere (colls : list TCollision) (x1 : R) (y1 : vec6) (h : R)
      (y2 : vec6) :
  x1 <> 0 \/ at0 y2 <> tolerance -> collisions_on_segment colls x1 y1 h y2 = [].
Proof.
  unfold collisions_on_segment. intros [H | H]; apply Reqb_false in H; rewrite H.
  - reflexivity.
  - rewrite andb_false_r. reflexivity.
Qed.

Lemma distnormal_along_x (a b v w nx : R) :
  distnormal_of (along_x a v) (along_x b w) (mk3 nx 0 0) = (b - a) * nx.
Proof. unfold distnormal_of. simpl. lra. Qed.

Lemma localised_one (i : Z) (nx : R) :
  -1 <= nx <= 1 ->
  localised tolerance [surface i nx] (surface i nx) ((tolerance - 0) * nx) 1 = true.
Proof.
  intros H. apply localised_spec. left. unfold tolerance. simpl.
  destruct (Rle_dec 0 nx).
  - rewrite (proj1 (Rabs_cases _)) by nra. repeat split; nra.
  - rewrite (proj2 (Rabs_cases _)) by nra. repeat split; nra.
Qed.

(** C1, an input on which the code departs from it. A particle in the solids 1
    and 5 enters the solid 3: the crossing is localised, [OnHit] is not called,
    no hit is printed, and [currentsolids] still holds the solids 1 and 5 only.
    When the particle then leaves the solid 3 again, [CheckHit] finds that it
    never entered it and stops it with a numerical error. *)
Theorem CheckHit_forgets_entered_solid :
  exists r,
    CheckHit_in [plain 3] [surface 0 (-1)] 0 (along_x 0 1) tolerance (along_x tolerance 1) 0 1
                (particle_in [plain 1; plain 5])
    = Ret r
    /\ changed r = false
    /\ printed (particle r) = []
    /\ map ID (currentsolids (particle r)) = [1; 5]%Z
    /\ exists r',
        CheckHit_in [plain 3] [surface 0 1] 0 (along_x 0 1) tolerance (along_x tolerance 1) 0 1
                    (particle r)
        = Ret r'
        /\ changed r' = true
        /\ ID_ (particle r') = ID_NRERROR.
Proof.
  assert (Hn : Rltb ((tolerance - 0) * -1) 0 = true)
    by (apply Rltb_true; unfold tolerance; lra).
  assert (Hp : Rltb ((tolerance - 0) * 1) 0 = false)
    by (apply Rltb_false; unfold tolerance; lra).
  assert (Hp' : Rltb 0 ((tolerance - 0) * 1) = true)
    by (apply Rltb_true; unfold tolerance; lra).
  eexists. split; [|split; [|split; [|split]]].
  - unfold CheckHit_in, resolver. rewrite CheckHit_unfold. unfold CheckHit_body.
    rewrite collisions_on_segment_here. cbn [negb surface coll_normal].
    rewrite distnormal_along_x, localised_one by lra.
    unfold cross. cbn [solids_at Z.ltb Z.compare coll_ID surface Z.to_nat nth_error deref
                       obind two_surfaces].
    rewrite Hn. reflexivity.
  - reflexivity.
  - reflexivity.
  - reflexivity.
  - eexists. split; [|split].
    + unfold CheckHit_in, resolver. rewrite CheckHit_unfold. unfold CheckHit_body.
      rewrite collisions_on_segment_here. cbn [negb surface coll_normal].
      rewrite distnormal_along_x, localised_one by lra.
      unfold cross. cbn [solids_at Z.ltb Z.compare coll_ID surface Z.to_nat nth_error deref
                         obind two_surfaces].
      rewrite Hp, Hp'. reflexivity.
    + reflexivity.
    + reflexivity.
Qed.

(** A segment without collisions, in a world of hooks that change nothing:
    [CheckHit] returns false and leaves everything as it is. *)
Lemma CheckHit_in_free (solids : list solid) (colls : list TCollision) (x1 : R) (y1 : vec6)
      (x2 : R) (y2 : vec6) (pol iteration : Z) (set : list solid) (top : solid) :
  x1 <> 0 \/ at0 y2 <> tolerance ->
  rbegin set = Some top ->
  CheckHit_in solids colls x1 y1 x2 y2 pol iteration (particle_in set)
  = Ret {| changed := false; end_x := x2; end_y := y2; particle := particle_in set |}.
Proof.
  intros Hseg Htop. unfold CheckHit_in, resolver. rewrite CheckHit_unfold. unfold CheckHit_body.
  rewrite (collisions_on_segment_elsewhere _ _ _ _ _ Hseg). cbn [negb].
  unfold absorb. cbn [currentsolids particle_in particle_with]. rewrite Htop. reflexivity.
Qed.

Lemma not_localised_two (c c' : TCollision) (distnormal : R) :
  localised tolerance [c; c'] c distnormal 1 = false.
Proof.
  destruct (localised tolerance [c; c'] c distnormal 1) eqn:E; [|reflexivity].
  apply localised_spec in E. destruct E as [[E _] | E]; [discriminate E | lia].
Qed.

Lemma particle_in_localised_one :
  localised tolerance [surface 0 (-1)] (surface 0 (-1))
            (distnormal_of (along_x 0 1) (along_x tolerance 1) (coll_normal (surface 0 (-1)))) 1
  = true.
Proof.
  cbn [surface coll_normal]. rewrite distnormal_along_x. apply localised_one. lra.
Qed.

(** C3, an instance: one record within the tolerance on both sides is handed
    to the localised handling. *)
Lemma CheckHit_localised_iff_witness :
  CheckHit_in [plain 3] [surface 0 (-1)] 0 (along_x 0 1) tolerance (along_x tolerance 1) 0 1
              (particle_in [plain 1; plain 5])
  = cross_in [plain 3] 0 (along_x 0 1) tolerance (along_x tolerance 1) 0
             [surface 0 (-1)] (surface 0 (-1))
             (distnormal_of (along_x 0 1) (along_x tolerance 1) (coll_normal (surface 0 (-1))))
             (particle_in [plain 1; plain 5]).
Proof.
  apply (proj1 (CheckHit_localised_iff
                  unit (fun _ _ => true) (collisions_on_segment [surface 0 (-1)]) [plain 3]
                  tolerance unit (fun _ => 1) flight pass_OnHit pass_OnStep all_logs tt
                  0 (along_x 0 1) tolerance (along_x tolerance 1) 0 1
                  (particle_in [plain 1; plain 5]) (surface 0 (-1)) []
                  eq_refl (collisions_on_segment_here _ _ _ _))).
  left. split; [reflexivity|].
  cbn [surface coll_normal coll_s]. rewrite distnormal_along_x.
  rewrite (proj2 (Rabs_cases _)) by (unfold tolerance; lra).
  unfold tolerance. split; lra.
Defined.

(** C4, an instance: the particle enters solid 3, which is in [currentsolids]. *)
Lemma CheckHit_inconsistent_crossing_witness :
  exists r,
    CheckHit_in [plain 3] [surface 0 (-1)] 0 (along_x 0 1) tolerance (along_x tolerance 1) 0 1
                (particle_in [plain 1; plain 3])
    = Ret r
    /\ changed r = true
    /\ end_x r = 0 /\ end_y r = along_x 0 1
    /\ ID_ (particle r) = (-3)%Z
    /\ currentsolids (particle r) = [plain 1; plain 3].
Proof.
  apply (CheckHit_inconsistent_crossing
           unit (fun _ _ => true) (collisions_on_segment [surface 0 (-1)]) [plain 3]
           tolerance unit (fun _ => 1) flight pass_OnHit pass_OnStep all_logs tt
           0 (along_x 0 1) tolerance (along_x tolerance 1) 0 1
           (particle_in [plain 1; plain 3]) (surface 0 (-1)) [] (plain 3)
           eq_refl (collisions_on_segment_here _ _ _ _) particle_in_localised_one eq_refl).
  left. split; [|reflexivity].
  cbn [surface coll_normal]. rewrite distnormal_along_x. unfold tolerance. lra.
Defined.


Lemma speed_along_x (px v : R) : 0 <= v -> speed (along_x px v) = v.
Proof.
  intros Hv. unfold speed. simpl.
  replace (v * v + 0 * 0 + 0 * 0) with (v * v) by lra.
  apply sqrt_square, Hv.
Qed.

Lemma distance_along_x (a b v w : R) : a <= b -> distance (along_x a v) (along_x b w) = b - a.
Proof.
  intros H. unfold distance. simpl.
  replace ((b - a) * ((b - a) * 1) + (0 - 0) * ((0 - 0) * 1) + (0 - 0) * ((0 - 0) * 1))
    with ((b - a) * (b - a)) by lra.
  apply sqrt_square. lra.
Qed.



Lemma Ekin_along_x (px : R) :
  Ekin 1 299792458 (1 / 100) (along_x px 1) = 1 / 2.
Proof.
  unfold Ekin. rewrite speed_along_x by lra.
  assert (H : Rltb (1 / 299792458) (1 / 100) = true) by (apply Rltb_true; lra).
  rewrite H. lra.
Qed.

Lemma ramped_rising (t : R) (y : vec6) (pol : Z) : t <= 1 / 2 -> ramped t y pol = t.
Proof. intros H. unfold ramped. apply Rleb_true in H. rewrite H. reflexivity. Qed.

Lemma ramped_falling (t : R) (y : vec6) (pol : Z) : 1 / 2 < t -> ramped t y pol = 1 - t.
Proof. intros H. unfold ramped. apply Rleb_false in H. rewrite H. reflexivity. Qed.

(** C6, an input on which the code departs from it. A particle of mass 1 and
    speed 1 under a potential that rises with time until 1/2 and falls
    afterwards, after a step from time 0 to time 1. [Hmax] starts as the start
    energy 1/2. The first piece of the step ends at time 0.01, where the track
    line shows the total energy 0.51; [Hmax] is still 1/2 after it, as the
    potential energy taken for it is the one at the end of the step. *)
Theorem Hmax_below_sampled_energy :
  exists l q x2 y2 H E earlier,
    sample_in_ramp 0 after_step (InitV_in_ramp 0 10 (along_x 0 1) 0 100 (particle_in []))
    = Ret (l, q)
    /\ Hmax (InitV_in_ramp 0 10 (along_x 0 1) 0 100 (particle_in [])) = 1 / 2
    /\ printed q = track_line x2 y2 0 H E :: earlier
    /\ x2 = 1 / 100
    /\ H = 51 / 100
    /\ Hmax q = 1 / 2
    /\ Hmax q < H.
Proof.
  set (p := InitV_in_ramp 0 10 (along_x 0 1) 0 100 (particle_in [])).
  assert (Hp : Hmax p = 1 / 2).
  { unfold p, InitV_in_ramp.
    destruct (InitV_Hmax unit (fun _ _ => [plain 1]) ramped 1 299792458 (1 / 100)
                         0 10 (along_x 0 1) 0 100 (particle_in [])) as [E1 E2].
    rewrite E1, E2, Ekin_along_x, ramped_rising; lra. }
  assert (Hns : next_sample unit (fun _ => 1) flight tt 0 (along_x 0 1) 1 (along_x 1 1)
                = (0 + MAX_SAMPLE_DIST / 1, along_x (0 + MAX_SAMPLE_DIST / 1) 1)).
  { unfold next_sample, over_speed. rewrite speed_along_x by lra.
    assert (H0 : Reqb 1 0 = false) by (apply Reqb_false; lra).
    assert (H1 : Rleb 1 (0 + MAX_SAMPLE_DIST / 1) = false)
      by (apply Rleb_false; unfold MAX_SAMPLE_DIST; lra).
    rewrite H0, H1. reflexivity. }
  set (r := {| changed := false; end_x := 0 + MAX_SAMPLE_DIST / 1;
               end_y := along_x (0 + MAX_SAMPLE_DIST / 1) 1; particle := p |}).
  assert (Hs : sample_in_ramp 0 after_step p
               = Ret (log_sample unit unit (fun _ => 1) flight ramped 1 299792458 (1 / 100)
                                 all_logs 0 after_step r)).
  { unfold sample_in_ramp. rewrite sample_unfold. cbn [after_step stepper x1 y1 x y].
    rewrite Hns. cbn [fst snd]. rewrite CheckHit_unfold. reflexivity. }
  pose proof (log_sample_spec unit unit (fun _ => 1) flight ramped 1 299792458 (1 / 100)
                              all_logs 0 after_step r) as Hlog.
  cbv zeta in Hlog.
  destruct (log_sample unit unit (fun _ => 1) flight ramped 1 299792458 (1 / 100)
                       all_logs 0 after_step r) as [l q].
  cbn [fst snd] in Hlog.
  destruct Hlog as [_ [HH [Hx [_ [_ Htrack]]]]].
  destruct (Htrack eq_refl) as [earlier Hprinted].
  cbn [r changed end_x end_y particle after_step x] in HH, Hx, Hprinted.
  rewrite Hx, Ekin_along_x, ramped_falling, Hp in HH by lra.
  rewrite Ekin_along_x, ramped_rising in Hprinted by (unfold MAX_SAMPLE_DIST; lra).
  assert (Hq : Hmax q = 1 / 2).
  { rewrite HH. unfold std_max. rcompare; lra. }
  exists l, q. do 5 eexists.
  split; [exact Hs|]. split; [exact Hp|]. split; [exact Hprinted|].
  unfold MAX_SAMPLE_DIST. repeat split; lra.
Qed.

Lemma world_built :
  Geometry.TGeometry_new (fun file _ => Ok file) Scenario.unset_solid
    [("Cu"%string, copper_line)]
    [(1%Z, Geometry.Line "ignored" "Cu" []); (3%Z, Geometry.Line "shutter.stl" "Cu" [(0, 1)])]
  = Ok world.
Proof. unfold Geometry.TGeometry_new. rewrite read_copper. reflexivity. Qed.

(** C7, an instance: the world of a default solid and the solid 3, with a mesh
    that reports a surface of solid 3 on every segment. *)
Lemma default_solid_stays_witness :
  (forall t p set,
      Geometry.GetSolids (fun _ _ => [surface 3 1]) (fun _ _ => false) 0 0 0 tolerance world t p
      = Ok set ->
      exists rest, set = (Geometry.defaultsolid world, false) :: rest)
  /\ (forall st x1 y1 x2 y2 pol iteration p r,
         CheckHit unit (fun _ _ => true) (fun _ _ _ _ => [surface 0 1])
                  (Geometry.solids world) tolerance unit (fun _ => 1) flight
                  pass_OnHit pass_OnStep all_logs st x1 y1 x2 y2 pol iteration p
         = Ret r ->
         holds_ID 1 (currentsolids p) = true ->
         holds_ID 1 (currentsolids (particle r)) = true
         /\ currentsolids (particle r) <> [])
  /\ (forall fuel inner tmax p q,
         Integrate unit (fun _ _ => true) (fun _ _ _ _ => [surface 0 1])
                   (Geometry.solids world) (fun _ _ => [plain 1])
                   tolerance unit (fun _ => 1) (fun _ => 1) flight
                   (fun _ _ _ _ => None) (fun _ _ => tt)
                   pass_OnHit pass_OnStep (fun _ => tt) ramped 1 299792458 (1 / 100) all_logs
                   0 (along_x 0 1) fuel inner tmax p
         = Ret q ->
         holds_ID 1 (currentsolids (located unit (fun _ _ => [plain 1]) p)) = true ->
         holds_ID 1 (currentsolids q) = true /\ currentsolids q <> []).
Proof.
  apply (default_solid_stays
           (fun file _ => Ok file) Scenario.unset_solid
           [("Cu"%string, copper_line)]
           [(1%Z, Geometry.Line "ignored" "Cu" []);
            (3%Z, Geometry.Line "shutter.stl" "Cu" [(0, 1)])]
           world (fun _ _ => [surface 3 1]) (fun _ _ => false) 0 0 0
           unit (fun _ _ => true) (fun _ _ _ _ => [surface 0 1]) (fun _ _ => [plain 1])
           tolerance unit (fun _ => 1) (fun _ => 1) flight (fun _ _ _ _ => None)
           (fun _ _ => tt) pass_OnHit pass_OnStep (fun _ => tt) ramped 1 299792458 (1 / 100)
           all_logs 0 (along_x 0 1) world_built eq_refl).
  intros p1 p2 c [<- | []]. left. reflexivity.
Defined.


(** C10, an instance: a material line that sets both the diffuse-reflection
    probability and the RMS roughness. *)
Lemma read_material_checks_witness :
  Geometry.read_material
    (Geometry.material_named "Cu")
    (Geometry.istringstream
       [Some 1; Some 0; Some (1 / 2); Some 0; Some 1; Some 0; Some 0; Some 0])
  = Throw (Both_reflection_models "Cu").
Proof.
  refine (proj1 (proj1 (proj2 (read_material_checks
                                 (Geometry.material_named "Cu")
                                 [Some 1; Some 0; Some (1 / 2); Some 0; Some 1; Some 0;
                                  Some 0; Some 0]))
                       1 0 (1 / 2) 0 1 0 0 0 [] eq_refl) _).
  split; [lra | left; lra].
Defined.

Lemma face_inside (f nx s : R) (y1 y2 : vec6) :
  at0 y1 < f < at0 y2 ->
  (f - at0 y1) / (at0 y2 - at0 y1) = s ->
  face f nx y1 y2 = [hit_at s nx].
Proof.
  intros [H1 H2] Hs. unfold face.
  apply Rltb_true in H1. apply Rltb_true in H2. rewrite H1, H2, Hs. reflexivity.
Qed.

Lemma face_outside (f nx : R) (y1 y2 : vec6) :
  f <= at0 y1 \/ at0 y2 <= f -> face f nx y1 y2 = [].
Proof.
  intros [H | H]; unfold face; apply Rltb_false in H; rewrite H.
  - reflexivity.
  - rewrite andb_false_r. reflexivity.
Qed.

(** A segment along x that meets no face of the foil. *)
Lemma foil_resolver_free (a b : R) (pol iteration : Z) (set : list solid) (lines : list line)
      (top : solid) :
  (b <= tolerance / 4 \/ (tolerance / 4 <= a /\ b <= 3 * tolerance / 4)
   \/ 3 * tolerance / 4 <= a) ->
  rbegin set = Some top ->
  foil_resolver tt a (along_x a 1) b (along_x b 1) pol iteration (particle_with set lines)
  = Ret {| changed := false; end_x := b; end_y := along_x b 1;
           particle := particle_with set lines |}.
Proof.
  intros Hfree Htop. unfold foil_resolver. rewrite CheckHit_unfold. unfold CheckHit_body.
  cbn [negb]. unfold foil.
  assert (Ht : 0 < tolerance) by (unfold tolerance; lra).
  rewrite !face_outside by (simpl; lra). cbn [app].
  unfold absorb. cbn [currentsolids particle_with]. rewrite Htop. reflexivity.
Qed.

Lemma localised_single (c : TCollision) (distnormal : R) (iteration : Z) :
  coll_s c * Rabs distnormal < tolerance ->
  (1 - coll_s c) * Rabs distnormal < tolerance ->
  localised tolerance [c] c distnormal iteration = true.
Proof. intros H1 H2. apply localised_spec. left. repeat split; assumption. Qed.

(** The step over the front face of the foil: the particle enters the
    solid 3. *)
Lemma foil_resolver_enters :
  foil_resolver tt (tolerance * (99 / 400)) (along_x (tolerance * (99 / 400)) 1)
                (tolerance * (101 / 400)) (along_x (tolerance * (101 / 400)) 1) 0 (1 + 1)
                (particle_with [plain 1] [])
  = Ret {| changed := false; end_x := tolerance * (101 / 400);
           end_y := along_x (tolerance * (101 / 400)) 1;
           particle :=
             particle_with
               [plain 1; plain 3]
               [hit_line (tolerance * (99 / 400)) (along_x (tolerance * (99 / 400)) 1)
                         (along_x (tolerance * (101 / 400)) 1) 0 0 (mk3 (-1) 0 0) 1 3] |}.
Proof.
  assert (Ht : 0 < tolerance) by (unfold tolerance; lra).
  assert (Hfoil : foil (tolerance * (99 / 400)) (along_x (tolerance * (99 / 400)) 1) 1
                       (along_x (tolerance * (101 / 400)) 1)
                  = [hit_at (1 / 2) (-1)]).
  { unfold foil.
    rewrite (face_inside _ _ (1 / 2)), face_outside;
      [reflexivity | simpl; lra | simpl; lra | simpl; unfold tolerance; field]. }
  unfold foil_resolver. rewrite CheckHit_unfold. unfold CheckHit_body. cbn [negb].
  rewrite Hfoil. cbn [hit_at coll_normal]. rewrite distnormal_along_x.
  rewrite localised_single;
    [|simpl; rewrite (proj2 (Rabs_cases _)) by lra; lra
     |simpl; rewrite (proj2 (Rabs_cases _)) by lra; lra].
  unfold cross. cbn [solids_at Z.ltb Z.compare coll_ID Z.to_nat nth_error deref obind
                     two_surfaces].
  assert (Hn : Rltb ((tolerance * (101 / 400) - tolerance * (99 / 400)) * -1) 0 = true)
    by (apply Rltb_true; lra).
  rewrite Hn. reflexivity.
Qed.

(** The step over the back face of the foil: the particle leaves the solid
    3 again. *)
Lemma foil_resolver_leaves (lines : list line) :
  foil_resolver tt (tolerance * (101 / 400)) (along_x (tolerance * (101 / 400)) 1)
                tolerance (along_x tolerance 1) 0 (1 + 1)
                (particle_with [plain 1; plain 3] lines)
  = Ret {| changed := false; end_x := tolerance; end_y := along_x tolerance 1;
           particle :=
             particle_with
               [plain 1]
               (hit_line (tolerance * (101 / 400)) (along_x (tolerance * (101 / 400)) 1)
                         (along_x tolerance 1) 0 0 (mk3 1 0 0) 3 1 :: lines) |}.
Proof.
  assert (Ht : 0 < tolerance) by (unfold tolerance; lra).
  assert (Hfoil : foil (tolerance * (101 / 400)) (along_x (tolerance * (101 / 400)) 1) 1
                       (along_x tolerance 1)
                  = [hit_at (199 / 299) 1]).
  { unfold foil.
    rewrite face_outside, (face_inside _ _ (199 / 299));
      [reflexivity | simpl; lra | simpl; unfold tolerance; field | simpl; lra]. }
  unfold foil_resolver. rewrite CheckHit_unfold. unfold CheckHit_body. cbn [negb].
  rewrite Hfoil. cbn [hit_at coll_normal]. rewrite distnormal_along_x.
  rewrite localised_single;
    [|simpl; rewrite (proj1 (Rabs_cases _)) by lra; lra
     |simpl; rewrite (proj1 (Rabs_cases _)) by lra; lra].
  unfold cross. cbn [solids_at Z.ltb Z.compare coll_ID Z.to_nat nth_error deref obind
                     two_surfaces].
  assert (Hp : Rltb ((tolerance - tolerance * (101 / 400)) * 1) 0 = false)
    by (apply Rltb_false; lra).
  assert (Hp' : Rltb 0 ((tolerance - tolerance * (101 / 400)) * 1) = true)
    by (apply Rltb_true; lra).
  rewrite Hp, Hp'. reflexivity.
Qed.

(** C3, an input on which it fails.  A particle crosses a thin foil of the
    solid 3 in one segment of the length [REFLECT_TOLERANCE]: the segment has
    two collision records, the front face at s = 1/4 and the back face at
    s = 3/4, and the first is within the tolerance of both ends of the
    segment.  At iteration 1 [CheckHit] does not hand the segment to the
    localised handling, which would let the particle enter the foil and end
    in the solids 1 and 3 with one hit printed; it bisects, so that the
    particle enters the foil on the step over the front face and leaves it on
    the step after it, and ends in the solid 1 with two hits printed. *)
Lemma CheckHit_bisects_thin_foil :
  (coll_s (hit_at (1 / 4) (-1))
   * Rabs (distnormal_of (along_x 0 1) (along_x tolerance 1) (coll_normal (hit_at (1 / 4) (-1))))
   < tolerance
   /\ (1 - coll_s (hit_at (1 / 4) (-1)))
      * Rabs (distnormal_of (along_x 0 1) (along_x tolerance 1)
                            (coll_normal (hit_at (1 / 4) (-1))))
      < tolerance)
  /\ foil 0 (along_x 0 1) 1 (along_x tolerance 1) = [hit_at (1 / 4) (-1); hit_at (3 / 4) 1]
  /\ (exists r,
         foil_resolver tt 0 (along_x 0 1) tolerance (along_x tolerance 1) 0 1
                       (particle_in [plain 1])
         = Ret r
         /\ changed r = false
         /\ map ID (currentsolids (particle r)) = [1%Z]
         /\ List.length (printed (particle r)) = 2%nat)
  /\ (exists r,
         cross unit [plain 3] pass_OnHit pass_OnStep all_logs
               0 (along_x 0 1) tolerance (along_x tolerance 1) 0
               [hit_at (1 / 4) (-1); hit_at (3 / 4) 1] (hit_at (1 / 4) (-1))
               (distnormal_of (along_x 0 1) (along_x tolerance 1)
                              (coll_normal (hit_at (1 / 4) (-1))))
               (particle_in [plain 1])
         = Ret r
         /\ changed r = false
         /\ map ID (currentsolids (particle r)) = [1; 3]%Z
         /\ List.length (printed (particle r)) = 1%nat).
Proof.
  assert (Ht : 0 < tolerance) by (unfold tolerance; lra).
  assert (Hfoil : foil 0 (along_x 0 1) 1 (along_x tolerance 1)
                  = [hit_at (1 / 4) (-1); hit_at (3 / 4) 1]).
  { unfold foil.
    rewrite (face_inside _ _ (1 / 4)), (face_inside _ _ (3 / 4));
      try reflexivity; simpl; try lra; unfold tolerance; field. }
  cbn [hit_at coll_s coll_normal]. rewrite distnormal_along_x.
  assert (Hneg : Rltb ((tolerance - 0) * -1) 0 = true) by (apply Rltb_true; lra).
  split; [|split; [exact Hfoil|split]].
  - rewrite (proj2 (Rabs_cases _)) by lra. split; lra.
  - unfold foil_resolver. rewrite CheckHit_unfold. unfold CheckHit_body. cbn [negb].
    rewrite Hfoil, not_localised_two. unfold bisect. cbn [hit_at coll_s].
    replace (cut_before 0 tolerance (1 / 4) 1) with (tolerance * (99 / 400))
      by (unfold cut_before; simpl; lra).
    assert (H1 : Rltb 0 (tolerance * (99 / 400))
                 && Rltb (tolerance * (99 / 400)) tolerance = true).
    { apply andb_true_iff. split; apply Rltb_true; lra. }
    rewrite H1. fold foil_resolver.
    change (dense unit (fun _ => 1) flight tt (tolerance * (99 / 400)))
      with (along_x (tolerance * (99 / 400)) 1).
    unfold particle_in.
    rewrite (foil_resolver_free _ _ _ _ _ _ (plain 1)); [|lra | reflexivity].
    cbn [obind changed end_x end_y particle]. unfold bisect_over. cbn [hit_at coll_s].
    replace (cut_after 0 tolerance (1 / 4) 1) with (tolerance * (101 / 400))
      by (unfold cut_after; simpl; lra).
    assert (H2 : Rltb (tolerance * (99 / 400)) (tolerance * (101 / 400))
                 && Rltb (tolerance * (101 / 400)) tolerance = true).
    { apply andb_true_iff. split; apply Rltb_true; lra. }
    rewrite H2.
    change (dense unit (fun _ => 1) flight tt (tolerance * (101 / 400)))
      with (along_x (tolerance * (101 / 400)) 1).
    rewrite foil_resolver_enters. cbn [obind changed end_x end_y particle].
    unfold bisect_after. rewrite foil_resolver_leaves.
    eexists. split; [reflexivity|]. repeat split.
  - unfold cross. cbn [solids_at Z.ltb Z.compare coll_ID hit_at Z.to_nat nth_error deref obind
                       two_surfaces Z.eqb negb].
    rewrite Hneg. eexists. split; [reflexivity|]. repeat split.
Qed.

End Examples.

(** * Further properties of the geometry *)

(** ** Looking a solid up *)

Section LookupFacts.

Import Geometry.

Variable geom : TGeometry.

(** X1. Looking a solid up by its ID gives the first solid of [solids] with
    this ID, and throws "Could not find solid" exactly when no solid has it;
    no other exception leaves the lookup. *)
Theorem GetSolid_finds (id : Z) :
  (forall sld,
      GetSolid geom id = Ok sld ->
      ID sld = id
      /\ exists l1 l2,
          solids geom = l1 ++ sld :: l2 /\ Forall (fun s => ID s <> id) l1)
  /\ (GetSolid geom id = Throw (Could_not_find_solid id)
      <-> Forall (fun s => ID s <> id) (solids geom))
  /\ (forall e, GetSolid geom id = Throw e -> e = Could_not_find_solid id).
Proof.
  unfold GetSolid.
  assert (H : forall l,
             match find (fun sld => (ID sld =? id)%Z) l with
             | Some sld =>
                 ID sld = id
                 /\ exists l1 l2, l = l1 ++ sld :: l2 /\ Forall (fun s => ID s <> id) l1
             | None => Forall (fun s => ID s <> id) l
             end).
  { induction l as [|a l IH]; simpl.
    - constructor.
    - destruct (ID a =? id)%Z eqn:E.
      + split; [apply Z.eqb_eq, E|]. exists [], l. split; [reflexivity | constructor].
      + destruct (find _ l) as [sld|].
        * destruct IH as [Hid [l1 [l2 [-> Hl1]]]]. split; [exact Hid|].
          exists (a :: l1), l2. split; [reflexivity|].
          constructor; [apply Z.eqb_neq, E | exact Hl1].
        * constructor; [apply Z.eqb_neq, E | exact IH]. }
  specialize (H (solids geom)).
  destruct (find _ (solids geom)) as [sld|].
  - split; [|split].
    + intros sld' E. injection E as <-. exact H.
    + split; [discriminate|]. intros Hall. destruct H as [Hid [l1 [l2 [E _]]]].
      rewrite E in Hall. apply Forall_app in Hall. destruct Hall as [_ Hall].
      inversion Hall as [|? ? Hn _]. contradiction.
    + discriminate.
  - split; [|split].
    + discriminate.
    + split; [intros _; exact H | reflexivity].
    + intros e E. injection E as <-. reflexivity.
Qed.

End LookupFacts.

(** ** The check for identical IDs *)

Section UniqueFacts.

Import Geometry.

Lemma unique_after_same_length (l : list solid) :
  forall kept,
    List.length (unique_after same_ID kept l) = List.length l ->
    unique_after same_ID kept l = l.
Proof.
  induction l as [|a l IH]; simpl; intros kept H; [reflexivity|].
  destruct (same_ID kept a).
  - pose proof (unique_after_length same_ID l kept). lia.
  - simpl in H. f_equal. apply IH. lia.
Qed.

Lemma unique_after_shorter (l : list solid) :
  forall kept,
    (List.length (unique_after same_ID kept l) < List.length l)%nat ->
    exists l1 a b l2, kept :: l = l1 ++ a :: b :: l2 /\ ID a = ID b.
Proof.
  induction l as [|c l IH]; simpl; intros kept H; [lia|].
  destruct (same_ID kept c) eqn:E.
  - exists [], kept, c, l. split; [reflexivity | apply Z.eqb_eq, E].
  - simpl in H. destruct (IH c) as [l1 [a [b [l2 [E' Hab]]]]]; [lia|].
    exists (kept :: l1), a, b, l2. split; [simpl; rewrite E'; reflexivity | exact Hab].
Qed.

(** X2. The check for identical IDs fires exactly when two neighbours in
    [solids] share an ID, and passes exactly when [std::unique] leaves the
    vector as it is. *)
Theorem unique_removes_iff (l : list solid) :
  (unique_removes l = true
   <-> exists l1 a b l2, l = l1 ++ a :: b :: l2 /\ ID a = ID b)
  /\ (unique_removes l = false <-> std_unique same_ID l = l).
Proof.
  split.
  - split.
    + unfold unique_removes. intros H. apply negb_true_iff, Nat.eqb_neq in H.
      destruct l as [|c l]; [contradiction H; reflexivity|].
      simpl in H. apply unique_after_shorter.
      pose proof (unique_after_length same_ID l c). lia.
    + intros [l1 [a [b [l2 [-> Hab]]]]]. apply unique_removes_adjacent, Hab.
  - unfold unique_removes. rewrite negb_false_iff, Nat.eqb_eq. split.
    + destruct l as [|c l]; [reflexivity|]. simpl. intros H. f_equal.
      apply unique_after_same_length. lia.
    + intros ->. reflexivity.
Qed.

End UniqueFacts.

(** ** What the constructor builds *)

Section SectionFacts.

Import Geometry.

(** X5. When the [MATERIALS] section is read, the materials come in the order
    of the section and under the names of its keys; each line starts with
    eight numbers, which are the material's values, and no material has both
    reflection models set. *)
Theorem read_materials_spec (conf : list (string * list (option R)))
        (materials : list material) :
  read_materials conf = Ok materials ->
  map mat_name materials = map fst conf
  /\ Forall (fun mt => DiffProb mt = 0 \/ (RMSRoughness mt = 0 /\ CorrelLength mt = 0))
            materials
  /\ Forall2
       (fun line mt =>
          exists rest,
            eight_numbers (snd line)
            = Some ([FermiReal mt; FermiImag mt; DiffProb mt; SpinflipProb mt;
                     RMSRoughness mt; CorrelLength mt; LossPerBounce mt; MFPElastic mt],
                    rest))
       conf materials.
Proof.
  revert materials. induction conf as [|[nm value] conf IH]; intros materials H.
  - injection H as <-. repeat split; constructor.
  - cbn [Geometry.read_materials] in H.
    destruct (read_material (material_named nm) (istringstream value)) as [[mt str]|] eqn:Hr;
      simpl in H; [|discriminate].
    destruct (read_materials conf) as [ms|]; simpl in H; [|discriminate].
    injection H as <-.
    destruct (IH ms eq_refl) as [H1 [H2 H3]].
    destruct (eight_numbers value) as [[nums rest]|] eqn:E.
    + do 8 (destruct value as [|[?v|] value]; try discriminate E).
      rewrite read_material_numbers in Hr.
      destruct (negb (Reqb v1 0) && (negb (Reqb v3 0) || negb (Reqb v4 0))) eqn:Hmodels;
        [discriminate|].
      injection Hr as <- _. split; [|split].
      * simpl. rewrite H1. reflexivity.
      * constructor; [|exact H2]. simpl.
        apply andb_false_iff in Hmodels. destruct Hmodels as [Hd | Hr].
        -- left. apply Reqb_true. apply negb_false_iff, Hd.
        -- right. apply orb_false_iff in Hr. destruct Hr as [Hr Hc].
           split; apply Reqb_true, negb_false_iff; assumption.
      * constructor; [|exact H3]. exists value. reflexivity.
    + rewrite (read_material_unreadable _ _ E) in Hr. discriminate.
Qed.

End SectionFacts.

Section LoadingFacts.

Import Geometry.
Local Open Scope result_scope.

Variable mesh_ReadFile : string -> Z -> result string.
Variable defaultsolid_unset : solid.

Local Abbreviation load_solids := (load_solids mesh_ReadFile).
Local Abbreviation TGeometry_new := (TGeometry_new mesh_ReadFile defaultsolid_unset).

(** The loop over the [GEOMETRY] section goes through the entries in their
    order and stops at the first that fails. *)
Lemma load_solids_app (materials : list material) (l1 l2 : list (Z * solid_line)) :
  forall g,
    load_solids materials (l1 ++ l2) g
    = rbind (load_solids materials l1 g) (load_solids materials l2).
Proof.
  induction l1 as [|[id line] l1 IH]; intros g; [reflexivity|].
  cbn [app Geometry.load_solids].
  destruct (read_solid _ line) as [sld|]; simpl; [|reflexivity].
  destruct (find_material materials (mat_name (mat sld))); [|reflexivity].
  destruct (ID sld =? 1)%Z; [apply IH|].
  destruct (mesh_ReadFile (filename sld) (ID sld)); simpl; [apply IH | reflexivity].
Qed.

Lemma load_solids_solids (materials : list material) (entries : list (Z * solid_line)) :
  forall g g',
    load_solids materials entries g = Ok g' ->
    exists news,
      solids g' = solids g ++ news
      /\ Forall2
           (fun entry sld =>
              exists file matname times nm mt,
                snd entry = Line file matname times
                /\ find_material materials matname = Some mt
                /\ mesh_ReadFile file (fst entry) = Ok nm
                /\ sld = {| ID := fst entry; name := nm; filename := file; mat := mt;
                            ignoretimes := times |})
           (filter (fun e => negb (fst e =? 1)%Z) entries) news.
Proof.
  induction entries as [|[id line] rest IH]; intros g g' H.
  - injection H as <-. exists []. split; [rewrite app_nil_r; reflexivity | constructor].
  - cbn [Geometry.load_solids] in H.
    destruct line as [file matname times| |]; simpl in H; try discriminate.
    destruct (find_material materials matname) as [mt|] eqn:Hmat; [|discriminate].
    cbn [filter fst]. destruct (id =? 1)%Z eqn:Hid; cbn [negb].
    + apply IH in H. exact H.
    + destruct (mesh_ReadFile file id) as [nm|] eqn:Hmesh; simpl in H; [|discriminate].
      apply IH in H. destruct H as [news [E Hnews]]. simpl in E.
      eexists. split; [rewrite E, <- app_assoc; reflexivity|].
      constructor; [|exact Hnews].
      exists file, matname, times, nm, mt. simpl. auto.
Qed.

Lemma load_solids_keeps_default (materials : list material)
      (entries : list (Z * solid_line)) :
  Forall (fun e => fst e <> 1%Z) entries ->
  forall g g',
    load_solids materials entries g = Ok g' -> defaultsolid g' = defaultsolid g.
Proof.
  induction 1 as [|[id line] rest Hid _ IH]; intros g g' H.
  - injection H as <-. reflexivity.
  - cbn [Geometry.load_solids] in H.
    destruct line as [file matname times| |]; simpl in H; try discriminate.
    destruct (find_material materials matname) as [mt|]; [|discriminate].
    simpl in Hid. apply Z.eqb_neq in Hid. rewrite Hid in H.
    destruct (mesh_ReadFile file id) as [nm|]; simpl in H; [|discriminate].
    apply IH in H. exact H.
Qed.

(** X3. In a geometry that the constructor accepts, [solids] holds the
    entries of the [GEOMETRY] section whose ID is not 1, in their order: each
    with the ID of its key, the file name and the ignore times of its line,
    the first material defined with the name on the line, and the name that
    reading the file into the mesh gave. *)
Theorem TGeometry_new_solids (MATERIALS : list (string * list (option R)))
        (GEOMETRY : list (Z * solid_line)) (g : TGeometry) :
  TGeometry_new MATERIALS GEOMETRY = Ok g ->
  exists materials,
    read_materials MATERIALS = Ok materials
    /\ Forall2
         (fun entry sld =>
            exists file matname times nm mt,
              snd entry = Line file matname times
              /\ find_material materials matname = Some mt
              /\ mesh_ReadFile file (fst entry) = Ok nm
              /\ sld = {| ID := fst entry; name := nm; filename := file; mat := mt;
                          ignoretimes := times |})
         (filter (fun e => negb (fst e =? 1)%Z) GEOMETRY) (solids g).
Proof.
  unfold Geometry.TGeometry_new. intros H.
  destruct (read_materials MATERIALS) as [materials|]; simpl in H; [|discriminate].
  destruct (load_solids materials GEOMETRY _) as [g0|] eqn:Hload; simpl in H; [|discriminate].
  destruct (unique_removes (solids g0)); [discriminate|].
  injection H as <-.
  exists materials. split; [reflexivity|].
  apply load_solids_solids in Hload. destruct Hload as [news [E Hnews]].
  simpl in E. rewrite E. exact Hnews.
Qed.

(** X4. In a geometry that the constructor accepts, the default solid is the
    last entry with the ID 1, under the name "default solid" and with its
    material looked up; without such an entry [defaultsolid] is left as it
    was constructed.  No file is read into the mesh under the ID 1. *)
Theorem TGeometry_new_defaultsolid (MATERIALS : list (string * list (option R)))
        (GEOMETRY : list (Z * solid_line)) (g : TGeometry) :
  TGeometry_new MATERIALS GEOMETRY = Ok g ->
  (Forall (fun e => fst e <> 1%Z) GEOMETRY -> defaultsolid g = defaultsolid_unset)
  /\ (forall l1 file matname times l2,
        GEOMETRY = l1 ++ (1%Z, Line file matname times) :: l2 ->
        Forall (fun e => fst e <> 1%Z) l2 ->
        exists materials mt,
          read_materials MATERIALS = Ok materials
          /\ find_material materials matname = Some mt
          /\ defaultsolid g = {| ID := 1; name := "default solid"; filename := file;
                                 mat := mt; ignoretimes := times |})
  /\ Forall (fun id => id <> 1%Z) (mesh_IDs g).
Proof.
  intros H.
  assert (Hmesh : Forall (fun id => id <> 1%Z) (mesh_IDs g)).
  { destruct (TGeometry_new_spec mesh_ReadFile defaultsolid_unset _ _ _ H) as [H1 [H2 _]].
    rewrite H2. apply Forall_map. exact H1. }
  revert H. unfold Geometry.TGeometry_new. intros H.
  destruct (read_materials MATERIALS) as [materials|]; simpl in H; [|discriminate].
  destruct (load_solids materials GEOMETRY _) as [g0|] eqn:Hload; simpl in H; [|discriminate].
  destruct (unique_removes (solids g0)); [discriminate|].
  injection H as <-. split; [|split; [|exact Hmesh]].
  - intros Hall. apply (load_solids_keeps_default _ _ Hall) in Hload. exact Hload.
  - intros l1 file matname times l2 -> Hl2.
    rewrite load_solids_app in Hload.
    destruct (load_solids materials l1 _) as [g1|]; simpl in Hload; [|discriminate].
    cbn [Geometry.load_solids] in Hload. simpl in Hload.
    destruct (find_material materials matname) as [mt|] eqn:Hmat; [|discriminate].
    apply (load_solids_keeps_default _ _ Hl2) in Hload. simpl in Hload.
    exists materials, mt. auto.
Qed.

(** X6. The entries of the [GEOMETRY] section are loaded in their order and
    the first that fails ends the construction, whatever follows it: a line
    without file and material name throws "Could not load solid", a line with
    a broken pair of ignore times "Invalid ignoretimes", a line with a
    material that is not defined "Material used but not defined" (also for the
    default solid, and before the file is read), and a file that the mesh
    cannot read throws the mesh's exception. *)
Theorem TGeometry_new_entry_errors (MATERIALS : list (string * list (option R)))
        (materials : list material) (l1 l2 : list (Z * solid_line)) (g1 : TGeometry)
        (id : Z) :
  read_materials MATERIALS = Ok materials ->
  load_solids materials l1
    {| mesh_IDs := []; defaultsolid := defaultsolid_unset; solids := [] |} = Ok g1 ->
  TGeometry_new MATERIALS (l1 ++ (id, Line_without_names) :: l2)
  = Throw (Could_not_load_solid id)
  /\ TGeometry_new MATERIALS (l1 ++ (id, Line_with_invalid_ignoretimes) :: l2)
     = Throw (Invalid_ignoretimes id)
  /\ (forall file matname times,
        find_material materials matname = None ->
        TGeometry_new MATERIALS (l1 ++ (id, Line file matname times) :: l2)
        = Throw (Material_not_defined matname))
  /\ (forall file matname times mt e,
        find_material materials matname = Some mt ->
        id <> 1%Z ->
        mesh_ReadFile file id = Throw e ->
        TGeometry_new MATERIALS (l1 ++ (id, Line file matname times) :: l2) = Throw e).
Proof.
  intros Hm Hl. unfold Geometry.TGeometry_new. rewrite Hm. simpl.
  repeat split; intros; rewrite load_solids_app, Hl; simpl.
  - reflexivity.
  - reflexivity.
  - rewrite H. reflexivity.
  - rewrite H. apply Z.eqb_neq in H0. rewrite H0, H1. reflexivity.
Qed.

End LoadingFacts.

(** ** The order of the records and the containment query *)

Section OrderFacts.

Import Geometry.
Local Open Scope result_scope.

Variable mesh_Collision : vec3 -> vec3 -> list TCollision.
Variable coll_less : TCollision -> TCollision -> bool.
Variables xmin ymin zmin : R.
Variable REFLECT_TOLERANCE : R.
Variable geom : TGeometry.

Local Abbreviation GetSolid := (GetSolid geom).
Local Abbreviation emplace := (emplace coll_less).
Local Abbreviation tag_collisions := (tag_collisions coll_less geom).
Local Abbreviation GetCollisions := (GetCollisions mesh_Collision coll_less geom).
Local Abbreviation GetSolids :=
  (GetSolids mesh_Collision coll_less xmin ymin zmin REFLECT_TOLERANCE geom).
Local Abbreviation GetSolid_at :=
  (GetSolid_at mesh_Collision coll_less xmin ymin zmin REFLECT_TOLERANCE geom).
Local Abbreviation toggle_solids := (toggle_solids geom).

(** No record lies before one with a smaller key. *)
Local Abbreviation in_order :=
  (Sorted (fun a b : TCollision * bool => coll_less (fst b) (fst a) = false)).

Lemma emplace_in_order (k : TCollision) (v : bool) (colls : multimap) :
  (forall a b, coll_less a b = true -> coll_less b a = false) ->
  in_order colls -> in_order (emplace k v colls).
Proof.
  intros Hasym. induction colls as [|kv colls IH]; intros Hs; simpl.
  - repeat constructor.
  - destruct (coll_less k (fst kv)) eqn:E.
    + constructor; [exact Hs|]. constructor. simpl. apply Hasym, E.
    + inversion Hs as [|? ? Hs' Hhd]; subst.
      constructor; [apply IH, Hs'|].
      destruct colls as [|kv' colls]; simpl.
      * constructor. exact E.
      * destruct (coll_less k (fst kv')); constructor.
        -- exact E.
        -- inversion Hhd; subst. assumption.
Qed.

Lemma tag_collisions_in_order (x1 x2 : R) (c : list TCollision) :
  (forall a b, coll_less a b = true -> coll_less b a = false) ->
  forall colls out,
    tag_collisions x1 x2 c colls = Ok out -> in_order colls -> in_order out.
Proof.
  intros Hasym. induction c as [|it rest IH]; simpl; intros colls out H Hs.
  - injection H as <-. exact Hs.
  - destruct (GetSolid (coll_ID it)) as [sld|]; simpl in H; [|discriminate].
    eapply IH; [exact H|]. apply emplace_in_order; assumption.
Qed.

(** X7. When the order of collisions is asymmetric, the records that the
    segment test returns are in this order: no record is followed by one
    with a smaller key. *)
Theorem GetCollisions_in_order (x1 : R) (p1 : vec3) (x2 : R) (p2 : vec3)
        (hit : bool) (colls : multimap) :
  (forall a b, coll_less a b = true -> coll_less b a = false) ->
  GetCollisions x1 p1 x2 p2 = Ok (hit, colls) ->
  Sorted (fun a b : TCollision * bool => coll_less (fst b) (fst a) = false) colls.
Proof.
  intros Hasym. unfold Geometry.GetCollisions. intros H.
  destruct (tag_collisions x1 x2 (mesh_Collision p1 p2) []) as [out|] eqn:Htag;
    simpl in H; [|discriminate].
  injection H as _ <-.
  eapply tag_collisions_in_order; [exact Hasym | exact Htag | constructor].
Qed.

(** *** The containment query counts crossings *)

Lemma GetSolid_ID (id : Z) (sld : solid) : GetSolid id = Ok sld -> ID sld = id.
Proof.
  unfold Geometry.GetSolid. destruct (find _ (solids geom)) as [s|] eqn:E; [|discriminate].
  intros H. injection H as <-. apply find_some in E. apply Z.eqb_eq, (proj2 E).
Qed.

Lemma holds_erase_first (j k : Z) (cs : list (solid * bool)) :
  NoDup (map (fun s => ID (fst s)) cs) ->
  existsb (holds j) cs = true ->
  NoDup (map (fun s => ID (fst s)) (erase_first (holds j) cs))
  /\ existsb (holds k) (erase_first (holds j) cs)
     = (if (k =? j)%Z then false else existsb (holds k) cs).
Proof.
  induction cs as [|s cs IH]; simpl; intros Hnd Hex; [discriminate|].
  inversion Hnd as [|? ? Hnotin Hnd']; subst.
  destruct (holds j s) eqn:Hj.
  - split; [exact Hnd'|].
    unfold holds in Hj. apply Z.eqb_eq in Hj.
    destruct (k =? j)%Z eqn:Hk.
    + apply Z.eqb_eq in Hk. subst k.
      destruct (existsb (holds j) cs) eqn:E; [|reflexivity].
      exfalso. apply Hnotin. apply existsb_exists in E. destruct E as [s' [Hin Hs']].
      unfold holds in Hs'. apply Z.eqb_eq in Hs'. rewrite Hj, <- Hs'.
      apply (in_map (fun s => ID (fst s))), Hin.
    + assert (Hs : holds k s = false).
      { unfold holds. rewrite Hj, Z.eqb_sym. exact Hk. }
      rewrite Hs. reflexivity.
  - simpl in Hex. destruct (IH Hnd' Hex) as [IH1 IH2]. split.
    + simpl. constructor; [|exact IH1].
      intros Hin. apply Hnotin.
      apply in_map_iff in Hin. destruct Hin as [s' [Es' Hin]].
      apply in_map_iff. exists s'. split; [exact Es'|].
      clear - Hin. induction cs as [|c cs IHc]; simpl in *; [contradiction|].
      destruct (holds j c); [right; exact Hin|].
      destruct Hin as [<- | Hin]; [left; reflexivity | right; apply IHc, Hin].
    + simpl. rewrite IH2. destruct (k =? j)%Z eqn:Hk; [|reflexivity].
      apply Z.eqb_eq in Hk. subst k. rewrite Hj. reflexivity.
Qed.

(** How often the ID [k] occurs in the keys of the records. *)
Local Abbreviation crossings :=
  (fun (k : Z) (c : list TCollision) => count_occ Z.eq_dec (map coll_ID c) k).

Lemma toggle_solids_parity (c : multimap) :
  forall cs out,
    NoDup (map (fun s => ID (fst s)) cs) ->
    toggle_solids c cs = Ok out ->
    NoDup (map (fun s => ID (fst s)) out)
    /\ forall k,
        existsb (holds k) out
        = xorb (existsb (holds k) cs) (Nat.odd (crossings k (map fst c))).
Proof.
  induction c as [|i c IH]; intros cs out Hnd H.
  - injection H as <-. split; [exact Hnd|]. intros k. simpl. rewrite xorb_false_r. reflexivity.
  - cbn [Geometry.toggle_solids] in H.
    assert (Hcount : forall k,
               Nat.odd (crossings k (map fst (i :: c)))
               = xorb (k =? coll_ID (fst i))%Z (Nat.odd (crossings k (map fst c)))).
    { intros k. simpl. destruct (Z.eq_dec (coll_ID (fst i)) k) as [E|E].
      - rewrite Nat.odd_succ, <- Nat.negb_odd. subst k. rewrite Z.eqb_refl.
        destruct (Nat.odd _); reflexivity.
      - apply not_eq_sym, Z.eqb_neq in E. rewrite E. destruct (Nat.odd _); reflexivity. }
    destruct (existsb (holds (coll_ID (fst i))) cs) eqn:Hex.
    + destruct (holds_erase_first (coll_ID (fst i)) 0 cs Hnd Hex) as [Hnd' _].
      destruct (IH _ _ Hnd' H) as [H1 H2]. split; [exact H1|].
      intros k. rewrite H2, Hcount.
      rewrite (proj2 (holds_erase_first (coll_ID (fst i)) k cs Hnd Hex)).
      destruct (k =? coll_ID (fst i))%Z eqn:Hk.
      * apply Z.eqb_eq in Hk. subst k. rewrite Hex.
        destruct (Nat.odd _); reflexivity.
      * destruct (existsb (holds k) cs), (Nat.odd _); reflexivity.
    + destruct (GetSolid (coll_ID (fst i))) as [sld|] eqn:Hsld; simpl in H; [|discriminate].
      apply GetSolid_ID in Hsld.
      assert (Hnd' : NoDup (map (fun s => ID (fst s)) (cs ++ [(sld, snd i)]))).
      { rewrite map_app. simpl. apply NoDup_app.
        - exact Hnd.
        - constructor; [intros [] | constructor].
        - intros z Hz [E | []]. subst z.
          apply in_map_iff in Hz. destruct Hz as [s [Es Hin]].
          assert (Ht : existsb (holds (coll_ID (fst i))) cs = true).
          { apply existsb_exists. exists s. split; [exact Hin|].
            unfold holds. apply Z.eqb_eq. rewrite Es. exact Hsld. }
          rewrite Ht in Hex. discriminate. }
      destruct (IH _ _ Hnd' H) as [H1 H2]. split; [exact H1|].
      intros k. rewrite H2, Hcount, existsb_app. simpl. unfold holds at 2. simpl.
      rewrite Hsld, orb_false_r, (Z.eqb_sym (coll_ID (fst i)) k).
      destruct (k =? coll_ID (fst i))%Z eqn:Hk.
      * apply Z.eqb_eq in Hk. subst k. rewrite Hex. destruct (Nat.odd _); reflexivity.
      * rewrite orb_false_r. destruct (existsb (holds k) cs), (Nat.odd _); reflexivity.
Qed.

Lemma crossings_Permutation (k : Z) (c c' : list TCollision) :
  Permutation c c' -> crossings k c = crossings k c'.
Proof.
  intros H. induction H; simpl.
  - reflexivity.
  - rewrite IHPermutation. reflexivity.
  - destruct (Z.eq_dec (coll_ID y) k), (Z.eq_dec (coll_ID x) k); reflexivity.
  - rewrite IHPermutation1. exact IHPermutation2.
Qed.

(** X8. The containment query returns every solid at most once, and a solid
    with the ID [k] is among them exactly when the mesh reports an odd number
    of collisions with this ID on the segment from the point to the corner
    below the bounding box; the default solid, when it reports an even
    number. *)
Theorem GetSolids_parity (t : R) (p : vec3) (out : list (solid * bool)) :
  GetSolids t p = Ok out ->
  NoDup (map (fun s => ID (fst s)) out)
  /\ forall k,
      existsb (holds k) out
      = xorb (ID (defaultsolid geom) =? k)%Z
             (Nat.odd (count_occ Z.eq_dec
                         (map coll_ID
                              (mesh_Collision p (mk3 (xmin - REFLECT_TOLERANCE)
                                                     (ymin - REFLECT_TOLERANCE)
                                                     (zmin - REFLECT_TOLERANCE))))
                         k)).
Proof.
  unfold Geometry.GetSolids.
  set (p2 := mk3 _ _ _).
  destruct (GetCollisions t p t p2) as [[hit colls]|] eqn:Hc; simpl; [|discriminate].
  destruct (GetCollisions_records _ _ _ _ _ _ _ _ _ Hc) as [_ [Hperm Hhit]].
  assert (Hnd : NoDup (map (fun s => ID (fst s)) [(defaultsolid geom, false)])).
  { simpl. constructor; [intros [] | constructor]. }
  destruct hit.
  - intros H. destruct (toggle_solids_parity _ _ _ Hnd H) as [H1 H2].
    split; [exact H1|]. intros k. rewrite H2. simpl. unfold holds at 1. simpl.
    rewrite orb_false_r. f_equal. f_equal. apply crossings_Permutation, Hperm.
  - intros H. injection H as <-. split; [exact Hnd|]. intros k.
    destruct colls; [|discriminate Hhit].
    apply Permutation_nil in Hperm. rewrite Hperm. simpl. unfold holds. simpl.
    rewrite orb_false_r, xorb_false_r. reflexivity.
Qed.

End OrderFacts.

(** ** The solid at a point *)

Section PriorityFacts.

Import Geometry.
Local Open Scope result_scope.

Variable mesh_Collision : vec3 -> vec3 -> list TCollision.
Variable coll_less : TCollision -> TCollision -> bool.
Variables xmin ymin zmin : R.
Variable REFLECT_TOLERANCE : R.
Variable geom : TGeometry.

Local Abbreviation GetSolids :=
  (GetSolids mesh_Collision coll_less xmin ymin zmin REFLECT_TOLERANCE geom).
Local Abbreviation GetSolid_at :=
  (GetSolid_at mesh_Collision coll_less xmin ymin zmin REFLECT_TOLERANCE geom).

(** The scan of [std::max_element] with the comparison of [GetSolid(t, p)]:
    as long as every solid met is ignored the candidate is the last one;
    from the first solid that is not ignored on, it is the first of the
    solids with the highest ID among those not ignored. *)
Lemma last_cons {A} (l : list A) :
  forall a d d', last (a :: l) d = last (a :: l) d'.
Proof.
  induction l as [|b l IH]; intros a d d'; [reflexivity|].
  change (last (b :: l) d = last (b :: l) d'). apply IH.
Qed.

Lemma max_element_from_priority (l : list (solid * bool)) :
  forall largest,
    let r := max_element_from lower_priority largest l in
    In r (largest :: l)
    /\ (snd largest = false ->
        snd r = false
        /\ (ID (fst largest) <= ID (fst r))%Z
        /\ forall e, In e l -> snd e = false -> (ID (fst e) <= ID (fst r))%Z)
    /\ (snd largest = true ->
        (forall e, In e l -> snd e = true) -> r = last l largest)
    /\ (snd largest = true ->
        (exists e, In e l /\ snd e = false) ->
        snd r = false
        /\ forall e, In e l -> snd e = false -> (ID (fst e) <= ID (fst r))%Z).
Proof.
  induction l as [|a l IH]; intros largest; cbn zeta.
  - simpl. split; [left; reflexivity|]. split; [|split].
    + intros H. split; [exact H|]. split; [lia | intros e []].
    + reflexivity.
    + intros _ [e [[] _]].
  - cbn [max_element_from].
    specialize (IH (if lower_priority largest a then a else largest)).
    cbn zeta in IH. destruct IH as [Hin [Hfalse [Hlast Hsome]]].
    set (r := max_element_from lower_priority _ l) in *.
    split; [|split; [|split]].
    + destruct (lower_priority largest a); simpl in *;
        destruct Hin as [E | Hin]; auto.
    + intros Hl. unfold lower_priority in *. rewrite Hl in *. simpl in *.
      destruct (snd a) eqn:Ha; simpl in *.
      * destruct (Hfalse Hl) as [H1 [H2 H3]]. split; [exact H1|]. split; [exact H2|].
        intros e [<- | He] Hne; [congruence | apply H3; assumption].
      * destruct (ID (fst largest) <? ID (fst a))%Z eqn:Hlt.
        -- apply Z.ltb_lt in Hlt. destruct (Hfalse Ha) as [H1 [H2 H3]].
           split; [exact H1|]. split; [lia|].
           intros e [<- | He] Hne; [exact H2 | apply H3; assumption].
        -- apply Z.ltb_ge in Hlt. destruct (Hfalse Hl) as [H1 [H2 H3]].
           split; [exact H1|]. split; [exact H2|].
           intros e [<- | He] Hne; [lia | apply H3; assumption].
    + intros Hl Hall. unfold lower_priority in *. rewrite Hl in *. simpl in *.
      rewrite Hlast.
      * destruct l as [|b l]; [reflexivity|]. apply (last_cons l b).
      * apply Hall. left. reflexivity.
      * intros e He. apply Hall. right. exact He.
    + intros Hl [e0 [He0 Hne0]]. unfold lower_priority in *. rewrite Hl in *. simpl in *.
      destruct (snd a) eqn:Ha.
      * destruct He0 as [<- | He0]; [congruence|].
        destruct (Hsome eq_refl (ex_intro _ e0 (conj He0 Hne0))) as [H1 H2].
        split; [exact H1|]. intros e [<- | He] Hne; [congruence | apply H2; assumption].
      * destruct (Hfalse eq_refl) as [H1 [H2 H3]]. split; [exact H1|].
        intros e [<- | He] Hne; [exact H2 | apply H3; assumption].
Qed.

(** X9. The solid at a point: of the solids that the containment query
    returns, the one with the highest ID among those that are not being
    ignored.  When all of them are ignored, the last of them is returned, and
    when there is none the source dereferences [end()]. *)
Theorem GetSolid_at_highest (t : R) (p : vec3) (currentsolids : list (solid * bool)) :
  GetSolids t p = Ok currentsolids ->
  (currentsolids = [] -> GetSolid_at t p = Ok None)
  /\ ((exists e, In e currentsolids /\ snd e = false) ->
      exists sld,
        GetSolid_at t p = Ok (Some sld)
        /\ In (sld, false) currentsolids
        /\ forall e, In e currentsolids -> snd e = false -> (ID (fst e) <= ID sld)%Z)
  /\ (currentsolids <> [] ->
      (forall e, In e currentsolids -> snd e = true) ->
      forall d, GetSolid_at t p = Ok (Some (fst (last currentsolids d)))).
Proof.
  intros H. unfold Geometry.GetSolid_at. rewrite H. simpl.
  destruct currentsolids as [|a l].
  - split; [reflexivity|]. split; [intros [e [[] _]] | intros E; contradiction E; reflexivity].
  - pose proof (max_element_from_priority l a) as Hmax. cbn zeta in Hmax.
    destruct Hmax as [Hin [Hfalse [Hlast Hsome]]].
    set (r := max_element_from lower_priority a l) in *.
    split; [discriminate|]. split.
    + intros [e0 [He0 Hne0]]. exists (fst r). cbn [max_element option_map].
      split; [reflexivity|].
      destruct (snd a) eqn:Ha.
      * destruct He0 as [<- | He0]; [congruence|].
        destruct (Hsome eq_refl (ex_intro _ e0 (conj He0 Hne0))) as [H1 H2].
        split.
        -- rewrite <- H1, <- surjective_pairing. exact Hin.
        -- intros e [<- | He] Hne; [congruence | apply H2; assumption].
      * destruct (Hfalse eq_refl) as [H1 [H2 H3]]. split.
        -- rewrite <- H1, <- surjective_pairing. exact Hin.
        -- intros e [<- | He] Hne; [exact H2 | apply H3; assumption].
    + intros _ Hall d. cbn [max_element option_map]. do 2 f_equal.
      fold r. rewrite Hlast.
      * destruct l as [|b l]; [reflexivity|].
        change (last (a :: b :: l) d) with (last (b :: l) d).
        rewrite (last_cons l b a d). reflexivity.
      * apply Hall. left. reflexivity.
      * intros e He. apply Hall. right. exact He.
Qed.

End PriorityFacts.

(** ** Instances *)

Section GeometryExamples.

Import Particle. Import Scenario.

(** X3, an instance: the world of a default solid and the solid 3. *)
Lemma TGeometry_new_solids_witness :
  exists materials,
    Geometry.read_materials [("Cu"%string, copper_line)] = Ok materials
    /\ Forall2
         (fun entry sld =>
            exists file matname times nm mt,
              snd entry = Geometry.Line file matname times
              /\ Geometry.find_material materials matname = Some mt
              /\ (fun file (_ : Z) => Ok file) file (fst entry) = Ok nm
              /\ sld = {| ID := fst entry; name := nm; filename := file; mat := mt;
                          ignoretimes := times |})
         (filter (fun e => negb (fst e =? 1)%Z)
                 [(1%Z, Geometry.Line "ignored" "Cu" []);
                  (3%Z, Geometry.Line "shutter.stl" "Cu" [(0, 1)])])
         (Geometry.solids world).
Proof.
  exact (TGeometry_new_solids (fun file _ => Ok file) unset_solid _ _ world world_built).
Defined.

(** X4, an instance: the default solid of this world. *)
Lemma TGeometry_new_defaultsolid_witness :
  exists materials mt,
    Geometry.read_materials [("Cu"%string, copper_line)] = Ok materials
    /\ Geometry.find_material materials "Cu" = Some mt
    /\ Geometry.defaultsolid world
       = {| ID := 1; name := "default solid"; filename := "ignored"; mat := mt;
            ignoretimes := [] |}.
Proof.
  apply (proj1 (proj2 (TGeometry_new_defaultsolid (fun file _ => Ok file) unset_solid _ _
                                                  world world_built))
               [] "ignored"%string "Cu"%string []
               [(3%Z, Geometry.Line "shutter.stl" "Cu" [(0, 1)])] eq_refl).
  constructor; [discriminate | constructor].
Defined.

(** X5, an instance: a section with the one material "Cu". *)
Lemma read_materials_spec_witness :
  map mat_name [Geometry.material_named "Cu"] = map fst [("Cu"%string, copper_line)].
Proof.
  exact (proj1 (read_materials_spec _ _ read_copper)).
Defined.

(** X6, an instance: the second entry names the material "Fe", which is not
    defined; the broken third entry is not reached. *)
Lemma TGeometry_new_entry_errors_witness :
  Geometry.TGeometry_new (fun file _ => Ok file) unset_solid
    [("Cu"%string, copper_line)]
    ([(3%Z, Geometry.Line "shutter.stl" "Cu" [(0, 1)])]
       ++ (4%Z, Geometry.Line "b.stl" "Fe" []) :: [(5%Z, Geometry.Line_without_names)])
  = Throw (Material_not_defined "Fe").
Proof.
  exact (proj1 (proj2 (proj2 (TGeometry_new_entry_errors
                                (fun file _ => Ok file) unset_solid
                                [("Cu"%string, copper_line)] [Geometry.material_named "Cu"]
                                [(3%Z, Geometry.Line "shutter.stl" "Cu" [(0, 1)])]
                                [(5%Z, Geometry.Line_without_names)] _ 4 read_copper
                                eq_refl)))
               "b.stl"%string "Fe"%string [] eq_refl).
Defined.

Lemma earlier_hit_asymmetric (a b : TCollision) :
  earlier_hit a b = true -> earlier_hit b a = false.
Proof.
  unfold earlier_hit. intros H. apply Rltb_true in H. apply Rltb_false. lra.
Qed.

Lemma far_then_near_tagged :
  Geometry.GetCollisions far_then_near earlier_hit world 0 (mk3 0 0 0) 4 (mk3 1 0 0)
  = Ok (true,
        [({| coll_s := 1 / 4; coll_normal := mk3 (-1) 0 0; coll_ID := 3 |}, false);
         ({| coll_s := 3 / 4; coll_normal := mk3 1 0 0; coll_ID := 3 |}, false)]).
Proof.
  unfold Geometry.GetCollisions, far_then_near, Geometry.tag_collisions.
  cbn [Geometry.GetSolid world Geometry.solids find shutter ID coll_ID Z.eqb Pos.eqb rbind
       ignoretimes existsb coll_s].
  assert (E1 : Geometry.in_ignoretime (0 + (4 - 0) * (3 / 4)) (0, 1) = false).
  { unfold Geometry.in_ignoretime. simpl.
    assert (E : Rltb (0 + (4 - 0) * (3 / 4)) 1 = false) by (apply Rltb_false; lra).
    rewrite E. apply andb_false_r. }
  assert (E2 : Geometry.in_ignoretime (0 + (4 - 0) * (1 / 4)) (0, 1) = false).
  { unfold Geometry.in_ignoretime. simpl.
    assert (E : Rltb (0 + (4 - 0) * (1 / 4)) 1 = false) by (apply Rltb_false; lra).
    rewrite E. apply andb_false_r. }
  rewrite E1, E2. cbn [orb Geometry.emplace fst earlier_hit coll_s].
  assert (E : Rltb (1 / 4) (3 / 4) = true) by (apply Rltb_true; lra).
  unfold earlier_hit. cbn [coll_s]. rewrite E. reflexivity.
Qed.

(** X7, an instance: the mesh reports the far face first, the records come
    with the near face first. *)
Lemma GetCollisions_in_order_witness :
  Sorted.Sorted (fun a b : TCollision * bool => earlier_hit (fst b) (fst a) = false)
         [({| coll_s := 1 / 4; coll_normal := mk3 (-1) 0 0; coll_ID := 3 |}, false);
          ({| coll_s := 3 / 4; coll_normal := mk3 1 0 0; coll_ID := 3 |}, false)].
Proof.
  exact (GetCollisions_in_order far_then_near earlier_hit world 0 (mk3 0 0 0) 4 (mk3 1 0 0)
                                true _ earlier_hit_asymmetric far_then_near_tagged).
Defined.

Lemma GetSolids_in_world_at (p : vec3) :
  GetSolids_in_world (1 / 2) p = Ok [(Geometry.defaultsolid world, false); (shutter, true)].
Proof.
  unfold GetSolids_in_world, Geometry.GetSolids, Geometry.GetCollisions,
    Geometry.tag_collisions.
  cbn [Geometry.GetSolid world Geometry.solids find shutter ID coll_ID surface Z.eqb Pos.eqb
       rbind ignoretimes existsb coll_s].
  assert (E : Geometry.in_ignoretime (1 / 2 + (1 / 2 - 1 / 2) * (1 / 2)) (0, 1) = true).
  { apply in_ignoretime_spec. simpl. lra. }
  rewrite E. reflexivity.
Qed.

(** X8, an instance: one surface of the solid 3 below the point, so that the
    point is in this solid. *)
Lemma GetSolids_parity_witness :
  existsb (Geometry.holds 3) [(Geometry.defaultsolid world, false); (shutter, true)]
  = xorb (ID (Geometry.defaultsolid world) =? 3)%Z
         (Nat.odd (count_occ Z.eq_dec
                     (map coll_ID
                          ((fun _ _ => [surface 3 1])
                             (mk3 0 0 0)
                             (mk3 (0 - tolerance) (0 - tolerance) (0 - tolerance))))
                     3%Z)).
Proof.
  exact (proj2 (GetSolids_parity (fun _ _ => [surface 3 1]) (fun _ _ => false) 0 0 0 tolerance
                                 world (1 / 2) (mk3 0 0 0) _
                                 (GetSolids_in_world_at (mk3 0 0 0)))
               3%Z).
Defined.

(** X9, an instance: at the time 1/2 the solid 3 is ignored, and the solid
    at the point is the default solid. *)
Lemma GetSolid_at_highest_witness :
  exists sld,
    GetSolid_in_world (1 / 2) (mk3 0 0 0) = Ok (Some sld)
    /\ In (sld, false) [(Geometry.defaultsolid world, false); (shutter, true)]
    /\ forall e,
        In e [(Geometry.defaultsolid world, false); (shutter, true)] ->
        snd e = false -> (ID (fst e) <= ID sld)%Z.
Proof.
  apply (proj1 (proj2 (GetSolid_at_highest (fun _ _ => [surface 3 1]) (fun _ _ => false)
                                           0 0 0 tolerance world (1 / 2) (mk3 0 0 0) _
                                           (GetSolids_in_world_at (mk3 0 0 0))))).
  exists (Geometry.defaultsolid world, false). split; [left; reflexivity | reflexivity].
Defined.

End GeometryExamples.

(** * Further properties of the particle *)

(** ** The set of current solids *)

Section CurrentSolids.

Import Particle.
Local Open Scope outcome_scope.

Variable U : Type.
Variable CheckSegment : vec6 -> vec6 -> bool.
Variable GetCollisions : R -> vec6 -> R -> vec6 -> list TCollision.
Variable solids : list solid.
Variable REFLECT_TOLERANCE : R.
Variable Stepper : Type.
Variable hdid : Stepper -> R.
Variable dense_out : Stepper -> nat -> R -> R -> R.
Variable OnHit : Z -> U -> R -> vec6 -> R -> vec6 -> vec3 -> solid -> solid -> OnHit_result U.
Variable OnStep : Z -> U -> R -> vec6 -> R -> vec6 -> solid -> OnStep_result U.
Variable output : TOutput.

Local Abbreviation enter := (enter U OnHit).
Local Abbreviation leave := (leave U OnHit).
Local Abbreviation CheckHit :=
  (CheckHit U CheckSegment GetCollisions solids REFLECT_TOLERANCE Stepper hdid dense_out
            OnHit OnStep output).
Local Abbreviation touches := (touches U solids).

Lemma set_insert_Forall (P : solid -> Prop) (e : solid) (set : list solid) :
  P e -> Forall P set -> Forall P (set_insert e set).
Proof.
  intros He. induction 1 as [|a set Ha Hset IH]; simpl.
  - constructor; [exact He | constructor].
  - destruct (ID e <? ID a)%Z; [|destruct (ID a <? ID e)%Z].
    + constructor; [exact He|]. constructor; assumption.
    + constructor; assumption.
    + constructor; assumption.
Qed.

Lemma set_insert_ascending (e : solid) (set : list solid) :
  ascending set -> ascending (set_insert e set).
Proof.
  induction set as [|a set IH]; simpl.
  - intros _. split; [constructor | exact I].
  - intros [Hlt Hset].
    destruct (ID e <? ID a)%Z eqn:E1; [|destruct (ID a <? ID e)%Z eqn:E2]; simpl.
    + apply Z.ltb_lt in E1. split; [|split; assumption].
      constructor; [exact E1|].
      eapply Forall_impl; [|exact Hlt]. simpl. intros b Hb. lia.
    + apply Z.ltb_lt in E2. split; [|apply IH, Hset].
      apply set_insert_Forall; assumption.
    + split; assumption.
Qed.

Lemma set_erase_ascending (sld : solid) (set : list solid) :
  ascending set -> ascending (set_erase sld set).
Proof.
  induction set as [|a set IH]; simpl; [auto|].
  intros [Hlt Hset]. destruct (negb (ID a =? ID sld)%Z); simpl.
  - split; [|apply IH, Hset]. unfold set_erase.
    apply Forall_forall. intros b Hb. apply filter_In in Hb.
    rewrite Forall_forall in Hlt. apply Hlt, (proj1 Hb).
  - apply IH, Hset.
Qed.

Lemma touches_ascending (p q : TParticle U) :
  touches p q -> ascending (currentsolids p) -> ascending (currentsolids q).
Proof.
  induction 1; simpl; auto.
  - apply set_insert_ascending.
  - apply set_erase_ascending.
Qed.

Lemma rbegin_app (init : list solid) (top : solid) : rbegin (init ++ [top]) = Some top.
Proof. unfold rbegin. rewrite rev_app_distr. reflexivity. Qed.

Lemma rbegin_next_app (init : list solid) (top : solid) :
  rbegin_next (init ++ [top]) = rbegin init.
Proof. unfold rbegin_next, rbegin. rewrite rev_app_distr. reflexivity. Qed.

Lemma rbegin_Some (set : list solid) (top : solid) :
  rbegin set = Some top -> exists init, set = init ++ [top].
Proof.
  unfold rbegin. intros H.
  destruct (rev set) as [|a l] eqn:E; [discriminate|].
  injection H as ->. exists (rev l).
  rewrite <- (rev_involutive set), E. reflexivity.
Qed.

Lemma ascending_app (init : list solid) (top : solid) :
  ascending (init ++ [top]) -> Forall (fun e => (ID e < ID top)%Z) init.
Proof.
  induction init as [|a init IH]; simpl; [constructor|].
  intros [Hlt Hset]. constructor; [|apply IH, Hset].
  rewrite Forall_forall in Hlt. apply Hlt, in_or_app. right. left. reflexivity.
Qed.

(** In a set in ascending order [rbegin] is the solid with the highest ID. *)
Lemma ascending_rbegin (set : list solid) (top : solid) :
  ascending set -> rbegin set = Some top ->
  Forall (fun e => (ID e <= ID top)%Z) set.
Proof.
  intros Hset Htop. apply rbegin_Some in Htop. destruct Htop as [init ->].
  apply ascending_app in Hset. apply Forall_app. split.
  - eapply Forall_impl; [|exact Hset]. simpl. intros. lia.
  - constructor; [lia | constructor].
Qed.

Lemma set_insert_top (h : solid) (set : list solid) :
  Forall (fun e => (ID e < ID h)%Z) set -> set_insert h set = set ++ [h].
Proof.
  induction 1 as [|a set Ha _ IH]; simpl; [reflexivity|].
  assert (E1 : (ID h <? ID a)%Z = false) by (apply Z.ltb_ge; lia).
  assert (E2 : (ID a <? ID h)%Z = true) by (apply Z.ltb_lt; lia).
  rewrite E1, E2, IH. reflexivity.
Qed.

Lemma set_erase_top (h : solid) (set : list solid) :
  Forall (fun e => (ID e < ID h)%Z) set -> set_erase h (set ++ [h]) = set.
Proof.
  unfold set_erase. induction 1 as [|a set Ha _ IH]; simpl.
  - rewrite Z.eqb_refl. reflexivity.
  - assert (E : (ID a =? ID h)%Z = false) by (apply Z.eqb_neq; lia).
    rewrite E. simpl. rewrite IH. reflexivity.
Qed.

Lemma set_contains_below (h : solid) (set : list solid) :
  Forall (fun e => (ID e < ID h)%Z) set -> set_contains h set = false.
Proof.
  unfold set_contains. induction 1 as [|a set Ha _ IH]; simpl; [reflexivity|].
  assert (E : (ID a =? ID h)%Z = false) by (apply Z.eqb_neq; lia).
  rewrite E, IH. reflexivity.
Qed.

Lemma set_contains_top (h : solid) (set : list solid) : set_contains h (set ++ [h]) = true.
Proof.
  unfold set_contains. rewrite existsb_app. simpl. rewrite Z.eqb_refl.
  rewrite orb_true_r. reflexivity.
Qed.

(** X10. A particle that enters a solid of higher priority than the one it is
    in and leaves it again, with hooks that let it pass, is in the same
    solids afterwards as before; both crossings are reported as hits, with
    the two solids in opposite roles. *)
Theorem enter_then_leave (x1 : R) (y1 : vec6) (x2 : R) (y2 : vec6) (coll : TCollision)
        (x1' : R) (y1' : vec6) (x2' : R) (y2' : vec6) (coll' : TCollision)
        (hitsolid leaving : solid) (p : TParticle U) :
  ascending (currentsolids p) ->
  rbegin (currentsolids p) = Some leaving ->
  (ID leaving < ID hitsolid)%Z ->
  (forall id u a b c d n s1 s2, hit_entering (OnHit id u a b c d n s1 s2) = Some s2) ->
  exists r1 xa ya q,
    enter x1 y1 x2 y2 coll hitsolid p
    = Ret (Passed (Some (ID leaving, ID hitsolid)) r1 xa ya q)
    /\ currentsolids q = currentsolids p ++ [hitsolid]
    /\ exists r2 xb yb q',
        leave x1' y1' x2' y2' coll' hitsolid q
        = Ret (Passed (Some (ID hitsolid, ID leaving)) r2 xb yb q')
        /\ currentsolids q' = currentsolids p.
Proof.
  intros Hasc Htop Hlt Hpass.
  assert (Hbelow : Forall (fun e => (ID e < ID hitsolid)%Z) (currentsolids p)).
  { eapply Forall_impl; [|exact (ascending_rbegin _ _ Hasc Htop)]. simpl. intros. lia. }
  unfold Particle.enter.
  rewrite (set_contains_below _ _ Hbelow), Htop. cbn [deref obind].
  assert (E : (ID hitsolid >? ID leaving)%Z = true) by (apply Z.gtb_lt, Hlt).
  rewrite E, Hpass. cbn zeta.
  do 4 eexists. split; [reflexivity|].
  cbn [currentsolids set_currentsolids after_OnHit set_ext set_ID].
  rewrite (set_insert_top _ _ Hbelow). split; [reflexivity|].
  unfold Particle.leave.
  cbn [currentsolids set_currentsolids after_OnHit set_ext set_ID].
  rewrite set_contains_top, rbegin_app, rbegin_next_app, Htop.
  cbn [negb deref obind]. rewrite Z.eqb_refl, Hpass.
  do 4 eexists. split; [reflexivity|].
  cbn [currentsolids set_currentsolids after_OnHit set_ext set_ID].
  apply set_erase_top, Hbelow.
Qed.

(** X11. [CheckHit] keeps [currentsolids] in ascending order of the IDs,
    without two solids of the same ID, so that the solid handed to [OnStep]
    and [OnHit] as the current one, [*currentsolids.rbegin()], is the solid
    with the highest ID. *)
Theorem CheckHit_keeps_ascending (st : Stepper) (x1 : R) (y1 : vec6) (x2 : R) (y2 : vec6)
        (pol iteration : Z) (p : TParticle U) (r : checked U) :
  ascending (currentsolids p) ->
  CheckHit st x1 y1 x2 y2 pol iteration p = Ret r ->
  ascending (currentsolids (particle r))
  /\ forall top,
      rbegin (currentsolids (particle r)) = Some top ->
      Forall (fun e => (ID e <= ID top)%Z) (currentsolids (particle r)).
Proof.
  intros Hasc H. apply CheckHit_touches in H.
  pose proof (touches_ascending _ _ H Hasc) as Hasc'.
  split; [exact Hasc'|]. intros top. apply ascending_rbegin, Hasc'.
Qed.

End CurrentSolids.

(** ** Bisection and recursion depth *)

Section BisectionFacts.

Import Particle.
Local Open Scope outcome_scope.

Variable U : Type.
Variable CheckSegment : vec6 -> vec6 -> bool.
Variable GetCollisions : R -> vec6 -> R -> vec6 -> list TCollision.
Variable solids : list solid.
Variable REFLECT_TOLERANCE : R.
Variable Stepper : Type.
Variable hdid : Stepper -> R.
Variable dense_out : Stepper -> nat -> R -> R -> R.
Variable OnHit : Z -> U -> R -> vec6 -> R -> vec6 -> vec3 -> solid -> solid -> OnHit_result U.
Variable OnStep : Z -> U -> R -> vec6 -> R -> vec6 -> solid -> OnStep_result U.
Variable output : TOutput.

Local Abbreviation localised := (localised REFLECT_TOLERANCE).
Local Abbreviation bisect_after := (bisect_after U Stepper).
Local Abbreviation bisect_over := (bisect_over U Stepper hdid dense_out).
Local Abbreviation bisect := (bisect U Stepper hdid dense_out).
Local Abbreviation CheckHit_body :=
  (CheckHit_body U CheckSegment GetCollisions solids REFLECT_TOLERANCE Stepper hdid dense_out
                 OnHit OnStep output).
Local Abbreviation CheckHit_rec :=
  (CheckHit_rec U CheckSegment GetCollisions solids REFLECT_TOLERANCE Stepper hdid dense_out
                OnHit OnStep output).
Local Abbreviation CheckHit :=
  (CheckHit U CheckSegment GetCollisions solids REFLECT_TOLERANCE Stepper hdid dense_out
            OnHit OnStep output).

(** X12. For a segment that runs forward in time and a collision at the
    coordinate [s >= 0], up to the iteration 100 the two cut times of the
    bisection lie around the collision time, the first not before the start
    of the segment, and they are [2 * (x2 - x1) * s * iteration / 100]
    apart. *)
Theorem cuts_bracket (x1 x2 s : R) (iteration : Z) :
  x1 <= x2 -> 0 <= s -> (0 <= iteration <= 100)%Z ->
  x1 <= cut_before x1 x2 s iteration
  /\ cut_before x1 x2 s iteration <= x1 + (x2 - x1) * s
  /\ x1 + (x2 - x1) * s <= cut_after x1 x2 s iteration
  /\ cut_after x1 x2 s iteration - cut_before x1 x2 s iteration
     = 2 * ((x2 - x1) * s) * (IZR iteration / 100).
Proof.
  intros Hx Hs [Hi0 Hi1]. unfold cut_before, cut_after.
  apply IZR_le in Hi0. apply IZR_le in Hi1.
  assert (Hd : 0 <= (x2 - x1) * s) by (apply Rmult_le_pos; lra).
  repeat split.
  - assert (0 <= (x2 - x1) * s * (1 - 1 / 100 * IZR iteration)).
    { apply Rmult_le_pos; lra. }
    lra.
  - assert (0 <= (x2 - x1) * s * (1 / 100 * IZR iteration)).
    { apply Rmult_le_pos; lra. }
    lra.
  - assert (0 <= (x2 - x1) * s * (1 / 100 * IZR iteration)).
    { apply Rmult_le_pos; lra. }
    lra.
  - field.
Qed.

(** The branch of [CheckHit] that bisects calls [self] with [iteration + 1]
    only. *)
Lemma bisect_ext (self self' : CheckHit_t U Stepper) (iteration : Z) :
  (forall st x1 y1 x2 y2 pol p,
      self st x1 y1 x2 y2 pol (iteration + 1)%Z p
      = self' st x1 y1 x2 y2 pol (iteration + 1)%Z p) ->
  forall st x1 y1 x2 y2 pol c p,
    bisect self st x1 y1 x2 y2 pol iteration c p
    = bisect self' st x1 y1 x2 y2 pol iteration c p.
Proof.
  intros Hself st x1 y1 x2 y2 pol c p.
  assert (Hover : forall a b d e f q,
             bisect_over self st a b d e f x2 y2 pol iteration c q
             = bisect_over self' st a b d e f x2 y2 pol iteration c q).
  { intros. unfold Particle.bisect_over, Particle.bisect_after.
    destruct (_ && _); [|apply Hself].
    rewrite Hself. destruct (self' _ _ _ _ _ _ _ _) as [r| |]; simpl; try reflexivity.
    destruct (changed r); [reflexivity | apply Hself]. }
  unfold Particle.bisect.
  destruct (_ && _); [|apply Hover].
  rewrite Hself. destruct (self' _ _ _ _ _ _ _ _) as [r| |]; simpl; try reflexivity.
  destruct (changed r); [reflexivity | apply Hover].
Qed.

(** X13. [CheckHit] ends: from the iteration [iteration] the recursion is at
    most [101 - iteration] deep, and with any larger bound on the depth the
    result is the same. *)
Theorem CheckHit_fuel (fuel : nat) (st : Stepper) (x1 : R) (y1 : vec6) (x2 : R) (y2 : vec6)
        (pol iteration : Z) (p : TParticle U) :
  (depth iteration <= fuel)%nat ->
  CheckHit_rec fuel st x1 y1 x2 y2 pol iteration p = CheckHit st x1 y1 x2 y2 pol iteration p
  /\ ends (CheckHit st x1 y1 x2 y2 pol iteration p).
Proof.
  intros Hfuel. split; [|apply CheckHit_ends].
  revert st x1 y1 x2 y2 pol iteration p Hfuel.
  induction fuel as [|fuel IH]; intros st x1 y1 x2 y2 pol iteration p Hfuel.
  - unfold depth in Hfuel. lia.
  - rewrite CheckHit_unfold. cbn [Particle.CheckHit_rec]. unfold Particle.CheckHit_body.
    destruct (negb (CheckSegment y1 y2)); [reflexivity|].
    destruct (GetCollisions x1 y1 (hdid st) y2) as [|coll rest]; [reflexivity|].
    destruct (localised (coll :: rest) coll _ iteration) eqn:Hloc; [reflexivity|].
    assert (Hit : (iteration <= 99)%Z).
    { destruct (Z_le_gt_dec iteration 99) as [H|H]; [exact H|].
      assert (E : localised (coll :: rest) coll
                            (distnormal_of y1 y2 (coll_normal coll)) iteration = true)
        by (apply localised_spec; right; exact H).
      rewrite E in Hloc. discriminate. }
    apply bisect_ext. intros. apply IH.
    rewrite (depth_succ iteration Hit) in Hfuel. lia.
Qed.

End BisectionFacts.

Section ParticleExamples.

Import Particle. Import Scenario.
Local Open Scope outcome_scope.

#[local] Opaque Particle.CheckHit_rec.

(** X10, an instance: from the default solid into the solid 3 and back. *)
Lemma enter_then_leave_witness :
  exists r1 xa ya q,
    enter unit pass_OnHit 0 (along_x 0 1) tolerance (along_x tolerance 1) (surface 0 (-1))
          (plain 3) (particle_in [plain 1])
    = Ret (Passed (Some (ID (plain 1), ID (plain 3))) r1 xa ya q)
    /\ currentsolids q = currentsolids (particle_in [plain 1]) ++ [plain 3]
    /\ exists r2 xb yb q',
        leave unit pass_OnHit 1 (along_x 1 1) 2 (along_x 2 1) (surface 0 1) (plain 3) q
        = Ret (Passed (Some (ID (plain 3), ID (plain 1))) r2 xb yb q')
        /\ currentsolids q' = currentsolids (particle_in [plain 1]).
Proof.
  apply (enter_then_leave unit pass_OnHit 0 (along_x 0 1) tolerance (along_x tolerance 1)
                          (surface 0 (-1)) 1 (along_x 1 1) 2 (along_x 2 1) (surface 0 1)
                          (plain 3) (plain 1) (particle_in [plain 1])).
  - simpl. split; [constructor | exact I].
  - reflexivity.
  - simpl. lia.
  - intros. reflexivity.
Defined.

(** X11, an instance: a free segment for a particle in the solids 1 and 5. *)
Lemma CheckHit_keeps_ascending_witness :
  ascending (currentsolids (particle_in [plain 1; plain 5]))
  /\ forall top,
      rbegin (currentsolids (particle_in [plain 1; plain 5])) = Some top ->
      Forall (fun e => (ID e <= ID top)%Z) (currentsolids (particle_in [plain 1; plain 5])).
Proof.
  apply (CheckHit_keeps_ascending
           unit (fun _ _ => true) (collisions_on_segment []) [plain 3] tolerance unit
           (fun _ => 1) flight pass_OnHit pass_OnStep all_logs tt
           1 (along_x 1 1) 2 (along_x 2 1) 0 1 (particle_in [plain 1; plain 5])
           {| changed := false; end_x := 2; end_y := along_x 2 1;
              particle := particle_in [plain 1; plain 5] |}).
  - simpl. repeat split; repeat constructor.
  - apply (CheckHit_in_free [plain 3] [] 1 (along_x 1 1) 2 (along_x 2 1) 0%Z 1%Z
                            [plain 1; plain 5] (plain 5)).
    + left. lra.
    + reflexivity.
Defined.

(** X12, an instance: a collision halfway along the segment from time 0 to time 1. *)
Lemma cuts_bracket_witness :
  0 <= cut_before 0 1 (1 / 2) 1
  /\ cut_before 0 1 (1 / 2) 1 <= 0 + (1 - 0) * (1 / 2)
  /\ 0 + (1 - 0) * (1 / 2) <= cut_after 0 1 (1 / 2) 1
  /\ cut_after 0 1 (1 / 2) 1 - cut_before 0 1 (1 / 2) 1
     = 2 * ((1 - 0) * (1 / 2)) * (IZR 1 / 100).
Proof.
  apply (cuts_bracket 0 1 (1 / 2) 1); [lra | lra | lia].
Defined.

(** X13, an instance: the bound 200 on the depth, from the iteration 1. *)
Lemma CheckHit_fuel_witness :
  CheckHit_rec unit (fun _ _ => true) (collisions_on_segment [surface 0 (-1)]) [plain 3]
               tolerance unit (fun _ => 1) flight pass_OnHit pass_OnStep all_logs
               200 tt 0 (along_x 0 1) tolerance (along_x tolerance 1) 0%Z 1%Z
               (particle_in [plain 1])
  = CheckHit unit (fun _ _ => true) (collisions_on_segment [surface 0 (-1)]) [plain 3]
             tolerance unit (fun _ => 1) flight pass_OnHit pass_OnStep all_logs
             tt 0 (along_x 0 1) tolerance (along_x tolerance 1) 0 1
             (particle_in [plain 1])
  /\ ends (CheckHit unit (fun _ _ => true) (collisions_on_segment [surface 0 (-1)]) [plain 3]
                    tolerance unit (fun _ => 1) flight pass_OnHit pass_OnStep all_logs
                    tt 0 (along_x 0 1) tolerance (along_x tolerance 1) 0 1
                    (particle_in [plain 1])).
Proof.
  assert (H : (depth 1 <= 200)%nat) by (unfold depth; simpl; lia).
  exact (CheckHit_fuel unit (fun _ _ => true) (collisions_on_segment [surface 0 (-1)])
                       [plain 3] tolerance unit (fun _ => 1) flight pass_OnHit pass_OnStep
                       all_logs 200 tt 0 (along_x 0 1) tolerance (along_x tolerance 1) 0 1
                       (particle_in [plain 1]) H).
Defined.

End ParticleExamples.

(** ** The loops of [Integrate] *)

Section LoopFacts.

Import Particle.
Local Open Scope outcome_scope.

Variable U : Type.
Variable CheckSegment : vec6 -> vec6 -> bool.
Variable GetCollisions : R -> vec6 -> R -> vec6 -> list TCollision.
Variable solids : list solid.
Variable GetSolids : R -> vec6 -> list solid.
Variable REFLECT_TOLERANCE : R.
Variable Stepper : Type.
Variable hdid : Stepper -> R.
Variable hnext : Stepper -> R.
Variable dense_out : Stepper -> nat -> R -> R -> R.
Variable step : Stepper -> R -> vec6 -> R -> option (Stepper * R * vec6).
Variable new_Stepper : vec6 -> R -> Stepper.
Variable OnHit : Z -> U -> R -> vec6 -> R -> vec6 -> vec3 -> solid -> solid -> OnHit_result U.
Variable OnStep : Z -> U -> R -> vec6 -> R -> vec6 -> solid -> OnStep_result U.
Variable Decay : TParticle U -> U.
Variable Epot : R -> vec6 -> Z -> R.
Variable m : R.
Variable c_0 : R.
Variable RELATIVISTIC_THRESHOLD : R.
Variable output : TOutput.
Variable x2_unset : R.
Variable y2_unset : vec6.

Local Abbreviation Ekin := (Ekin m c_0 RELATIVISTIC_THRESHOLD).
Local Abbreviation CheckHit :=
  (CheckHit U CheckSegment GetCollisions solids REFLECT_TOLERANCE Stepper hdid dense_out
            OnHit OnStep output).
Local Abbreviation log_sample :=
  (log_sample U Stepper hdid dense_out Epot m c_0 RELATIVISTIC_THRESHOLD output).
Local Abbreviation sample :=
  (sample U CheckSegment GetCollisions solids REFLECT_TOLERANCE Stepper hdid dense_out
          OnHit OnStep Epot m c_0 RELATIVISTIC_THRESHOLD output).
Local Abbreviation samples :=
  (samples U CheckSegment GetCollisions solids REFLECT_TOLERANCE Stepper hdid dense_out
           OnHit OnStep Epot m c_0 RELATIVISTIC_THRESHOLD output).
Local Abbreviation integration_step :=
  (integration_step U CheckSegment GetCollisions solids REFLECT_TOLERANCE Stepper hdid hnext
                    dense_out step OnHit OnStep Epot m c_0 RELATIVISTIC_THRESHOLD output).
Local Abbreviation integration :=
  (integration U CheckSegment GetCollisions solids REFLECT_TOLERANCE Stepper hdid hnext
               dense_out step OnHit OnStep Epot m c_0 RELATIVISTIC_THRESHOLD output).
Local Abbreviation Integrate :=
  (Integrate U CheckSegment GetCollisions solids GetSolids REFLECT_TOLERANCE Stepper hdid
             hnext dense_out step new_Stepper OnHit OnStep Decay Epot m c_0
             RELATIVISTIC_THRESHOLD output x2_unset y2_unset).
Local Abbreviation touches := (touches U solids).
Local Abbreviation located := (located U GetSolids).
Local Abbreviation stepsize := (stepsize U Stepper).

(** X14. The step size tried never leads beyond [tmax] or beyond the
    particle's life time, and it is the step size suggested whenever that
    one stays within both. *)
Theorem stepsize_bounds (tmax : R) (l : locals Stepper) (p : TParticle U) :
  x l + stepsize tmax l p <= tmax
  /\ x l + stepsize tmax l p <= tstart p + tau p
  /\ match h l with
     | Finite h0 =>
         stepsize tmax l p <= h0
         /\ (x l + h0 <= tmax -> x l + h0 <= tstart p + tau p -> stepsize tmax l p = h0)
     | Infinite => True
     end.
Proof.
  unfold Particle.stepsize.
  destruct (h l) as [h0|].
  - destruct (Rltb (tstart p + tau p) (x l + h0)) eqn:E1.
    + apply Rltb_true in E1.
      destruct (Rltb tmax (x l + (tstart p + tau p - x l))) eqn:E2.
      * apply Rltb_true in E2. repeat split; lra.
      * apply Rltb_false in E2. repeat split; lra.
    + apply Rltb_false in E1.
      destruct (Rltb tmax (x l + h0)) eqn:E2.
      * apply Rltb_true in E2. repeat split; lra.
      * apply Rltb_false in E2. repeat split; lra.
  - destruct (Rltb tmax (x l + (tstart p + tau p - x l))) eqn:E2.
    + apply Rltb_true in E2. repeat split; lra.
    + apply Rltb_false in E2. repeat split; lra.
Qed.

(** *** What [Integrate] keeps *)

Lemma continues_refl (p : TParticle U) : continues p p.
Proof. unfold continues. repeat split; try reflexivity; lra. Qed.

Lemma continues_trans (p q r : TParticle U) : continues p q -> continues q r -> continues p r.
Proof.
  unfold continues.
  intros [A1 [B1 [C1 [D1 [E1 [F1 G1]]]]]] [A2 [B2 [C2 [D2 [E2 [F2 G2]]]]]].
  rewrite A2, B2, C2, D2, E2. repeat split; try assumption; [lra | lia].
Qed.

Lemma touches_continues (p q : TParticle U) : touches p q -> continues p q.
Proof.
  induction 1; [apply continues_refl | eapply continues_trans; eassumption | ..];
    unfold continues; simpl; repeat split; try reflexivity; try lra; lia.
Qed.

Lemma distance_nonneg (y1 y2 : vec6) : 0 <= distance y1 y2.
Proof. apply sqrt_pos. Qed.

Lemma log_sample_continues (polarisation : Z) (l : locals Stepper) (r : checked U) :
  continues (particle r) (snd (log_sample polarisation l r)).
Proof.
  pose proof (distance_nonneg (y1 l) (end_y r)) as Hd.
  unfold Particle.log_sample, continues.
  destruct (changed r); cbn [fst snd];
    destruct (nextsnapshot l) as [|xsnap later];
    try destruct (snapshotlog output && _);
    destruct (tracklog output); cbn; repeat split; try reflexivity; try lra; lia.
Qed.

Lemma sample_continues (polarisation : Z) (l l' : locals Stepper) (p q : TParticle U) :
  sample polarisation l p = Ret (l', q) -> continues p q.
Proof.
  rewrite sample_unfold. intros H. apply bind_Ret in H. destruct H as [r [Hr H]].
  injection H as H. apply CheckHit_touches, touches_continues in Hr.
  eapply continues_trans; [exact Hr|].
  replace q with (snd (log_sample polarisation l r)) by (rewrite H; reflexivity).
  apply log_sample_continues.
Qed.

Lemma samples_continues (fuel : nat) (polarisation : Z) :
  forall (l l' : locals Stepper) (p q : TParticle U),
    samples fuel polarisation l p = Ret (l', q) -> continues p q.
Proof.
  induction fuel as [|fuel IH]; intros l l' p q; simpl; [discriminate|].
  destruct (Rltb (x1 l) (x l)).
  - intros H. apply bind_Ret in H. destruct H as [[l1 p1] [H1 H]].
    apply sample_continues in H1. apply IH in H.
    eapply continues_trans; eassumption.
  - intros H. injection H as _ <-. apply continues_refl.
Qed.

Lemma set_ID_continues (id : Z) (p : TParticle U) : continues p (set_ID id p).
Proof. unfold continues. simpl. repeat split; try reflexivity; try lra; try lia. Qed.

Lemma count_step_continues (p : TParticle U) : continues p (count_step p).
Proof. unfold continues. simpl. repeat split; try reflexivity; try lra; try lia. Qed.

Lemma integration_step_continues (fuel : nat) (tmax : R) (polarisation : Z)
      (l l' : locals Stepper) (p q : TParticle U) :
  integration_step fuel tmax polarisation l p = Ret (l', q) -> continues p q.
Proof.
  unfold Particle.integration_step.
  set (hh := stepsize tmax l p).
  destruct (step (stepper l) (x l) (y l) hh) as [[[st xn] yn]|].
  - intros H. apply bind_Ret in H. destruct H as [[l1 p1] [H1 H]].
    apply samples_continues in H1. injection H as _ <-.
    eapply continues_trans; [apply count_step_continues|].
    eapply continues_trans; [exact H1|].
    destruct (_ && _); [apply set_ID_continues|].
    destruct (_ && _); [apply set_ID_continues | apply continues_refl].
  - intros H. apply bind_Ret in H. destruct H as [[l1 p1] [H1 H]].
    apply samples_continues in H1. injection H as _ <-.
    eapply continues_trans; [apply set_ID_continues|].
    eapply continues_trans; [exact H1|].
    destruct (_ && _); [apply set_ID_continues|].
    destruct (_ && _); [apply set_ID_continues | apply continues_refl].
Qed.

Lemma integration_continues (fuel inner : nat) (tmax : R) (polarisation : Z) :
  forall (l l' : locals Stepper) (p q : TParticle U),
    integration fuel inner tmax polarisation l p = Ret (l', q) ->
    continues p q /\ ID_ q <> ID_UNKNOWN.
Proof.
  induction fuel as [|fuel IH]; intros l l' p q; simpl; [discriminate|].
  destruct (ID_ p =? ID_UNKNOWN)%Z eqn:E.
  - intros H. apply bind_Ret in H. destruct H as [[l1 p1] [H1 H]].
    apply integration_step_continues in H1. apply IH in H. destruct H as [H2 H3].
    split; [eapply continues_trans; eassumption | exact H3].
  - intros H. injection H as _ <-. split; [apply continues_refl | apply Z.eqb_neq, E].
Qed.

(** X15. [Integrate] leaves the start time, the start state, the start
    polarisation, the life time and the maximal trajectory length of the
    particle as they are; the trajectory length and the number of steps do
    not go down. *)
Theorem Integrate_continues (fuel inner : nat) (tmax : R) (p q : TParticle U) :
  Integrate fuel inner tmax p = Ret q ->
  tstart q = tstart p /\ ystart q = ystart p /\ polstart q = polstart p
  /\ tau q = tau p /\ maxtraj q = maxtraj p
  /\ lend p <= lend q /\ (Nstep p <= Nstep q)%Z.
Proof.
  unfold Particle.Integrate. fold (located p).
  intros H. apply bind_Ret in H. destruct H as [[l1 p1] [H1 H]].
  apply integration_continues in H1. destruct H1 as [H1 _]. injection H as <-.
  match goal with |- tstart ?q = _ /\ _ => change (continues p q) end.
  eapply continues_trans; [|eapply continues_trans; [exact H1|]].
  - eapply (continues_trans _ (located p)).
    + unfold Particle.located. destruct (currentsolids p); [|apply continues_refl].
      unfold continues. simpl. repeat split; try reflexivity; try lra; try lia.
    + destruct (tracklog output); [|apply continues_refl].
      unfold continues. simpl. repeat split; try reflexivity; try lra; try lia.
  - match goal with |- continues _ (if ?b then _ else _) => destruct b end;
      unfold continues; simpl; repeat split; try reflexivity; try lra; lia.
Qed.

(** X16. When [Integrate] returns, the particle is classified ([ID] is not
    [ID_UNKNOWN]), its polarisation is the one it came with, and the last
    line printed is the end line of the state returned: [tend], [yend],
    [polend], the total energy there, [ID] and [Hmax]. *)
Theorem Integrate_classified (fuel inner : nat) (tmax : R) (p q : TParticle U) :
  Integrate fuel inner tmax p = Ret q ->
  ID_ q <> ID_UNKNOWN
  /\ polend q = polend p
  /\ exists earlier,
      printed q
      = end_line (tend q) (yend q) (polend q)
                 (Ekin (yend q) + Epot (tend q) (yend q) (polend q)) (ID_ q) (Hmax q)
        :: earlier.
Proof.
  unfold Particle.Integrate. fold (located p).
  intros H. apply bind_Ret in H. destruct H as [[l1 p1] [H1 H]].
  apply integration_continues in H1. destruct H1 as [_ H1]. injection H as <-.
  assert (Hpol : polend (located p) = polend p).
  { unfold Particle.located. destruct (currentsolids p); reflexivity. }
  match goal with |- context [if ?b then _ else _] => destruct b end;
    simpl; (split; [exact H1|]); (split; [exact Hpol|]); eexists; reflexivity.
Qed.

(** X17. Under a potential energy that does not depend on time, after every
    turn of the loop [while (x1 < x)] the maximal energy [Hmax] is at least
    the total energy at the point reached, which is the energy that the track
    line printed in this turn shows. *)
Theorem sample_Hmax (polarisation : Z) (l l' : locals Stepper) (p q : TParticle U) :
  (forall t t' y pol, Epot t y pol = Epot t' y pol) ->
  sample polarisation l p = Ret (l', q) ->
  Hmax p <= Hmax q
  /\ Ekin (y1 l') + Epot (x1 l') (y1 l') polarisation <= Hmax q
  /\ (tracklog output = true ->
      exists H E earlier,
        printed q = track_line (x1 l') (y1 l') polarisation H E :: earlier
        /\ H = Ekin (y1 l') + Epot (x1 l') (y1 l') polarisation
        /\ H <= Hmax q).
Proof.
  intros Htime. rewrite sample_unfold. intros H. apply bind_Ret in H.
  destruct H as [r [Hr H]]. injection H as H.
  apply CheckHit_touches, touches_frame in Hr. destruct Hr as [Hr _].
  destruct (log_sample_spec U Stepper hdid dense_out Epot m c_0 RELATIVISTIC_THRESHOLD output
                            polarisation l r) as [_ [HH [_ [Hx1 [Hy1 Hprint]]]]].
  rewrite H in *. cbn [fst snd] in *. rewrite Hx1, Hy1.
  assert (Hmaxq : Ekin (end_y r) + Epot (end_x r) (end_y r) polarisation <= Hmax q).
  { rewrite HH, (Htime (end_x r) (x l')). apply std_max_ge. }
  split; [|split].
  - rewrite HH, <- Hr. apply std_max_ge.
  - exact Hmaxq.
  - intros Ht. destruct (Hprint Ht) as [earlier E].
    do 3 eexists. split; [exact E|]. split; [reflexivity | exact Hmaxq].
Qed.

(** X18. A particle that is still unclassified after a turn of the loop
    [while (ID == ID_UNKNOWN)] has not reached its life time, the time [tmax]
    or its maximal trajectory length, and the next step size is the one the
    stepper suggests. *)
Theorem integration_step_unclassified (fuel : nat) (tmax : R) (polarisation : Z)
        (l l' : locals Stepper) (p q : TParticle U) :
  integration_step fuel tmax polarisation l p = Ret (l', q) ->
  ID_ q = ID_UNKNOWN ->
  x l' < tstart q + tau q /\ x l' < tmax /\ lend q < maxtraj q
  /\ h l' = Finite (hnext (stepper l')).
Proof.
  unfold Particle.integration_step.
  destruct (step (stepper l) (x l) (y l) _) as [[[st xn] yn]|];
    intros H; apply bind_Ret in H; destruct H as [[l1 p1] [_ H]];
    injection H as <- <-; cbn [x h stepper].
  all: destruct ((ID_ p1 =? ID_UNKNOWN)%Z && Rleb (tstart p1 + tau p1) (x l1)) eqn:E1;
    [discriminate|].
  all: destruct ((ID_ p1 =? ID_UNKNOWN)%Z
                 && (Rleb tmax (x l1) || Rleb (maxtraj p1) (lend p1))) eqn:E2;
    [discriminate|].
  all: intros HID; rewrite HID in E1, E2; simpl in E1, E2.
  all: apply Rleb_false in E1; apply orb_false_iff in E2; destruct E2 as [E2 E3].
  all: apply Rleb_false in E2; apply Rleb_false in E3; auto.
Qed.

End LoopFacts.

Section LoopExamples.

Import Particle. Import Scenario.
Local Open Scope outcome_scope.

#[local] Opaque Particle.CheckHit_rec.

Lemma gravity_steady (t t' : R) (y : vec6) (pol : Z) : gravity t y pol = gravity t' y pol.
Proof. reflexivity. Qed.

Lemma sample_under_gravity_returns :
  exists l' q, sample_under_gravity 0 after_step (particle_in [plain 1]) = Ret (l', q).
Proof.
  assert (Hns : next_sample unit (fun _ => 1) flight tt 0 (along_x 0 1) 1 (along_x 1 1)
                = (0 + MAX_SAMPLE_DIST / 1, along_x (0 + MAX_SAMPLE_DIST / 1) 1)).
  { unfold next_sample, over_speed. rewrite speed_along_x by lra.
    assert (H0 : Reqb 1 0 = false) by (apply Reqb_false; lra).
    assert (H1 : Rleb 1 (0 + MAX_SAMPLE_DIST / 1) = false)
      by (apply Rleb_false; unfold MAX_SAMPLE_DIST; lra).
    rewrite H0, H1. reflexivity. }
  unfold sample_under_gravity. rewrite sample_unfold. cbn [after_step stepper x1 y1 x y].
  rewrite Hns. cbn [fst snd]. rewrite CheckHit_unfold.
  cbn [CheckHit_body negb absorb particle_in particle_with currentsolids rbegin rev app
       hd_error deref obind].
  match goal with
  | |- exists l' q, Ret ?X = _ => exists (fst X), (snd X); rewrite <- surjective_pairing
  end.
  reflexivity.
Qed.

(** X17, an instance: the first piece of a step of a particle that flies
    along x under gravity. *)
Lemma sample_Hmax_witness :
  exists l' q,
    sample_under_gravity 0 after_step (particle_in [plain 1]) = Ret (l', q)
    /\ Hmax (particle_in [plain 1]) <= Hmax q
    /\ Ekin 1 299792458 (1 / 100) (y1 l') + gravity (x1 l') (y1 l') 0 <= Hmax q.
Proof.
  destruct sample_under_gravity_returns as [l' [q H]].
  exists l', q. split; [exact H|].
  pose proof (sample_Hmax unit (fun _ _ => true) (fun _ _ _ _ => []) [] tolerance unit
                          (fun _ => 1) flight pass_OnHit pass_OnStep gravity 1 299792458
                          (1 / 100) all_logs 0 after_step l' (particle_in [plain 1]) q
                          gravity_steady H) as [H1 [H2 _]].
  split; assumption.
Defined.

Lemma Rltb_irrefl (a : R) : Rltb a a = false.
Proof. apply Rltb_false. lra. Qed.

Lemma speed_at_rest (px : R) : speed (along_x px 0) = 0.
Proof. apply speed_along_x. lra. Qed.

Lemma over_speed_at_rest (c : R) : over_speed c 0 = Infinite.
Proof.
  unfold over_speed. assert (E : Reqb 0 0 = true) by (apply Reqb_true; reflexivity).
  rewrite E. reflexivity.
Qed.

(** A turn of the loop [while (x1 < x)] for a particle at rest: the piece is
    the whole step, and it is free. *)
Lemma sample_at_rest (xe : R) (hh : xreal) (p : TParticle unit) (top : solid) :
  rbegin (currentsolids p) = Some top ->
  sample_under_gravity
    0 {| x := xe; y := along_x 0 0; x1 := 0; y1 := along_x 0 0; h := hh; stepper := tt;
         nextsnapshot := [] |} p
  = Ret (log_sample unit unit (fun _ => 1) flight gravity 1 299792458 (1 / 100) all_logs 0
                    {| x := xe; y := along_x 0 0; x1 := 0; y1 := along_x 0 0; h := hh;
                       stepper := tt; nextsnapshot := [] |}
                    {| changed := false; end_x := xe; end_y := along_x 0 0;
                       particle :=
                         after_OnStep unit
                                      (pass_OnStep (ID_ p) (ext p) 0 (along_x 0 0) xe
                                                   (along_x 0 0) top) p |}).
Proof.
  intros Htop. unfold sample_under_gravity. rewrite sample_unfold. cbn [stepper x1 y1 x y].
  unfold next_sample. rewrite speed_at_rest, over_speed_at_rest. cbn [fst snd].
  rewrite CheckHit_unfold. unfold CheckHit_body, absorb. cbn [negb]. rewrite Htop.
  reflexivity.
Qed.

Lemma Integrate_at_rest_returns :
  exists q,
    Integrate_at_rest 2 2 5 resting = Ret q
    /\ ID_ q = ID_NOT_FINISH /\ tend q = 0 + (5 - 0) /\ Nstep q = 1%Z.
Proof.
  unfold Integrate_at_rest, Integrate, integration, integration_step, stepsize, samples,
    step_at_rest.
  fold sample_under_gravity.
  cbn -[Rltb Rleb Reqb speed distance Ekin gravity CheckHit std_max sample_under_gravity
        over_speed].
  rewrite speed_at_rest, over_speed_at_rest.
  assert (E1 : Rltb 5 (0 + (0 + 10 - 0)) = true) by (apply Rltb_true; lra).
  assert (E2 : Rltb 0 (0 + (5 - 0)) = true) by (apply Rltb_true; lra).
  rewrite E1, E2.
  rewrite (sample_at_rest _ _ _ (plain 1)) by reflexivity.
  cbn -[Rltb Rleb Reqb speed distance Ekin gravity CheckHit std_max sample_under_gravity
        over_speed].
  rewrite Rltb_irrefl.
  cbn -[Rltb Rleb Reqb speed distance Ekin gravity CheckHit std_max sample_under_gravity
        over_speed].
  assert (E3 : Rleb (0 + 10) (0 + (5 - 0)) = false) by (apply Rleb_false; lra).
  assert (E4 : Rleb 5 (0 + (5 - 0)) = true) by (apply Rleb_true; lra).
  rewrite E3, E4.
  cbn -[Rltb Rleb Reqb speed distance Ekin gravity CheckHit std_max sample_under_gravity
        over_speed].
  eexists. split; [reflexivity|]. repeat split.
Qed.

(** X15, an instance: a particle at rest is integrated up to the time 5. *)
Lemma Integrate_continues_witness :
  exists q,
    Integrate_at_rest 2 2 5 resting = Ret q
    /\ tstart q = tstart resting /\ ystart q = ystart resting
    /\ polstart q = polstart resting /\ tau q = tau resting
    /\ maxtraj q = maxtraj resting
    /\ lend resting <= lend q /\ (Nstep resting <= Nstep q)%Z.
Proof.
  destruct Integrate_at_rest_returns as [q [H _]].
  exists q. split; [exact H|].
  exact (Integrate_continues
           unit (fun _ _ => true) (fun _ _ _ _ => []) [] (fun _ _ => [plain 1]) tolerance
           unit (fun _ => 1) (fun _ => 1) flight step_at_rest (fun _ _ => tt)
           pass_OnHit pass_OnStep (fun _ => tt) gravity 1 299792458 (1 / 100) all_logs
           0 (along_x 0 0) 2 2 5 resting q H).
Defined.

(** X16, an instance: the same particle at rest. *)
Lemma Integrate_classified_witness :
  exists q,
    Integrate_at_rest 2 2 5 resting = Ret q
    /\ ID_ q <> ID_UNKNOWN
    /\ polend q = polend resting
    /\ exists earlier,
        printed q
        = end_line (tend q) (yend q) (polend q)
                   (Ekin 1 299792458 (1 / 100) (yend q) + gravity (tend q) (yend q) (polend q))
                   (ID_ q) (Hmax q)
          :: earlier.
Proof.
  destruct Integrate_at_rest_returns as [q [H _]].
  exists q. split; [exact H|].
  exact (Integrate_classified
           unit (fun _ _ => true) (fun _ _ _ _ => []) [] (fun _ _ => [plain 1]) tolerance
           unit (fun _ => 1) (fun _ => 1) flight step_at_rest (fun _ _ => tt)
           pass_OnHit pass_OnStep (fun _ => tt) gravity 1 299792458 (1 / 100) all_logs
           0 (along_x 0 0) 2 2 5 resting q H).
Defined.

Lemma integration_step_at_rest_returns :
  exists l' q,
    integration_step_at_rest 2 5 0 at_start resting = Ret (l', q)
    /\ ID_ q = ID_UNKNOWN /\ x l' = 0 + (5 - 0) / 2.
Proof.
  unfold integration_step_at_rest, integration_step, stepsize, samples, step_half, at_start.
  fold sample_under_gravity.
  cbn -[Rltb Rleb Reqb speed distance Ekin gravity CheckHit std_max sample_under_gravity
        over_speed].
  assert (E1 : Rltb 5 (0 + (0 + 10 - 0)) = true) by (apply Rltb_true; lra).
  assert (E2 : Rltb 0 (0 + (5 - 0) / 2) = true) by (apply Rltb_true; lra).
  rewrite E1, E2.
  rewrite (sample_at_rest _ _ _ (plain 1)) by reflexivity.
  cbn -[Rltb Rleb Reqb speed distance Ekin gravity CheckHit std_max sample_under_gravity
        over_speed].
  rewrite Rltb_irrefl.
  cbn -[Rltb Rleb Reqb speed distance Ekin gravity CheckHit std_max sample_under_gravity
        over_speed].
  assert (E3 : Rleb (0 + 10) (0 + (5 - 0) / 2) = false) by (apply Rleb_false; lra).
  assert (E4 : Rleb 5 (0 + (5 - 0) / 2) = false) by (apply Rleb_false; lra).
  assert (E5 : Rleb 100 (0 + distance (along_x 0 0) (along_x 0 0)) = false).
  { apply Rleb_false. rewrite distance_along_x; lra. }
  rewrite E3, E4, E5.
  cbn -[Rltb Rleb Reqb speed distance Ekin gravity CheckHit std_max sample_under_gravity
        over_speed].
  do 2 eexists. split; [reflexivity|]. split; reflexivity.
Qed.

(** X18, an instance: a particle at rest after a step to the time 2.5, with
    [tmax] = 5 and a life time of 10. *)
Lemma integration_step_unclassified_witness :
  exists l' q,
    integration_step_at_rest 2 5 0 at_start resting = Ret (l', q)
    /\ x l' < tstart q + tau q /\ x l' < 5 /\ lend q < maxtraj q
    /\ h l' = Finite ((fun _ : unit => 1) (stepper l')).
Proof.
  destruct integration_step_at_rest_returns as [l' [q [H [HID _]]]].
  exists l', q. split; [exact H|].
  exact (integration_step_unclassified
           unit (fun _ _ => true) (fun _ _ _ _ => []) [] tolerance unit (fun _ => 1)
           (fun _ => 1) flight step_half pass_OnHit pass_OnStep gravity 1 299792458
           (1 / 100) all_logs 2 5 0 at_start l' resting q H HID).
Defined.

End LoopExamples.

(** ** Energies and equations of motion *)

Section EnergyFacts.

Import Particle.

Variable U : Type.
Variable GetSolids : R -> vec6 -> list solid.
Variable Epot : R -> vec6 -> Z -> R.
Variable m : R.
Variable c_0 : R.
Variable RELATIVISTIC_THRESHOLD : R.

Local Abbreviation Ekin := (Ekin m c_0 RELATIVISTIC_THRESHOLD).
Local Abbreviation InitV := (InitV U GetSolids Epot m c_0 RELATIVISTIC_THRESHOLD).
Local Abbreviation InitE := (InitE U GetSolids Epot m c_0 RELATIVISTIC_THRESHOLD).
Local Abbreviation vstart_of := (vstart_of m c_0).

(** X19. The kinetic energy of a particle of mass [m >= 0] that is slower
    than light is not negative, by either formula. *)
Theorem Ekin_nonneg (v : vec6) :
  0 <= m -> 0 < c_0 -> speed v < c_0 -> 0 <= Ekin v.
Proof.
  intros Hm Hc Hv. unfold Particle.Ekin.
  pose proof (sqrt_pos (at3 v * at3 v + at4 v * at4 v + at5 v * at5 v)) as Hs.
  fold (speed v) in *.
  destruct (Rltb (speed v / c_0) RELATIVISTIC_THRESHOLD).
  - assert (0 <= m * (speed v * speed v)).
    { apply Rmult_le_pos; [exact Hm | apply Rmult_le_pos; assumption]. }
    lra.
  - set (u := 1 - speed v * speed v / (c_0 * c_0)).
    assert (Hcc : 0 < c_0 * c_0) by (apply Rmult_lt_0_compat; assumption).
    assert (Hq : 0 <= speed v * speed v / (c_0 * c_0) < 1).
    { split.
      - apply Rmult_le_pos; [apply Rmult_le_pos; assumption|].
        apply Rlt_le, Rinv_0_lt_compat, Hcc.
      - apply (Rmult_lt_reg_r (c_0 * c_0)); [exact Hcc|].
        unfold Rdiv. rewrite Rmult_assoc, Rinv_l by lra.
        rewrite Rmult_1_r, Rmult_1_l.
        apply Rmult_le_0_lt_compat; assumption. }
    assert (Hu : 0 < u <= 1) by (unfold u; lra).
    assert (Hsu : 0 < sqrt u <= 1).
    { split; [apply sqrt_lt_R0; lra|].
      rewrite <- sqrt_1. apply sqrt_le_1_alt. lra. }
    assert (Hg : 1 <= 1 / sqrt u).
    { apply (Rmult_le_reg_r (sqrt u)); [lra|].
      unfold Rdiv. rewrite Rmult_assoc, Rinv_l by lra. lra. }
    apply Rmult_le_pos; [|lra].
    apply Rmult_le_pos; [lra | exact Hm].
Qed.

Lemma speed_spherical (x y z v phi theta : R) :
  0 <= v ->
  speed (mk6 x y z (v * cos phi * sin theta) (v * sin phi * sin theta) (v * cos theta)) = v.
Proof.
  intros Hv. unfold speed. cbn [at3 at4 at5].
  replace (v * cos phi * sin theta * (v * cos phi * sin theta)
           + v * sin phi * sin theta * (v * sin phi * sin theta)
           + v * cos theta * (v * cos theta))
    with (v * v * ((Rsqr (sin phi) + Rsqr (cos phi)) * Rsqr (sin theta) + Rsqr (cos theta)))
    by (unfold Rsqr; ring).
  rewrite (sin2_cos2 phi), Rmult_1_l.
  rewrite sin2_cos2, Rmult_1_r. apply sqrt_square, Hv.
Qed.

Lemma vstart_of_nonneg (E : R) : 0 <= c_0 -> 0 <= vstart_of E.
Proof.
  intros Hc. unfold Particle.vstart_of.
  destruct (Rltb _ _); [apply sqrt_pos|].
  apply Rmult_le_pos; [exact Hc | apply sqrt_pos].
Qed.

Lemma ystart_InitV (t atau : R) (y : vec6) (pol : Z) (trajl : R) (p : TParticle U) :
  ystart (InitV t atau y pol trajl p) = y.
Proof. unfold Particle.InitV. destruct (currentsolids p); reflexivity. Qed.

(** X20. A particle initialised with the kinetic energy [E] has the speed
    [vstart] in the direction of the two angles, and its kinetic energy is
    [E] again, as long as [InitE] and [Ekin] take the same side of their
    thresholds ([gammarel < 1.0001] in one, [v / c_0 <
    RELATIVISTIC_THRESHOLD] in the other). *)
Theorem InitE_Ekin (t atau x y z E phi theta : R) (pol : Z) (trajl : R) (p : TParticle U) :
  0 < m -> 0 < c_0 -> 0 <= E ->
  (E / m / c_0 / c_0 + 1 < 10001 / 10000 <-> vstart_of E / c_0 < RELATIVISTIC_THRESHOLD) ->
  speed (ystart (InitE t atau x y z E phi theta pol trajl p)) = vstart_of E
  /\ Ekin (ystart (InitE t atau x y z E phi theta pol trajl p)) = E.
Proof.
  intros Hm Hc HE Hsame. unfold Particle.InitE. rewrite ystart_InitV.
  pose proof (vstart_of_nonneg E (Rlt_le _ _ Hc)) as Hv.
  split; [apply speed_spherical, Hv|].
  unfold Particle.Ekin. rewrite (speed_spherical _ _ _ _ _ _ Hv).
  destruct (Rltb (vstart_of E / c_0) RELATIVISTIC_THRESHOLD) eqn:Hthr.
  - apply Rltb_true, Hsame in Hthr.
    unfold Particle.vstart_of. apply Rltb_true in Hthr. rewrite Hthr.
    rewrite Rmult_assoc, sqrt_sqrt.
    + field. lra.
    + apply Rmult_le_pos; [lra | apply Rlt_le, Rinv_0_lt_compat, Hm].
  - assert (Hg : Rltb (E / m / c_0 / c_0 + 1) (10001 / 10000) = false).
    { destruct (Rltb (E / m / c_0 / c_0 + 1) (10001 / 10000)) eqn:E1; [|reflexivity].
      apply Rltb_true, Hsame, Rltb_true in E1. rewrite E1 in Hthr. discriminate. }
    unfold Particle.vstart_of. rewrite Hg.
    set (g := E / m / c_0 / c_0 + 1).
    assert (Hg1 : 1 < g) by (apply Rltb_false in Hg; fold g in Hg; lra).
    assert (Hgg : 0 < g * g) by (apply Rmult_lt_0_compat; lra).
    assert (Hw : 0 <= 1 - 1 / (g * g)).
    { assert (1 / (g * g) <= 1); [|lra].
      apply (Rmult_le_reg_r (g * g)); [exact Hgg|].
      unfold Rdiv. rewrite Rmult_assoc, Rinv_l by lra.
      assert (1 * 1 <= g * g) by (apply Rmult_le_compat; lra). lra. }
    replace (1 - c_0 * sqrt (1 - 1 / (g * g)) * (c_0 * sqrt (1 - 1 / (g * g))) / (c_0 * c_0))
      with (1 - sqrt (1 - 1 / (g * g)) * sqrt (1 - 1 / (g * g))) by (field; lra).
    rewrite sqrt_sqrt by exact Hw.
    replace (1 - (1 - 1 / (g * g))) with (/ g * / g) by (field; lra).
    rewrite sqrt_square by (apply Rlt_le, Rinv_0_lt_compat; lra).
    replace (1 / / g) with g by (field; lra).
    unfold g. field. split; lra.
Qed.

End EnergyFacts.

Section DynamicsFacts.

Import Particle.

Variables q m mu : R.
Variables c_0 gravconst ele_e : R.

Local Abbreviation Epot := (Epot q m mu gravconst ele_e).
Local Abbreviation force := (force q m mu gravconst ele_e).
Local Abbreviation derivs := (derivs q m mu c_0 gravconst ele_e).

(** X21. The potential energy of the base class is that of gravity alone,
    [m * gravconst * z], without a field, for a particle without charge and
    magnetic moment, and for an unpolarised particle without charge; a
    particle without charge does not see the electric potential, one without
    magnetic moment does not see the magnetic field. *)
Theorem Epot_gravity (field : option TFieldManager) (t : R) (y : vec6) (polarisation : Z) :
  (field = None -> Epot field t y polarisation = m * gravconst * at2 y)
  /\ (q = 0 -> mu = 0 -> Epot field t y polarisation = m * gravconst * at2 y)
  /\ (q = 0 -> polarisation = 0%Z -> Epot field t y polarisation = m * gravconst * at2 y)
  /\ (forall f,
        field = Some f -> q = 0 -> mu <> 0 ->
        Epot field t y polarisation
        = - IZR polarisation * mu / ele_e * BField f (at0 y) (at1 y) (at2 y) t 3 0
          + m * gravconst * at2 y)
  /\ (forall f,
        field = Some f -> q <> 0 -> mu = 0 ->
        Epot field t y polarisation
        = q / ele_e * fst (EField f (at0 y) (at1 y) (at2 y) t) + m * gravconst * at2 y).
Proof.
  unfold Particle.Epot. repeat split.
  - intros ->. lra.
  - intros Hq Hmu. apply Reqb_true in Hq. apply Reqb_true in Hmu. rewrite Hq, Hmu.
    destruct field; simpl; lra.
  - intros Hq ->. apply Reqb_true in Hq. rewrite Hq.
    destruct field; simpl; [|lra]. destruct (Reqb mu 0); simpl; lra.
  - intros f -> Hq Hmu. apply Reqb_true in Hq. apply Reqb_false in Hmu. rewrite Hq, Hmu.
    simpl. lra.
  - intros f -> Hq Hmu. apply Reqb_false in Hq. apply Reqb_true in Hmu. rewrite Hq, Hmu.
    simpl. lra.
Qed.

(** X22. In the equations of motion the derivative of the position is the
    velocity, and the velocity changes at the rate [v . dv/dt = rel * (1 -
    v^2/c^2) * (v . F)]; without an electric field and without a force on the
    magnetic moment, [v . F] is the work of gravity alone: the magnetic part
    of the Lorentz force does no work. *)
Theorem derivs_work (field : option TFieldManager) (polend : Z) (x : R) (y : vec6) :
  m <> 0 -> ele_e <> 0 -> c_0 <> 0 ->
  let dydx := derivs field polend x y in
  let F := force field polend x y in
  let v2 := at3 y * at3 y + at4 y * at4 y + at5 y * at5 y in
  (at0 dydx, at1 dydx, at2 dydx) = (at3 y, at4 y, at5 y)
  /\ at3 y * at3 dydx + at4 y * at4 dydx + at5 y * at5 dydx
     = sqrt (1 - v2 / (c_0 * c_0)) / m / ele_e * (1 - v2 / (c_0 * c_0))
       * (at3 y * c0 F + at4 y * c1 F + at5 y * c2 F)
  /\ ((field = None \/ (forall f, field = Some f ->
                                  snd (EField f (at0 y) (at1 y) (at2 y) x) = mk3 0 0 0)
                       /\ (mu = 0 \/ polend = 0%Z)) ->
      at3 y * c0 F + at4 y * c1 F + at5 y * c2 F = - gravconst * m * ele_e * at5 y).
Proof.
  intros Hm He Hc dydx F v2. split; [reflexivity|]. split.
  - subst dydx. unfold Particle.derivs. fold F. cbn [at3 at4 at5].
    fold v2. set (rel := sqrt (1 - v2 / (c_0 * c_0)) / m / ele_e).
    subst v2. field. exact Hc.
  - assert (Hg : (if negb (Reqb m 0) then 0 + - gravconst * m * ele_e else 0)
                 = - gravconst * m * ele_e).
    { apply Reqb_false in Hm. rewrite Hm. simpl. lra. }
    intros [-> | [HE Hdip]]; subst F; unfold Particle.force.
    + cbn [c0 c1 c2]. rewrite Hg. ring.
    + destruct field as [f|]; [|cbn [c0 c1 c2]; rewrite Hg; ring].
      rewrite (HE f eq_refl).
      assert (Hd : negb (Reqb mu 0) && negb (polend =? 0)%Z = false).
      { destruct Hdip as [-> | ->].
        - assert (E : Reqb 0 0 = true) by (apply Reqb_true; reflexivity).
          rewrite E. reflexivity.
        - apply andb_false_r. }
      rewrite Hd, Hg. destruct (negb (Reqb q 0)); cbn [c0 c1 c2]; ring.
Qed.

End DynamicsFacts.

Section EnergyExamples.

Import Particle. Import Scenario.

(** X19, an instance: a particle of mass 1 with the speed 1. *)
Lemma Ekin_nonneg_witness : 0 <= Ekin 1 299792458 (1 / 100) (along_x 0 1).
Proof.
  apply Ekin_nonneg; [lra | lra |].
  rewrite speed_along_x; lra.
Defined.

Lemma vstart_of_half : vstart_of 1 1000 (1 / 2) = 1.
Proof.
  unfold vstart_of.
  assert (E : Rltb (1 / 2 / 1 / 1000 / 1000 + 1) (10001 / 10000) = true)
    by (apply Rltb_true; lra).
  rewrite E. replace (2 * (1 / 2) / 1) with 1 by lra. apply sqrt_1.
Qed.

(** X20, an instance: the energy 1/2 for a particle of mass 1, where the speed
    of light is 1000. *)
Lemma InitE_Ekin_witness :
  speed (ystart (InitE unit (fun _ _ => [plain 1]) gravity 1 1000 (1 / 100)
                       0 10 0 0 0 (1 / 2) 0 (PI / 2) 0 100 (particle_in [])))
  = vstart_of 1 1000 (1 / 2)
  /\ Ekin 1 1000 (1 / 100)
          (ystart (InitE unit (fun _ _ => [plain 1]) gravity 1 1000 (1 / 100)
                         0 10 0 0 0 (1 / 2) 0 (PI / 2) 0 100 (particle_in [])))
     = 1 / 2.
Proof.
  apply (InitE_Ekin unit (fun _ _ => [plain 1]) gravity 1 1000 (1 / 100)
                    0 10 0 0 0 (1 / 2) 0 (PI / 2) 0 100 (particle_in [])); try lra.
  rewrite vstart_of_half. split; intros _; lra.
Defined.

(** X22, an instance: a particle of charge 1 that flies along x through a
    magnetic field along z. *)
Lemma derivs_work_witness :
  at3 (along_x 0 1) * c0 (force 1 1 0 (981 / 100) 1 (Some field_along_z) 0 0 (along_x 0 1))
  + at4 (along_x 0 1) * c1 (force 1 1 0 (981 / 100) 1 (Some field_along_z) 0 0 (along_x 0 1))
  + at5 (along_x 0 1) * c2 (force 1 1 0 (981 / 100) 1 (Some field_along_z) 0 0 (along_x 0 1))
  = - (981 / 100) * 1 * 1 * at5 (along_x 0 1).
Proof.
  assert (Hm : (1 : R) <> 0) by lra.
  assert (Hc : (2 : R) <> 0) by lra.
  apply (proj2 (proj2 (derivs_work 1 1 0 2 (981 / 100) 1 (Some field_along_z) 0 0
                                   (along_x 0 1) Hm Hm Hc))).
  right. split.
  - intros f E. injection E as <-. reflexivity.
  - left. reflexivity.
Defined.

End EnergyExamples.
